(** * The Path Kernel of the Tiny Kernel Library: weight matrix, evaluation, cache

    A shallow embedding of [src/PathKernel.hpp] (class [PathKernel<SK>]) and of
    the ground kernel [SymKernel] it is used with, followed by the properties
    of the weight-matrix engine, of the kernel evaluators and of the cache
    files.  The matrix helpers of the namespace [ktools] and the single-list
    matrix form of [NormKernel], which are used on top of a [PathKernel],
    come after.

    Conventions of the embedding.
    - [double] and the template parameter [RET_TYPE] are one number type [T]
      with the operations the source uses ([Num]); the instance [Num_float]
      is IEEE 754 binary64, the instance [Num_Q] is exact rational
      arithmetic.
    - [size_t] indices are [nat]: every index the source computes is bounded
      by a vector size, and no subtraction in it goes below zero on a
      non-empty input.
    - [std::vector<std::vector<double> >] is [list (list T)]; [operator[]]
      is [get]/[set].  Out of range the C++ is undefined; [get] answers
      [num0] and [set] changes nothing there; [reachable_well_formed] shows
      that the table of an engine always is [_DIM] by [_DIM], so that the
      methods stay in range.
    - A [throw] is a value of [Exn] in the result; the state reached at the
      [throw] is kept, as the C++ objects keep their mutations.
    - The file system is a finite map from file names to cache files; the
      formatting of a [double] in a file name, which the C++ library does,
      is a parameter [fmt].  An input stream opens exactly on the names of
      the map.  Whether an output stream opens on a name is a parameter
      [ofs_opens]: it does not when the folder is missing or cannot be
      written, and the source never tests it. *)

From Stdlib Require Import PrimFloat QArith.
From stdpp Require Import gmap strings list fin_maps.

Local Close Scope Q_scope.
Local Open Scope nat_scope.

(** ** Numbers *)

Class Num (T : Type) := {
  num0 : T;                (* [RET_TYPE(0)], and the value [resize] pads with *)
  num1 : T;                (* the literal [1] *)
  num2 : T;                (* the literal [2] *)
  nadd : T -> T -> T;
  nmul : T -> T -> T;
  ndiv : T -> T -> T;
  nleb : T -> T -> bool;   (* [<=] *)
  nneqb : T -> T -> bool;  (* [!=] *)
}.

#[export] Instance Num_float : Num float := {|
  num0 := 0%float; num1 := 1%float; num2 := 2%float;
  nadd := PrimFloat.add; nmul := PrimFloat.mul; ndiv := PrimFloat.div;
  nleb := PrimFloat.leb;
  nneqb := fun x y => negb (PrimFloat.eqb x y) |}.

#[export] Instance Num_Q : Num Q := {|
  num0 := 0%Q; num1 := 1%Q; num2 := 2%Q;
  nadd := Qplus; nmul := Qmult; ndiv := Qdiv;
  nleb := Qle_bool;
  nneqb := fun x y => negb (Qeq_bool x y) |}.

(** ** Vectors of vectors *)

Section Matrix.
Context {T : Type} `{Num T}.

(** [m[i][j]] as an rvalue. *)
Definition get (m : list (list T)) (i j : nat) : T :=
  default num0 (row ← m !! i; row !! j).

(** [m[i][j] = v]. *)
Definition set (m : list (list T)) (i j : nat) (v : T) : list (list T) :=
  alter (<[j := v]>) i m.

(** [for (size_t i = a; i < b; i++) body], threading the state [st]. *)
Definition for_range {St : Type} (a b : nat) (body : nat -> St -> St) (st : St) : St :=
  foldl (fun st i => body i st) st (seq a (b - a)).

(** [m.resize(n); for (i < n) m[i].resize(n);] *)
Definition resize_square (n : nat) (m : list (list T)) : list (list T) :=
  for_range 0 n (fun i m => alter (resize n num0) i m) (resize n [] m).

(** The table [i, j < n |-> f i j]. *)
Definition table (f : nat -> nat -> T) (n : nat) : list (list T) :=
  (fun i => f i <$> seq 0 n) <$> seq 0 n.

(** [m] is an [n] by [n] table. *)
Definition dims (n : nat) (m : list (list T)) : Prop :=
  length m = n /\ Forall (fun row => length row = n) m.

End Matrix.

(** ** The class PathKernel: attributes and the weight matrix *)

Inductive Exn :=
| CHV_not_positive        (* throw: Parameter CHV is not positive. *)
| CD_not_positive         (* throw: Parameter CD is not positive. *)
| Empty_sequence_vector   (* throw: Empty sequence vector. *)
| skm_is_empty            (* SymKernel: throw: Parameter skm is empty. *)
| skm_not_square          (* SymKernel: throw: Parameter skm is not a square matrix. *)
| skm_not_symmetric       (* SymKernel: throw: Parameter skm is not a symmetric matrix. *)
| N_not_positive          (* SymKernel: throw: Parameter N is not positive. *)
| Empty_kernel_index_vector   (* SymKernel: throw: Empty kernel index vector. *)
| Index_exceeds_maximum   (* SymKernel: throw: Input kernel index exceeds maximum value. *).

Record PathKernel {T : Type} := mkPathKernel {
  _CHV : T;
  _CD : T;
  wmat : list (list T);
  _DIM : nat;
  wDir : string;
  wW : bool;
}.
Arguments PathKernel : clear implicits.

Section WeightMatrix.
Context {T : Type} `{Num T}.

Local Notation "a ⊕ b" := (nadd a b) (at level 50, left associativity).
Local Notation "a ⊗ b" := (nmul a b) (at level 40, left associativity).

Definition initWMat (pk : PathKernel T) : PathKernel T :=
  let w := resize 1 [] (wmat pk) in
  let w := alter (resize 1 num0) 0 w in
  let w := set w 0 0 num1 in
  {| _CHV := _CHV pk; _CD := _CD pk; wmat := w; _DIM := 1;
     wDir := wDir pk; wW := wW pk |}.

(** [PathKernel(SK &sk, const double CHV, const double CD)]. *)
Definition PathKernel_new (CHV CD : T) : Exn + PathKernel T :=
  if nleb CHV num0 then inl CHV_not_positive
  else if nleb CD num0 then inl CD_not_positive
  else inr (initWMat {| _CHV := CHV; _CD := CD; wmat := []; _DIM := 0;
                        wDir := ""; wW := false |}).

(** [temp = _CHV*wmat[i-1][0]; wmat[i][0] = wmat[0][i] = temp;] *)
Definition border_step (CHV : T) (i : nat) (w : list (list T)) : list (list T) :=
  let temp := CHV ⊗ get w (i - 1) 0 in
  set (set w 0 i temp) i 0 temp.

(** [temp = _CHV*(wmat[i-1][j]+wmat[i][j-1])+_CD*wmat[i-1][j-1];
    wmat[i][j] = wmat[j][i] = temp;] *)
Definition cell_step (CHV CD : T) (i j : nat) (w : list (list T)) : list (list T) :=
  let temp := (CHV ⊗ (get w (i - 1) j ⊕ get w i (j - 1)))
              ⊕ (CD ⊗ get w (i - 1) (j - 1)) in
  set (set w j i temp) i j temp.

(** [wmat[i][i] = 2*_CHV*wmat[i-1][i]+_CD*wmat[i-1][i-1];] *)
Definition diag_step (CHV CD : T) (i : nat) (w : list (list T)) : list (list T) :=
  set w i i ((num2 ⊗ CHV ⊗ get w (i - 1) i) ⊕ (CD ⊗ get w (i - 1) (i - 1))).

(** The body of [updateWMat] under [if (dim > _DIM)], on the table alone. *)
Definition grow (CHV CD : T) (old_dim dim : nat) (w : list (list T)) : list (list T) :=
  let w := resize_square dim w in
  let w := for_range old_dim dim (border_step CHV) w in
  let w := for_range 1 old_dim (fun i =>
             for_range old_dim dim (fun j => cell_step CHV CD i j)) w in
  for_range old_dim dim (fun i w =>
    for_range (i + 1) dim (fun j => cell_step CHV CD i j)
              (diag_step CHV CD i w)) w.

Definition updateWMat (dim : nat) (pk : PathKernel T) : PathKernel T :=
  if decide (_DIM pk < dim) then
    {| _CHV := _CHV pk; _CD := _CD pk;
       wmat := grow (_CHV pk) (_CD pk) (_DIM pk) dim (wmat pk);
       _DIM := dim; wDir := wDir pk; wW := wW pk |}
  else pk.

Definition getWMat (pk : PathKernel T) : list (list T) := wmat pk.

Definition folder (f : string) (w : bool) (pk : PathKernel T) : PathKernel T :=
  {| _CHV := _CHV pk; _CD := _CD pk; wmat := wmat pk; _DIM := _DIM pk;
     wDir := f; wW := w |}.

End WeightMatrix.

(** ** The recurrence of the weight matrix, computed from scratch

    [W[0][0] = 1], [W[0][j] = CHV * W[0][j-1]],
    [W[i][i] = 2*CHV*W[i-1][i] + CD*W[i-1][i-1]] and
    [W[i][j] = W[j][i] = CHV*(W[i-1][j] + W[i][j-1]) + CD*W[i-1][j-1]]
    for [1 <= i < j]: [W_upper] is the upper triangle, [W_rec] mirrors it. *)

Section Recurrence.
Context {T : Type} `{Num T}.
Variables CHV CD : T.

Fixpoint W_row0 (j : nat) : T :=
  match j with
  | 0 => num1
  | S j' => nmul CHV (W_row0 j')
  end.

Fixpoint W_upper (i : nat) : nat -> T :=
  match i with
  | 0 => W_row0
  | S i' =>
      fix row (j : nat) : T :=
        match j with
        | 0 => num0
        | S j' =>
            if decide (j' < i') then num0
            else if decide (j' = i') then
              nadd (nmul (nmul num2 CHV) (W_upper i' (S i'))) (nmul CD (W_upper i' i'))
            else
              nadd (nmul CHV (nadd (W_upper i' (S j')) (row j')))
                   (nmul CD (W_upper i' j'))
        end
  end.

Definition W_rec (i j : nat) : T :=
  if decide (i ≤ j) then W_upper i j else W_upper j i.

End Recurrence.

(** ** Evaluation of the kernel *)

(** The ground kernel [SK &_sk] borrowed through [RefKernel<SK>]: the two
    batched forms [PathKernel] calls, on symbols of type [Sym]. *)
Record GroundKernel (T Sym : Type) := mkGroundKernel {
  sk_cross : list Sym -> list Sym -> Exn + list (list T);  (* [_sk(s,t,skm)] *)
  sk_self : list Sym -> Exn + list (list T);               (* [_sk(s,skm)] *)
}.
Arguments sk_cross {T Sym}.
Arguments sk_self {T Sym}.

(** What a method leaves behind: the engine, the output argument it was
    given by reference, and the exception if it threw. *)
Record Res (T O : Type) := mkRes {
  res_pk : PathKernel T;
  res_out : O;
  res_exn : option Exn;
}.
Arguments mkRes {T O}.
Arguments res_pk {T O}.
Arguments res_out {T O}.
Arguments res_exn {T O}.

Section Evaluation.
Context {T : Type} `{Num T} {Sym : Type}.
Variable _sk : GroundKernel T Sym.

Local Notation "a ⊕ b" := (nadd a b) (at level 50, left associativity).
Local Notation "a ⊗ b" := (nmul a b) (at level 40, left associativity).
Local Notation "a ⊘ b" := (ndiv a b) (at level 40, left associativity).

(** [k += skm[i][j]*(wmat[i][j]+wmat[ls-i-1][lt-j-1])/2;] *)
Definition pair_term (skm w : list (list T)) (ls lt i j : nat) : T :=
  get skm i j ⊗ (get w i j ⊕ get w (ls - i - 1) (lt - j - 1)) ⊘ num2.

(** [operator()(s,t,k)] *)
Definition call_pairwise (s t : list Sym) (pk : PathKernel T) (k : T) : Res T T :=
  let ls := length s in
  let lt := length t in
  if decide (ls = 0 ∨ lt = 0) then mkRes pk k None
  else
    let pk := updateWMat (ls `max` lt) pk in
    match sk_cross _sk s t with
    | inl e => mkRes pk k (Some e)
    | inr skm =>
        let k := num0 in
        let k := for_range 0 ls (fun i =>
                   for_range 0 lt (fun j k =>
                     k ⊕ pair_term skm (wmat pk) ls lt i j)) k in
        mkRes pk k None
    end.

(** [operator()(s,k)] *)
Definition call_self (s : list Sym) (pk : PathKernel T) (k : T) : Res T T :=
  let ls := length s in
  if decide (ls = 0) then mkRes pk k None
  else
    let pk := updateWMat ls pk in
    match sk_self _sk s with
    | inl e => mkRes pk k (Some e)
    | inr skm =>
        let w := wmat pk in
        let k := num0 in
        let k := for_range 0 ls (fun i k =>
                   let k := k ⊕ get skm i i ⊗ get w i i in
                   for_range (i + 1) ls (fun j k =>
                     k ⊕ num2 ⊗ get skm i j
                           ⊗ (get w i j ⊕ get w (ls - i - 1) (ls - j - 1)) ⊘ num2) k) k in
        mkRes pk k None
    end.

(** A loop whose body may throw: once an exception is raised the remaining
    iterations do not run. *)
Definition for_range_exn {St : Type} (a b : nat)
    (body : nat -> St -> St * option Exn) (st : St) : St * option Exn :=
  foldl (fun r i => match r.2 with Some _ => r | None => body i r.1 end)
        (st, None) (seq a (b - a)).

Definition seq_at (slist : list (list Sym)) (i : nat) : list Sym :=
  default [] (slist !! i).

(** [operator()(s,t,km[i][j])] inside a batched form. *)
Definition pairwise_into (s t : list Sym) (i j : nat)
    (st : PathKernel T * list (list T)) : (PathKernel T * list (list T)) * option Exn :=
  let r := call_pairwise s t st.1 (get st.2 i j) in
  ((res_pk r, set st.2 i j (res_out r)), res_exn r).

(** [operator()(s,km[i][i])] inside a batched form. *)
Definition self_into (s : list Sym) (i : nat)
    (st : PathKernel T * list (list T)) : (PathKernel T * list (list T)) * option Exn :=
  let r := call_self s st.1 (get st.2 i i) in
  ((res_pk r, set st.2 i i (res_out r)), res_exn r).

(** [operator()(slist,tlist,km)] *)
Definition call_pairwiseMatrix (slist tlist : list (list Sym))
    (pk : PathKernel T) (km : list (list T)) : Res T (list (list T)) :=
  let lsl := length slist in
  let ltl := length tlist in
  if decide (lsl = 0 ∨ ltl = 0) then mkRes pk km (Some Empty_sequence_vector)
  else
    let km := resize lsl [] km in
    let r := for_range_exn 0 lsl (fun i st =>
               let st := (st.1, alter (resize ltl num0) i st.2) in
               for_range_exn 0 ltl (fun j =>
                 pairwise_into (seq_at slist i) (seq_at tlist j) i j) st)
             (pk, km) in
    mkRes r.1.1 r.1.2 r.2.

(** [operator()(slist,km)] *)
Definition call_selfMatrix (slist : list (list Sym))
    (pk : PathKernel T) (km : list (list T)) : Res T (list (list T)) :=
  let lsl := length slist in
  let km := resize lsl [] km in
  if decide (lsl = 0) then mkRes pk km (Some Empty_sequence_vector)
  else
    let r := for_range_exn 0 lsl (fun i st =>
               let st := (st.1, alter (resize lsl num0) i st.2) in
               match self_into (seq_at slist i) i st with
               | (st, Some e) => (st, Some e)
               | (st, None) =>
                   for_range_exn 0 i (fun j st =>
                     match pairwise_into (seq_at slist i) (seq_at slist j) i j st with
                     | (st, Some e) => (st, Some e)
                     | (st, None) => ((st.1, set st.2 j i (get st.2 i j)), None)
                     end) st
               end)
             (pk, km) in
    mkRes r.1.1 r.1.2 r.2.

(** [operator()(slist,kv)] *)
Definition call_selfVector (slist : list (list Sym))
    (pk : PathKernel T) (kv : list T) : Res T (list T) :=
  let lsl := length slist in
  let kv := resize lsl num0 kv in
  let r := for_range_exn 0 lsl (fun i st =>
             let r := call_self (seq_at slist i) st.1 (default num0 (st.2 !! i)) in
             ((res_pk r, <[i := res_out r]> st.2), res_exn r))
           (pk, kv) in
  mkRes r.1.1 r.1.2 r.2.

End Evaluation.

(** ** The cache of weight matrices on disk *)

(** A cache file: the leading [size_t] and the [double]s that follow it,
    fewer than [cf_N * cf_N] of them in a truncated file.  A file exists when
    the map of the file system has it; opening an existing file for reading
    succeeds, opening a file for writing may fail ([ofs_opens] below), and a
    file too short for its leading [size_t] is not represented. *)
Record CacheFile (T : Type) := mkCacheFile {
  cf_N : nat;
  cf_data : list T;
}.
Arguments mkCacheFile {T}.
Arguments cf_N {T}.
Arguments cf_data {T}.

Section Persistence.
Context {T : Type} `{Num T}.

(** [std::scientific << std::setprecision(10) << x], of the C++ library. *)
Variable fmt : T -> string.

(** [sstr << wDir << "/wmat_CHV_" << ... << _CHV << "_CD_" << _CD << ".bin"] *)
Definition wmat_fname (pk : PathKernel T) : string :=
  wDir pk +:+ "/wmat_CHV_" +:+ fmt (_CHV pk) +:+ "_CD_" +:+ fmt (_CD pk) +:+ ".bin".

(** The two nested loops of [ofs.write((char* )&wmat[i][j], ...)]. *)
Definition write_wmat (dim : nat) (w : list (list T)) : list T :=
  for_range 0 dim (fun i =>
    for_range 0 dim (fun j ofs => ofs ++ [get w i j])) [].

(** Whether [std::ofstream ofs(fname, out|trunc|binary)] opens.  It does not
    when the folder does not exist or the file cannot be written; the
    [ofs.write] calls on a stream that did not open do nothing. *)
Variable ofs_opens : string -> bool.

(** [bool saveWMat() const]: the engine, the file system and the value
    returned.  The source does not test [ofs]: [save] is returned whether or
    not the stream opened. *)
Definition saveWMat (pk : PathKernel T) (fs : gmap string (CacheFile T))
    : PathKernel T * gmap string (CacheFile T) * bool :=
  let '(save, fname) :=
    if bool_decide (0 < String.length (wDir pk)) && wW pk then
      let fname := wmat_fname pk in
      match fs !! fname with
      | Some ifs => (bool_decide (cf_N ifs < _DIM pk), fname)
      | None => (true, fname)
      end
    else (false, "") in
  if save then
    let ofs := {| cf_N := _DIM pk; cf_data := write_wmat (_DIM pk) (wmat pk) |} in
    (pk, if ofs_opens fname then <[fname := ofs]> fs else fs, true)
  else (pk, fs, false).

(** [ifs.read((char* )&wmat[i][j], ...)]: past the end of the file the read
    fails and the cell keeps its value. *)
Definition read_cell (i j : nat) (st : list (list T) * list T) : list (list T) * list T :=
  match st.2 with
  | x :: ifs => (set st.1 i j x, ifs)
  | [] => st
  end.

Definition read_wmat (dim : nat) (w : list (list T)) (ifs : list T) : list (list T) :=
  (for_range 0 dim (fun i => for_range 0 dim (fun j => read_cell i j)) (w, ifs)).1.

(** [bool loadWMat()] *)
Definition loadWMat (pk : PathKernel T) (fs : gmap string (CacheFile T))
    : PathKernel T * gmap string (CacheFile T) * bool :=
  if decide (0 < String.length (wDir pk)) then
    match fs !! wmat_fname pk with
    | Some ifs =>
        let N := cf_N ifs in
        if decide (_DIM pk < N) then
          ({| _CHV := _CHV pk; _CD := _CD pk;
              wmat := read_wmat N (resize_square N (wmat pk)) (cf_data ifs);
              _DIM := N; wDir := wDir pk; wW := wW pk |}, fs, true)
        else (pk, fs, false)
    | None => (pk, fs, false)
    end
  else (pk, fs, false).

(** The states of an engine: constructed, then used through its public
    methods (the evaluators change it through [updateWMat] only). *)
Inductive reachable : PathKernel T -> Prop :=
| reach_new CHV CD pk :
    PathKernel_new CHV CD = inr pk -> reachable pk
| reach_updateWMat dim pk :
    reachable pk -> reachable (updateWMat dim pk)
| reach_folder f w pk :
    reachable pk -> reachable (folder f w pk)
| reach_loadWMat pk fs :
    reachable pk -> reachable (loadWMat pk fs).1.1.

End Persistence.

(** ** The ground kernel SymKernel *)

Record SymKernel (T : Type) := mkSymKernel {
  _skm : list (list T);
  _N : nat;
}.
Arguments mkSymKernel {T}.
Arguments _skm {T}.
Arguments _N {T}.

Section SymKernelDef.
Context {T : Type} `{Num T}.

(** A loop of checks: the first [throw] met, if any. *)
Definition first_exn (a b : nat) (chk : nat -> option Exn) : option Exn :=
  for_range a b (fun i e => match e with Some _ => e | None => chk i end) None.

(** [SymKernel(const std::vector<std::vector<VAL_TYPE> > &skm)] *)
Definition SymKernel_new (skm : list (list T)) : Exn + SymKernel T :=
  let N := length skm in
  if decide (N = 0) then inl skm_is_empty
  else
    match first_exn 0 N (fun i =>
            if decide (length (default [] (skm !! i)) ≠ N) then Some skm_not_square
            else first_exn 0 i (fun j =>
                   if nneqb (get skm i j) (get skm j i) then Some skm_not_symmetric
                   else None)) with
    | Some e => inl e
    | None =>
        let m := resize N [] skm in
        let m := for_range 0 N (fun i m =>
                   let m := alter (resize N num0) i m in
                   for_range 0 i (fun j m =>
                     let v := get skm i j in set (set m j i v) i j v) m) m in
        inr {| _skm := m; _N := N |}
    end.

(** [SymKernel(const size_t N)]: the identity matrix. *)
Definition SymKernel_id (N : nat) : Exn + SymKernel T :=
  if decide (N = 0) then inl N_not_positive
  else
    let m := resize N [] [] in
    let m := for_range 0 N (fun i m => set (alter (resize N num0) i m) i i num1) m in
    inr {| _skm := m; _N := N |}.

(** The index checks at the head of the batched operators. *)
Definition check_indices (sk : SymKernel T) (ilist : list nat) : option Exn :=
  first_exn 0 (length ilist) (fun i =>
    if decide (_N sk ≤ default 0 (ilist !! i)) then Some Index_exceeds_maximum
    else None).

(** [operator()(ilist,jlist,km)], on a fresh [km]. *)
Definition SymKernel_cross (sk : SymKernel T) (ilist jlist : list nat)
    : Exn + list (list T) :=
  let lil := length ilist in
  let ljl := length jlist in
  if decide (lil = 0 ∨ ljl = 0) then inl Empty_kernel_index_vector
  else
    match check_indices sk ilist with
    | Some e => inl e
    | None =>
        match check_indices sk jlist with
        | Some e => inl e
        | None =>
            let km := resize lil [] [] in
            inr (for_range 0 lil (fun i km =>
                   let km := alter (resize ljl num0) i km in
                   for_range 0 ljl (fun j km =>
                     set km i j (get (_skm sk) (default 0 (ilist !! i))
                                               (default 0 (jlist !! j)))) km) km)
        end
    end.

(** [operator()(ilist,km)], on a fresh [km]. *)
Definition SymKernel_self (sk : SymKernel T) (ilist : list nat)
    : Exn + list (list T) :=
  let lil := length ilist in
  if decide (lil = 0) then inl Empty_kernel_index_vector
  else
    match check_indices sk ilist with
    | Some e => inl e
    | None =>
        let km := resize lil [] [] in
        inr (for_range 0 lil (fun i km =>
               let km := alter (resize lil num0) i km in
               let ii := default 0 (ilist !! i) in
               let km := set km i i (get (_skm sk) ii ii) in
               for_range 0 i (fun j km =>
                 let v := get (_skm sk) ii (default 0 (ilist !! j)) in
                 set (set km j i v) i j v) km) km)
    end.

Definition SymKernel_ground (sk : SymKernel T) : GroundKernel T nat :=
  {| sk_cross := SymKernel_cross sk; sk_self := SymKernel_self sk |}.

End SymKernelDef.

(** ** Vocabulary of the statements *)

Section Vocabulary.
Context {T : Type} `{Num T}.

(** The engine whose table is the recurrence computed from scratch at
    dimension [D]. *)
Definition engine (CHV CD : T) (D : nat) (dir : string) (w : bool) : PathKernel T :=
  {| _CHV := CHV; _CD := CD; wmat := table (W_rec CHV CD) D; _DIM := D;
     wDir := dir; wW := w |}.

(** A sequence of calls [updateWMat(d1); updateWMat(d2); ...]. *)
Definition updateWMat_seq (ds : list nat) (pk : PathKernel T) : PathKernel T :=
  foldl (fun pk d => updateWMat d pk) pk ds.

Fixpoint non_decreasing (l : list nat) : bool :=
  match l with
  | a :: l' =>
      match l' with
      | b :: _ => (a <=? b) && non_decreasing l'
      | [] => true
      end
  | [] => true
  end.

(** While growing a table from dimension [d] to [n]: the cells above the
    diagonal that are final once the rows before [a] are complete and row
    [a] is complete up to column [b]. *)
Definition known (d n a b i j : nat) : Prop :=
  j < d ∨ (j < n ∧ (i < a ∨ (i = a ∧ j < b))).

(** Those cells and their mirror images hold the recurrence. *)
Definition Inv (CHV CD : T) (d n a b : nat) (w : list (list T)) : Prop :=
  dims n w ∧
  forall i j, i ≤ j -> known d n a b i j ->
    get w i j = W_upper CHV CD i j ∧ get w j i = W_upper CHV CD i j.

(** The invariant of the engine's attributes. *)
Definition well_formed (pk : PathKernel T) : Prop :=
  1 ≤ _DIM pk ∧ dims (_DIM pk) (wmat pk) ∧ (_DIM pk = 1 -> wmat pk = [[num1]]).

(** [Σ] in the order the loops add: from [num0], left to right. *)
Definition sum_list (l : list T) : T := foldl nadd num0 l.

End Vocabulary.

(** ** Inputs of the examples *)

#[local] Set Warnings "-inexact-float".

(** The indicator kernel on two symbols, [SymKernel(2)], and a kernel with
    two different self-similarities, [SymKernel({{1,0},{0,2}})]. *)
Definition indicator_float : SymKernel float :=
  {| _skm := [[1; 0]; [0; 1]]%float; _N := 2 |}.
Definition indicator_Q : SymKernel Q :=
  {| _skm := [[1; 0]; [0; 1]]%Q; _N := 2 |}.
Definition diag12_float : SymKernel float :=
  {| _skm := [[1; 0]; [0; 2]]%float; _N := 2 |}.
Definition diag12_Q : SymKernel Q :=
  {| _skm := [[1; 0]; [0; 2]]%Q; _N := 2 |}.

(** [_CHV_def], [_CD_def] and [PathKernel(SK &sk)], the constructor with
    the default step costs (it makes no check). *)
Definition _CHV_def : float := (0.9 / 3.0)%float.
Definition _CD_def : float := (1.1 / 3.0)%float.
Definition PathKernel_default : PathKernel float :=
  initWMat {| _CHV := _CHV_def; _CD := _CD_def; wmat := []; _DIM := 0;
              wDir := ""; wW := false |}.

(** The engine as the constructor leaves it when it does not throw. *)
Definition fresh {T : Type} `{Num T} (CHV CD : T) : PathKernel T :=
  {| _CHV := CHV; _CD := CD; wmat := [[num1]]; _DIM := 1; wDir := ""; wW := false |}.

(** The file-name formatting of the two step costs of the examples. *)
Definition fmt_example (x : float) : string :=
  if PrimFloat.eqb x 0.5 then "5.0000000000e-01" else "2.5000000000e-01".

(** * Further code: SymKernel, ktools, NormKernel *)

Section MoreVocabulary.
Context {T : Type} `{Num T}.

(** [pk'] is [pk] with a table at least as large: the same step costs, the
    same folder and write permission. *)
Definition grown (pk pk' : PathKernel T) : Prop :=
  _CHV pk' = _CHV pk ∧ _CD pk' = _CD pk ∧ _DIM pk ≤ _DIM pk'
  ∧ wDir pk' = wDir pk ∧ wW pk' = wW pk.

(** Row [i] of [km] exists and has [n] entries. *)
Definition has_row (km : list (list T)) (i n : nat) : Prop :=
  exists row, km !! i = Some row ∧ length row = n.

(** The values the two-sequence and the single-sequence operators store
    when called on a freshly constructed engine. *)
Definition pairwise_value {Sym : Type} (_sk : GroundKernel T Sym)
    (CHV CD : T) (s t : list Sym) : T :=
  res_out (call_pairwise _sk s t (engine CHV CD 1 "" false) num0).

Definition self_value {Sym : Type} (_sk : GroundKernel T Sym)
    (CHV CD : T) (s : list Sym) : T :=
  res_out (call_self _sk s (engine CHV CD 1 "" false) num0).

End MoreVocabulary.

(** An engine as [loadWMat] may leave it: a table that is not the
    recurrence. *)
Definition loaded_example : PathKernel float :=
  {| _CHV := 0.5%float; _CD := 0.25%float;
     wmat := [[1; 7]; [7; 9]]%float; _DIM := 2; wDir := "cache"; wW := true |}.

(** ** SymKernel: the single forms and the vector form *)

Section SymKernelMore.
Context {T : Type} `{Num T}.

(** [operator()(ii,jj,k)]: the value assigned to [k], or the exception. *)
Definition SymKernel_pair (sk : SymKernel T) (ii jj : nat) : Exn + T :=
  if decide (_N sk ≤ ii ∨ _N sk ≤ jj) then inl Index_exceeds_maximum
  else inr (get (_skm sk) ii jj).

(** [operator()(ii,k)] *)
Definition SymKernel_single (sk : SymKernel T) (ii : nat) : Exn + T :=
  if decide (_N sk ≤ ii) then inl Index_exceeds_maximum
  else inr (get (_skm sk) ii ii).

(** [operator()(ilist,kv)] *)
Definition SymKernel_diag (sk : SymKernel T) (ilist : list nat) (kv : list T)
    : Exn + list T :=
  let lil := length ilist in
  if decide (lil = 0) then inl Empty_kernel_index_vector
  else
    match check_indices sk ilist with
    | Some e => inl e
    | None =>
        let kv := resize lil num0 kv in
        inr (for_range 0 lil (fun i kv =>
               let ii := default 0 (ilist !! i) in
               <[i := get (_skm sk) ii ii]> kv) kv)
    end.

End SymKernelMore.

(** ** The namespace ktools: matrix checks and transformations *)

(** The further operations [ktools] uses on [RET_TYPE]: [-], [std::sqrt]
    and [>]. *)
Class NumMore (T : Type) := {
  nsub : T -> T -> T;
  nsqrt : T -> T;
  ngtb : T -> T -> bool;
}.

#[export] Instance NumMore_float : NumMore float := {|
  nsub := PrimFloat.sub;
  nsqrt := PrimFloat.sqrt;
  ngtb := fun x y => PrimFloat.ltb y x |}.

Section KTools.
Context {T : Type} `{Num T} `{NumMore T}.

(** A loop whose body may [return]: the value returned by the first
    iteration that returns, if any. *)
Definition for_return {R : Type} (a b : nat) (body : nat -> option R) : option R :=
  for_range a b (fun i r => match r with Some _ => r | None => body i end) None.

(** The row [m[i]]. *)
Definition row_at (m : list (list T)) (i : nat) : list T := default [] (m !! i).

Definition isSquare (m : list (list T)) : bool :=
  let N := length m in
  match for_return 0 N (fun i =>
          if decide (length (row_at m i) ≠ N) then Some false else None) with
  | Some b => b
  | None => true
  end.

Definition isSymmetric (m : list (list T)) : bool :=
  if negb (isSquare m) then false
  else
    let N := length m in
    match for_return 0 N (fun i => for_return 0 i (fun j =>
            if nneqb (get m i j) (get m j i) then Some false else None)) with
    | Some b => b
    | None => true
    end.

Definition respectsTriangleInequality (dm : list (list T)) : bool :=
  if negb (isSymmetric dm) then false
  else
    let N := length dm in
    match for_return 0 N (fun i => for_return 0 N (fun j => for_return 0 N (fun k =>
            if ngtb (get dm i j) (nadd (get dm i k) (get dm k j)) then Some false
            else None))) with
    | Some b => b
    | None => true
    end.

Definition respectsCauchySchwarz (km : list (list T)) : bool :=
  if negb (isSymmetric km) then false
  else
    match for_return 0 (length km) (fun i => for_return 0 i (fun j =>
            if ngtb (nmul (get km i j) (get km i j)) (nmul (get km i i) (get km j j))
            then Some false else None)) with
    | Some b => b
    | None => true
    end.

(** [resizeMat(m,NR,NC)] *)
Definition resizeMat (NR NC : nat) (m : list (list T)) : list (list T) :=
  for_range 0 NR (fun i m => alter (resize NC num0) i m) (resize NR [] m).

(** [kern2dist(dm)] *)
Definition kern2dist (dm : list (list T)) : list (list T) :=
  let dm := for_range 0 (length dm) (fun i =>
              for_range 0 i (fun j dm =>
                let v := nsqrt (nsub (nsub (nadd (get dm i i) (get dm j j))
                                           (get dm i j)) (get dm j i)) in
                set (set dm j i v) i j v)) dm in
  for_range 0 (length dm) (fun i dm => set dm i i num0) dm.

(** [kern2norm(nkm)] *)
Definition kern2norm (nkm : list (list T)) : list (list T) :=
  let nkm := for_range 0 (length nkm) (fun i =>
               for_range 0 i (fun j nkm =>
                 if nneqb (get nkm i j) num0 then
                   let nkm := set nkm i j
                     (ndiv (get nkm i j) (nsqrt (nmul (get nkm i i) (get nkm j j)))) in
                   set nkm j i (get nkm i j)
                 else nkm)) nkm in
  for_range 0 (length nkm) (fun i nkm =>
    if nneqb (get nkm i i) num0 then set nkm i i num1 else nkm) nkm.

(** The two loops of [NormKernel<SK>::operator()(xlist,km)] after the call
    of the inner kernel, for [n = xlist.size()]. *)
Definition NormKernel_normalize (n : nat) (km : list (list T)) : list (list T) :=
  let km := for_range 0 n (fun i =>
              for_range 0 i (fun j km =>
                if nneqb (get km i j) num0 then
                  let v := ndiv (get km i j) (nsqrt (nmul (get km i i) (get km j j))) in
                  set (set km j i v) i j v
                else km)) km in
  for_range 0 n (fun i km =>
    if nneqb (get km i i) num0 then set km i i num1 else km) km.

End KTools.

Section OverPathKernel.
Context {T : Type} `{Num T} `{NumMore T} {Sym : Type}.
Variable _sk : GroundKernel T Sym.

(** [ktools::dist(pk,slist,dm)] with a [PathKernel] for [sk]:
    [sk(xlist,dm); kern2dist(dm);]. *)
Definition ktools_dist_matrix (slist : list (list Sym)) (pk : PathKernel T)
    (dm : list (list T)) : Res T (list (list T)) :=
  let r := call_selfMatrix _sk slist pk dm in
  match res_exn r with
  | Some _ => r
  | None => mkRes (res_pk r) (kern2dist (res_out r)) None
  end.

(** [ktools::norm(pk,slist,nkm)]: [sk(xlist,nkm); kern2norm(nkm);]. *)
Definition ktools_norm_matrix (slist : list (list Sym)) (pk : PathKernel T)
    (nkm : list (list T)) : Res T (list (list T)) :=
  let r := call_selfMatrix _sk slist pk nkm in
  match res_exn r with
  | Some _ => r
  | None => mkRes (res_pk r) (kern2norm (res_out r)) None
  end.

(** [NormKernel<PathKernel<SK> >::operator()(xlist,km)]. *)
Definition NormKernel_selfMatrix (slist : list (list Sym)) (pk : PathKernel T)
    (km : list (list T)) : Res T (list (list T)) :=
  let r := call_selfMatrix _sk slist pk km in
  match res_exn r with
  | Some _ => r
  | None => mkRes (res_pk r) (NormKernel_normalize (length slist) (res_out r)) None
  end.

End OverPathKernel.

Section SweepVocabulary.
Context {T : Type} `{Num T} `{NumMore T}.

(** While a loop sweeps the pairs [j < i] in the order of [kern2dist]: the
    off-diagonal cells [(r, c)] whose pair has been swept when the loop is
    at [(i, j)]. *)
Definition swept (i j r c : nat) : Prop :=
  r ≠ c ∧ (r `max` c < i ∨ (r `max` c = i ∧ r `min` c < j)).

(** The distance [kern2dist] computes for the pair [j < i] of [dm]. *)
Definition dist_value (dm : list (list T)) (i j : nat) : T :=
  nsqrt (nsub (nsub (nadd (get dm i i) (get dm j j)) (get dm i j)) (get dm j i)).

(** The normalized value [kern2norm] computes for the pair [j < i] of
    [nkm], when [nkm[i][j]] is not zero. *)
Definition norm_value (nkm : list (list T)) (i j : nat) : option T :=
  if nneqb (get nkm i j) num0
  then Some (ndiv (get nkm i j) (nsqrt (nmul (get nkm i i) (get nkm j j))))
  else None.

End SweepVocabulary.

(** * Facts *)

(** ** Loops *)

Section LoopFacts.
Context {St : Type}.
Implicit Types (body : nat -> St -> St) (st : St).

Lemma for_range_empty a b body st : b ≤ a -> for_range a b body st = st.
Proof.
  intros Hle. unfold for_range.
  replace (b - a) with 0 by lia. reflexivity.
Qed.

Lemma for_range_snoc a b body st :
  a ≤ b -> for_range a (S b) body st = body b (for_range a b body st).
Proof.
  intros Hle. unfold for_range.
  replace (S b - a) with (S (b - a)) by lia.
  rewrite seq_S, foldl_app. simpl.
  replace (a + (b - a)) with b by lia. reflexivity.
Qed.

(** The invariant rule of a counted loop. *)
Lemma for_range_inv (P : nat -> St -> Prop) a b body st :
  a ≤ b ->
  P a st ->
  (forall i s, a ≤ i < b -> P i s -> P (S i) (body i s)) ->
  P b (for_range a b body st).
Proof.
  intros Hab H0 Hstep. induction b as [|b IH].
  - assert (a = 0) as -> by lia. rewrite for_range_empty by lia. exact H0.
  - destruct (decide (a = S b)) as [->|Hne].
    + rewrite for_range_empty by lia. exact H0.
    + rewrite for_range_snoc by lia. apply Hstep; [lia|].
      apply IH; [lia|]. intros i s Hi. apply Hstep. lia.
Qed.

End LoopFacts.

(** ** Tables *)

Section MatrixFacts.
Context {T : Type} `{Num T}.
Implicit Types (m w : list (list T)) (row : list T) (f : nat -> nat -> T).

Lemma dims_lookup n m i :
  dims n m -> i < n -> exists row, m !! i = Some row /\ length row = n.
Proof.
  intros [Hlen Hrows] Hi.
  destruct (lookup_lt_is_Some_2 m i) as [row Hrow]; [lia|].
  exists row. split; [done|].
  rewrite Forall_lookup in Hrows. eauto.
Qed.

Lemma get_lookup m i j row x :
  m !! i = Some row -> row !! j = Some x -> get m i j = x.
Proof. intros Hi Hj. unfold get. rewrite Hi. simpl. by rewrite Hj. Qed.

Lemma dims_get n m i j :
  dims n m -> i < n -> j < n ->
  exists row, m !! i = Some row /\ row !! j = Some (get m i j).
Proof.
  intros Hd Hi Hj. destruct (dims_lookup n m i Hd Hi) as (row & Hrow & Hlen).
  destruct (lookup_lt_is_Some_2 row j) as [x Hx]; [lia|].
  exists row. split; [done|]. by rewrite (get_lookup m i j row x).
Qed.

Lemma get_set_ne m i j v i' j' :
  (i, j) ≠ (i', j') -> get (set m i j v) i' j' = get m i' j'.
Proof.
  intros Hne. unfold get, set.
  destruct (decide (i = i')) as [<-|Hi].
  - rewrite list_lookup_alter_eq. destruct (m !! i) as [row|]; simpl; [|done].
    rewrite list_lookup_insert_ne; [done|]. congruence.
  - by rewrite list_lookup_alter_ne.
Qed.

Lemma get_alter_ne (g : list T -> list T) m i i' j :
  i ≠ i' -> get (alter g i m) i' j = get m i' j.
Proof. intros Hne. unfold get. by rewrite list_lookup_alter_ne. Qed.

Lemma get_set_lookup m i j v row :
  m !! i = Some row -> j < length row -> get (set m i j v) i j = v.
Proof.
  intros Hrow Hj. unfold get, set. rewrite list_lookup_alter_eq, Hrow. simpl.
  rewrite list_lookup_insert_eq; [done|lia].
Qed.

Lemma get_set_eq n m i j v :
  dims n m -> i < n -> j < n -> get (set m i j v) i j = v.
Proof.
  intros Hd Hi Hj. destruct (dims_lookup n m i Hd Hi) as (row & Hrow & Hlen).
  apply (get_set_lookup m i j v row); [done|lia].
Qed.

Lemma dims_set n m i j v : dims n m -> dims n (set m i j v).
Proof.
  intros [Hlen Hrows]. unfold set. split.
  - by rewrite length_alter.
  - apply Forall_alter; [done|]. intros row Hrow. by rewrite length_insert.
Qed.

(** Two tables of one size with the same cells are the same table. *)
Lemma matrix_ext n m w :
  dims n m -> dims n w ->
  (forall i j, i < n -> j < n -> get m i j = get w i j) ->
  m = w.
Proof.
  intros Hm Hw Hget. apply list_eq. intros i.
  destruct (decide (i < n)) as [Hi|Hi].
  - destruct (dims_lookup n m i Hm Hi) as (r1 & Hr1 & Hl1).
    destruct (dims_lookup n w i Hw Hi) as (r2 & Hr2 & Hl2).
    rewrite Hr1, Hr2. f_equal. apply list_eq. intros j.
    destruct (decide (j < n)) as [Hj|Hj].
    + destruct (lookup_lt_is_Some_2 r1 j) as [x Hx]; [lia|].
      destruct (lookup_lt_is_Some_2 r2 j) as [y Hy]; [lia|].
      rewrite Hx, Hy. f_equal.
      rewrite <- (get_lookup m i j r1 x Hr1 Hx), <- (get_lookup w i j r2 y Hr2 Hy).
      by apply Hget.
    + rewrite !lookup_ge_None_2; [done|lia|lia].
  - destruct Hm as [Hm _], Hw as [Hw _].
    rewrite !lookup_ge_None_2; [done|lia|lia].
Qed.

Lemma dims_table f n : dims n (table f n).
Proof.
  unfold table. split.
  - by rewrite length_fmap, length_seq.
  - apply Forall_fmap, Forall_forall. intros i _. simpl.
    by rewrite length_fmap, length_seq.
Qed.

Lemma get_table f n i j : i < n -> j < n -> get (table f n) i j = f i j.
Proof.
  intros Hi Hj. apply (get_lookup _ i j (f i <$> seq 0 n)).
  - unfold table. rewrite list_lookup_fmap, lookup_seq_lt by done. done.
  - rewrite list_lookup_fmap, lookup_seq_lt by done. done.
Qed.

Lemma alter_all (f : list T -> list T) m :
  for_range 0 (length m) (fun i m => alter f i m) m = f <$> m.
Proof.
  assert (forall k, k ≤ length m ->
    for_range 0 k (fun i m => alter f i m) m = (f <$> take k m) ++ drop k m) as Hk.
  { intros k Hk.
    apply (for_range_inv (fun k m' => m' = (f <$> take k m) ++ drop k m)); [lia|done|].
    intros i s Hi ->.
    destruct (lookup_lt_is_Some_2 m i) as [row Hrow]; [lia|].
    rewrite (take_S_r _ _ _ Hrow), (drop_S _ _ _ Hrow), fmap_app. simpl.
    rewrite alter_app_r_alt by (rewrite length_fmap, length_take; lia).
    replace (i - length (f <$> take i m)) with 0
      by (rewrite length_fmap, length_take; lia).
    by rewrite <- app_assoc. }
  rewrite Hk by lia. by rewrite firstn_all, drop_all, app_nil_r.
Qed.

Lemma resize_square_fmap n m :
  resize_square n m = resize n num0 <$> resize n [] m.
Proof.
  unfold resize_square.
  rewrite <- (alter_all (resize n num0) (resize n [] m)).
  by rewrite length_resize.
Qed.

Lemma dims_resize_square n m : dims n (resize_square n m).
Proof.
  rewrite resize_square_fmap. split.
  - by rewrite length_fmap, length_resize.
  - apply Forall_fmap, Forall_forall. intros row _. simpl. by rewrite length_resize.
Qed.

Lemma get_resize_square d n m i j :
  dims d m -> d ≤ n -> i < d -> j < d ->
  get (resize_square n m) i j = get m i j.
Proof.
  intros Hm Hdn Hi Hj.
  destruct (dims_get d m i j Hm Hi Hj) as (row & Hrow & Hx).
  assert (length row = d) as Hlen.
  { destruct (dims_lookup d m i Hm Hi) as (row' & Hrow' & Hlen). congruence. }
  apply (get_lookup _ i j (resize n num0 row)).
  - rewrite resize_square_fmap, list_lookup_fmap.
    destruct Hm as [Hm _].
    rewrite lookup_resize by lia. by rewrite Hrow.
  - rewrite lookup_resize by lia. done.
Qed.

End MatrixFacts.

(** ** The recurrence *)

Section RecurrenceFacts.
Context {T : Type} `{Num T}.
Variables CHV CD : T.

Local Notation "a ⊕ b" := (nadd a b) (at level 50, left associativity).
Local Notation "a ⊗ b" := (nmul a b) (at level 40, left associativity).
Local Abbreviation U := (W_upper CHV CD).

Lemma W_upper_border j : U 0 (S j) = CHV ⊗ U 0 j.
Proof. reflexivity. Qed.

Lemma W_upper_diag i :
  U (S i) (S i) = (num2 ⊗ CHV ⊗ U i (S i)) ⊕ (CD ⊗ U i i).
Proof.
  simpl. destruct (decide (i < i)); [lia|].
  destruct (decide (i = i)); [done|lia].
Qed.

Lemma W_upper_cell i j :
  i < j ->
  U (S i) (S j) = (CHV ⊗ (U i (S j) ⊕ U (S i) j)) ⊕ (CD ⊗ U i j).
Proof.
  intros Hij. simpl. destruct (decide (j < i)); [lia|].
  destruct (decide (j = i)); [lia|]. reflexivity.
Qed.

Lemma W_rec_sym i j : W_rec CHV CD i j = W_rec CHV CD j i.
Proof.
  unfold W_rec. repeat case_decide; try done; try lia.
  by replace j with i by lia.
Qed.

End RecurrenceFacts.

(** ** What growing the table computes *)

Section GrowFacts.
Context {T : Type} `{Num T}.
Variables CHV CD : T.
Variables d n : nat.
Hypothesis d_pos : 1 ≤ d.
Hypothesis d_lt_n : d < n.

Local Abbreviation U := (W_upper CHV CD).

Local Abbreviation known := (known d n).
Local Abbreviation Inv := (Inv CHV CD d n).

Lemma Inv_next_row a b w :
  Inv a n w -> b ≤ d ∨ b ≤ S a -> Inv (S a) b w.
Proof.
  intros [Hd Hc] Hb. split; [done|].
  intros i j Hij Hk. apply Hc; [done|]. unfold known in *. lia.
Qed.

(** Writing the value of the recurrence at the next cell and its mirror,
    in either order. *)
Lemma Inv_write a b w v w' :
  Inv a b w -> a ≤ b -> b < n -> v = U a b ->
  w' = set (set w b a v) a b v ∨ w' = set (set w a b v) b a v ->
  Inv a (S b) w'.
Proof.
  intros [Hd Hc] Hab Hbn -> Hw'.
  assert (dims n w') as Hd' by (destruct Hw' as [->| ->]; by do 2 apply dims_set).
  split; [done|].
  intros i j Hij Hk.
  destruct (decide (i = a ∧ j = b)) as [[-> ->]|Hne].
  - destruct (decide (a = b)) as [->|Hneq].
    + destruct Hw' as [->| ->];
        (split; (apply (get_set_eq n); [by apply dims_set|lia|lia])).
    + destruct Hw' as [->| ->]; split;
        first [ rewrite get_set_ne by congruence;
                apply (get_set_eq n); [done|lia|lia]
              | apply (get_set_eq n); [by apply dims_set|lia|lia] ].
  - assert (known a b i j) as Hk' by (unfold known in *; lia).
    destruct Hw' as [->| ->];
      (rewrite !get_set_ne by (intros [=]; lia); by apply Hc).
Qed.

Lemma Inv_border_step k w :
  Inv 0 k w -> d ≤ k -> k < n -> Inv 0 (S k) (border_step CHV k w).
Proof.
  intros HI Hdk Hkn. unfold border_step.
  eapply Inv_write; [done|lia|done| |by right].
  destruct HI as [_ Hc].
  destruct k as [|k']; [lia|].
  replace (S k' - 1) with k' by lia.
  destruct (Hc 0 k') as [_ ->]; [lia|unfold known; lia|].
  by rewrite W_upper_border.
Qed.

Lemma Inv_cell_step a b w :
  Inv a b w -> 1 ≤ a -> a < b -> b < n -> Inv a (S b) (cell_step CHV CD a b w).
Proof.
  intros HI Ha Hab Hbn. unfold cell_step.
  eapply Inv_write; [done|lia|done| |by left].
  destruct HI as [_ Hc].
  destruct a as [|a']; [lia|]. destruct b as [|b']; [lia|].
  replace (S a' - 1) with a' by lia. replace (S b' - 1) with b' by lia.
  destruct (Hc a' (S b')) as [-> _]; [lia|unfold known; lia|].
  destruct (Hc (S a') b') as [-> _]; [lia|unfold known; lia|].
  destruct (Hc a' b') as [-> _]; [lia|unfold known; lia|].
  by rewrite W_upper_cell by lia.
Qed.

Lemma Inv_diag_step a w :
  Inv a a w -> 1 ≤ a -> a < n -> Inv a (S a) (diag_step CHV CD a w).
Proof.
  intros HI Ha Han. unfold diag_step.
  destruct HI as [Hd Hc].
  set (v := nadd _ _).
  assert (v = U a a) as Hv.
  { subst v. destruct a as [|a']; [lia|].
    replace (S a' - 1) with a' by lia.
    destruct (Hc a' (S a')) as [-> _]; [lia|unfold known; lia|].
    destruct (Hc a' a') as [-> _]; [lia|unfold known; lia|].
    by rewrite W_upper_diag. }
  split; [by apply dims_set|].
  intros i j Hij Hk.
  destruct (decide (i = a ∧ j = a)) as [[-> ->]|Hne].
  - rewrite (get_set_eq n) by (done || lia). done.
  - assert (known a a i j) as Hk' by (unfold known in *; lia).
    rewrite !get_set_ne by (intros [=]; lia).
    by apply Hc.
Qed.

(** The inner loop over the columns of row [a]. *)
Lemma Inv_row a b w :
  Inv a b w -> 1 ≤ a -> a < b -> b ≤ n ->
  Inv a n (for_range b n (fun j => cell_step CHV CD a j) w).
Proof.
  intros HI Ha Hab Hbn.
  apply (for_range_inv (fun j w => Inv a j w)); [done|done|].
  intros j s Hj HIj. apply Inv_cell_step; [done|lia|lia|lia].
Qed.

Lemma Inv_grow w :
  dims d w ->
  (forall i j, i < d -> j < d -> get w i j = W_rec CHV CD i j) ->
  Inv (n - 1) n (grow CHV CD d n w).
Proof.
  intros Hd Hw. unfold grow.
  apply (for_range_inv (fun i w => Inv (i - 1) n w)); [lia| |].
  - apply (for_range_inv (fun i w => Inv (i - 1) n w)); [lia| |].
    + simpl.
      apply (for_range_inv (fun k w => Inv 0 k w)); [lia| |].
      * split; [apply dims_resize_square|].
        intros i j Hij Hk.
        assert (j < d) as Hjd by (unfold known in Hk; lia).
        rewrite !(get_resize_square d) by (done || lia).
        rewrite !Hw by lia. unfold W_rec.
        repeat case_decide; try lia; try done.
        by replace j with i by lia.
      * intros k s Hk HI. apply Inv_border_step; [done|lia|lia].
    + intros i s Hi HI.
      replace (S i - 1) with i by lia.
      apply Inv_row; [|lia|lia|lia].
      replace i with (S (i - 1)) at 1 by lia.
      apply Inv_next_row; [done|lia].
  - intros i s Hi HI.
    replace (S i - 1) with i by lia.
    apply Inv_row; [|lia|lia|lia].
    replace (i + 1) with (S i) by lia.
    apply Inv_diag_step; [|lia|lia].
    replace i with (S (i - 1)) at 1 by lia.
    apply Inv_next_row; [done|lia].
Qed.

(** Growing the table of the recurrence of size [d] gives the table of the
    recurrence of size [n]. *)
Lemma grow_table :
  grow CHV CD d n (table (W_rec CHV CD) d) = table (W_rec CHV CD) n.
Proof.
  destruct (Inv_grow (table (W_rec CHV CD) d)) as [Hd Hc].
  - apply dims_table.
  - intros i j Hi Hj. by apply get_table.
  - apply (matrix_ext n); [done|apply dims_table|].
    intros i j Hi Hj. rewrite get_table by done. unfold W_rec.
    case_decide.
    + apply Hc; [done|]. unfold known. lia.
    + apply Hc; [lia|]. unfold known. lia.
Qed.

End GrowFacts.

(** ** The weight-matrix engine *)

Section EngineFacts.
Context {T : Type} `{Num T}.
Implicit Types (pk : PathKernel T) (CHV CD : T).

Lemma PathKernel_new_inr CHV CD pk :
  PathKernel_new CHV CD = inr pk ->
  pk = engine CHV CD 1 "" false ∧ nleb CHV num0 = false ∧ nleb CD num0 = false.
Proof.
  unfold PathKernel_new.
  destruct (nleb CHV num0); [discriminate|].
  destruct (nleb CD num0); [discriminate|].
  intros [= <-]. done.
Qed.

Lemma updateWMat_noop dim pk : dim ≤ _DIM pk -> updateWMat dim pk = pk.
Proof. intros Hle. unfold updateWMat. case_decide; [lia|done]. Qed.

Lemma updateWMat_DIM dim pk : _DIM (updateWMat dim pk) = _DIM pk `max` dim.
Proof. unfold updateWMat. case_decide; simpl; lia. Qed.

Lemma updateWMat_engine CHV CD D dim dir w :
  1 ≤ D ->
  updateWMat dim (engine CHV CD D dir w) = engine CHV CD (D `max` dim) dir w.
Proof.
  intros HD. unfold updateWMat. simpl. case_decide.
  - rewrite grow_table by done.
    replace (D `max` dim) with dim by lia. done.
  - replace (D `max` dim) with D by lia. done.
Qed.

Lemma updateWMat_seq_engine CHV CD ds D dir w :
  1 ≤ D ->
  updateWMat_seq ds (engine CHV CD D dir w) = engine CHV CD (foldl Nat.max D ds) dir w.
Proof.
  revert D. induction ds as [|a ds IH]; intros D HD; [done|].
  unfold updateWMat_seq in *. simpl.
  rewrite updateWMat_engine by done. apply IH. lia.
Qed.

Lemma foldl_max_le (ds : list nat) D n :
  D ≤ n -> Forall (fun a => a ≤ n) ds -> foldl Nat.max D (ds ++ [n]) = n.
Proof.
  revert D. induction ds as [|a ds IH]; intros D HD Hall; simpl; [lia|].
  inversion Hall; subst. apply IH; [lia|done].
Qed.

Lemma foldl_max_ge (ds : list nat) D : D ≤ foldl Nat.max D ds.
Proof.
  revert D. induction ds as [|a ds IH]; intros D; simpl; [lia|].
  etrans; [|apply IH]. lia.
Qed.

Lemma non_decreasing_bound (ds : list nat) n :
  non_decreasing (ds ++ [n]) = true -> Forall (fun a => a ≤ n) ds.
Proof.
  induction ds as [|a ds IH]; intros Hnd; [constructor|].
  assert (non_decreasing (ds ++ [n]) = true ∧ forall b, head (ds ++ [n]) = Some b -> a ≤ b)
    as [Hnd' Hhd].
  { simpl in Hnd. destruct (ds ++ [n]) as [|b l] eqn:E; [by destruct ds|].
    apply andb_true_iff in Hnd as [Hab Hnd]. split; [done|].
    intros b' [= <-]. by apply Nat.leb_le. }
  specialize (IH Hnd'). constructor; [|done].
  destruct ds as [|b ds]; simpl in *; [by apply Hhd|].
  inversion IH; subst. specialize (Hhd b eq_refl). lia.
Qed.

Lemma non_decreasing_seq a n : non_decreasing (seq a n) = true.
Proof.
  revert a. induction n as [|n IH]; intros a; [done|].
  simpl. specialize (IH (S a)). destruct n; [done|].
  simpl in *. rewrite IH. rewrite andb_true_r. apply Nat.leb_le. lia.
Qed.

End EngineFacts.

Section Claims_WeightMatrix.
Context {T : Type} `{Num T}.
Implicit Types (pk : PathKernel T) (CHV CD : T).

(** C1. On a freshly constructed engine, growing the weight matrix through
    any non-decreasing sequence of target dimensions that ends at [n], the
    sequence 1, 2, ..., n among them, leaves the engine exactly as one call
    [updateWMat(n)] does, and the table is the recurrence computed from
    scratch at dimension [n].  The number type and its operations are
    arbitrary: the equality is one of stored values, whatever the rounding. *)
Theorem C1_incremental_equals_batch CHV CD pk (ds : list nat) (n : nat) :
  PathKernel_new CHV CD = inr pk ->
  1 ≤ n ->
  non_decreasing (ds ++ [n]) = true ->
  updateWMat_seq (ds ++ [n]) pk = updateWMat n pk
  ∧ updateWMat_seq (seq 1 n) pk = updateWMat n pk
  ∧ wmat (updateWMat n pk) = table (W_rec CHV CD) n
  ∧ _DIM (updateWMat n pk) = n.
Proof.
  intros Hnew Hn Hnd.
  apply PathKernel_new_inr in Hnew as [-> _].
  rewrite updateWMat_engine by done.
  replace (1 `max` n) with n by lia.
  split; [|split; [|done]].
  - rewrite updateWMat_seq_engine by done.
    by rewrite foldl_max_le by (done || by apply non_decreasing_bound).
  - rewrite updateWMat_seq_engine by done. f_equal.
    destruct n as [|n]; [lia|].
    rewrite seq_S. apply foldl_max_le; [lia|].
    apply non_decreasing_bound. rewrite <- seq_S. apply non_decreasing_seq.
Qed.

(** C4. After [updateWMat(n)], a call [updateWMat(m)] with [m <= n] changes
    nothing, neither the dimension nor any entry nor any other attribute;
    in general [updateWMat(d)] with [d <= _DIM] returns the engine as it
    was. *)
Theorem C4_extend_smaller_is_noop pk (n m d : nat) :
  (m ≤ n -> updateWMat m (updateWMat n pk) = updateWMat n pk)
  ∧ (d ≤ _DIM pk -> updateWMat d pk = pk).
Proof.
  split.
  - intros Hmn. apply updateWMat_noop. rewrite updateWMat_DIM. lia.
  - apply updateWMat_noop.
Qed.

End Claims_WeightMatrix.

(** ** Shape, symmetry and sign of the table *)

Section TableFacts.
Context {T : Type} `{Num T}.
Implicit Types (pk : PathKernel T) (CHV CD : T).

Lemma W_rec_0_0 CHV CD : W_rec CHV CD 0 0 = num1.
Proof. reflexivity. Qed.

(** Where sums and products of positive numbers are positive, the
    recurrence is positive. *)
Lemma W_upper_pos (pos : T -> Prop) CHV CD :
  pos num1 -> pos num2 -> pos CHV -> pos CD ->
  (forall x y, pos x -> pos y -> pos (nadd x y)) ->
  (forall x y, pos x -> pos y -> pos (nmul x y)) ->
  forall i j, i ≤ j -> pos (W_upper CHV CD i j).
Proof.
  intros H1 H2 Hchv Hcd Hadd Hmul.
  induction i as [|i IHi].
  - intros j _. induction j as [|j IHj]; [done|].
    rewrite W_upper_border. by apply Hmul.
  - intros j Hij. induction j as [|j IHj]; [lia|].
    destruct (decide (i = j)) as [->|Hne].
    + rewrite W_upper_diag.
      apply Hadd; apply Hmul; try apply Hmul; try done; apply IHi; lia.
    + rewrite W_upper_cell by lia.
      apply Hadd; apply Hmul; try done; [|apply IHi; lia].
      apply Hadd; [apply IHi|apply IHj]; lia.
Qed.

Lemma W_rec_pos (pos : T -> Prop) CHV CD :
  pos num1 -> pos num2 -> pos CHV -> pos CD ->
  (forall x y, pos x -> pos y -> pos (nadd x y)) ->
  (forall x y, pos x -> pos y -> pos (nmul x y)) ->
  forall i j, pos (W_rec CHV CD i j).
Proof.
  intros H1 H2 Hchv Hcd Hadd Hmul i j. unfold W_rec.
  case_decide; apply (W_upper_pos pos); auto; lia.
Qed.

(** C2, as the code has it. After construction and any sequence of
    [updateWMat] calls, whatever the number type: the weight matrix is a
    [_DIM] by [_DIM] table, it is symmetric and [wmat[0][0]] is 1.  Every
    entry is strictly positive where the arithmetic keeps sums and products
    of positive numbers positive (as exact arithmetic does); binary64 does
    not, a product may underflow to zero. *)
Theorem C2_table_invariants CHV CD pk (ds : list nat) :
  PathKernel_new CHV CD = inr pk ->
  let pk' := updateWMat_seq ds pk in
  let D := _DIM pk' in
  let W := wmat pk' in
  dims D W
  ∧ (forall i j, i < D -> j < D -> get W i j = get W j i)
  ∧ get W 0 0 = num1
  ∧ (forall pos : T -> Prop,
       pos num1 -> pos num2 ->
       (forall x, nleb x num0 = false -> pos x) ->
       (forall x y, pos x -> pos y -> pos (nadd x y)) ->
       (forall x y, pos x -> pos y -> pos (nmul x y)) ->
       forall i j, i < D -> j < D -> pos (get W i j)).
Proof.
  intros Hnew.
  apply PathKernel_new_inr in Hnew as (-> & Hchv & Hcd).
  rewrite updateWMat_seq_engine by done. simpl.
  set (D := foldl Nat.max 1 ds).
  assert (1 ≤ D) as HD by apply foldl_max_ge.
  split; [apply dims_table|]. split; [|split].
  - intros i j Hi Hj. rewrite !get_table by done. apply W_rec_sym.
  - rewrite get_table by lia. apply W_rec_0_0.
  - intros pos H1 H2 Hleb Hadd Hmul i j Hi Hj.
    rewrite get_table by done. apply W_rec_pos; auto.
Qed.

End TableFacts.

(** ** The evaluators *)

Section EvaluationFacts.
Context {T : Type} `{Num T} {Sym : Type}.
Variable _sk : GroundKernel T Sym.
Implicit Types (pk : PathKernel T) (s t : list Sym) (k : T).

Local Notation "a ⊕ b" := (nadd a b) (at level 50, left associativity).
Local Notation "a ⊗ b" := (nmul a b) (at level 40, left associativity).
Local Notation "a ⊘ b" := (ndiv a b) (at level 40, left associativity).

(** Two nested accumulating loops add the terms in row-major order. *)
Lemma nested_loops_sum (term : nat -> nat -> T) ls lt k0 :
  for_range 0 ls (fun i => for_range 0 lt (fun j k => k ⊕ term i j)) k0
  = foldl nadd k0 (i ← seq 0 ls; j ← seq 0 lt; [term i j]).
Proof.
  unfold for_range. rewrite !Nat.sub_0_r.
  generalize (seq 0 ls) as l1. generalize (seq 0 lt) as l2.
  intros l2 l1. revert k0.
  induction l1 as [|i l1 IH]; intros k0; [done|].
  simpl. rewrite foldl_app, <- IH. f_equal.
  clear. revert k0. induction l2 as [|j l2 IH]; intros k0; [done|].
  simpl. by rewrite IH.
Qed.

Lemma call_pairwise_empty s t pk k :
  s = [] ∨ t = [] -> call_pairwise _sk s t pk k = mkRes pk k None.
Proof.
  intros Hst. unfold call_pairwise. case_decide as Hd; [done|].
  destruct Hst as [-> | ->]; simpl in Hd; tauto.
Qed.

Lemma call_self_empty pk k : call_self _sk [] pk k = mkRes pk k None.
Proof. reflexivity. Qed.

(** The value the two-sequence operator stores. *)
Lemma call_pairwise_value s t pk k skm :
  s ≠ [] -> t ≠ [] -> sk_cross _sk s t = inr skm ->
  let ls := length s in
  let lt := length t in
  let W := wmat (updateWMat (ls `max` lt) pk) in
  call_pairwise _sk s t pk k
  = mkRes (updateWMat (ls `max` lt) pk)
          (sum_list (i ← seq 0 ls; j ← seq 0 lt;
                     [get skm i j ⊗ (get W i j ⊕ get W (ls - i - 1) (lt - j - 1)) ⊘ num2]))
          None.
Proof.
  intros Hs Ht Hsk. simpl. unfold call_pairwise.
  case_decide as Hd.
  { destruct Hd as [Hd|Hd]; apply length_zero_iff_nil in Hd; done. }
  rewrite Hsk. f_equal. unfold pair_term. apply nested_loops_sum.
Qed.

(** C9. Called with an empty sequence, the two-sequence and the
    single-sequence operators return normally (no exception), leave the
    output argument as it was and leave the engine as it was: no extension
    of the weight matrix takes place. *)
Theorem C9_empty_sequence_is_silent_noop s t pk k :
  (s = [] ∨ t = [] ->
     call_pairwise _sk s t pk k = {| res_pk := pk; res_out := k; res_exn := None |})
  ∧ call_self _sk [] pk k = {| res_pk := pk; res_out := k; res_exn := None |}.
Proof. split; [apply call_pairwise_empty|apply call_self_empty]. Qed.

(** C6, the batched forms on empty lists. [operator()(slist,tlist,km)]
    throws "Empty sequence vector." when either list is empty, with the
    engine and [km] untouched; [operator()(slist,km)] throws it on an empty
    list, after it has resized [km] to no rows; [operator()(slist,kv)] has no
    such check: on an empty list it returns normally, with [kv] resized to
    no entries.  None of the three evaluates a kernel then: the result is
    the same whatever the ground kernel would answer or throw, and the
    engine is unchanged. *)
Theorem C6_batched_forms_on_empty_lists
    (slist tlist : list (list Sym)) pk (km : list (list T)) (kv : list T) :
  (slist = [] ∨ tlist = [] ->
     call_pairwiseMatrix _sk slist tlist pk km
     = {| res_pk := pk; res_out := km; res_exn := Some Empty_sequence_vector |})
  ∧ call_selfMatrix _sk [] pk km
    = {| res_pk := pk; res_out := []; res_exn := Some Empty_sequence_vector |}
  ∧ call_selfVector _sk [] pk kv
    = {| res_pk := pk; res_out := []; res_exn := None |}.
Proof.
  split; [|split].
  - intros Hl. unfold call_pairwiseMatrix. case_decide as Hd; [done|].
    destruct Hl as [-> | ->]; simpl in Hd; tauto.
  - unfold call_selfMatrix. simpl. by rewrite resize_0.
  - unfold call_selfVector. simpl. by rewrite resize_0.
Qed.

End EvaluationFacts.

(** ** The cache files *)

Section StreamFacts.
Context {T : Type} `{Num T}.
Implicit Types (w : list (list T)) (ifs ofs : list T).

(** Row-major order: the cells before [(i, j)]. *)
Lemma row_major_lt N i j i' j' :
  j' < N -> i' < i ∨ (i' = i ∧ j' < j) -> i' * N + j' < i * N + j.
Proof. intros Hj' [Hi|[-> Hj]]; nia. Qed.

(** What [saveWMat] writes after the dimension: [dim * dim] values, the
    cell [(i, j)] at offset [i * dim + j]. *)
Lemma write_wmat_spec dim w :
  length (write_wmat dim w) = dim * dim
  ∧ forall i j, i < dim -> j < dim ->
      write_wmat dim w !! (i * dim + j) = Some (get w i j).
Proof.
  pose (P := fun (i j : nat) (ofs : list T) =>
    length ofs = i * dim + j
    ∧ forall i' j', j' < dim -> i' < i ∨ (i' = i ∧ j' < j) ->
        ofs !! (i' * dim + j') = Some (get w i' j')).
  assert (P dim 0 (write_wmat dim w)) as [Hlen Hc].
  { unfold write_wmat.
    apply (for_range_inv (fun i ofs => P i 0 ofs)); [lia| |].
    - split; [done|]. intros i' j' ? ?. lia.
    - intros i ofs Hi HP.
      assert (P i dim (for_range 0 dim (fun j ofs => ofs ++ [get w i j]) ofs)) as [Hl Hc].
      { apply (for_range_inv (fun j ofs => P i j ofs)); [lia|done|].
        intros j ofs' Hj [Hl Hc]. split.
        - rewrite length_app. simpl. lia.
        - intros i' j' Hj' Hlt.
          destruct (decide (i' = i ∧ j' = j)) as [[-> ->]|Hne].
          + rewrite lookup_app_r by lia.
            by replace (i * dim + j - length ofs') with 0 by lia.
          + rewrite lookup_app_l; [apply Hc; [done|lia]|].
            rewrite Hl. apply row_major_lt; [done|lia]. }
      split; [lia|]. intros i' j' Hj' Hlt. apply Hc; [done|lia]. }
  split; [lia|]. intros i j Hi Hj. apply Hc; [done|lia].
Qed.

(** What [loadWMat] reads: the table keeps its size; the cell [(i, j)]
    takes the value at offset [i * dim + j] of the file, and keeps its own
    where the file ends before. *)
Lemma read_wmat_spec dim w ifs :
  dims dim w ->
  dims dim (read_wmat dim w ifs)
  ∧ forall i j, i < dim -> j < dim ->
      get (read_wmat dim w ifs) i j = default (get w i j) (ifs !! (i * dim + j)).
Proof.
  intros Hw.
  pose (P := fun (i j : nat) (st : list (list T) * list T) =>
    dims dim st.1 ∧ st.2 = drop (i * dim + j) ifs
    ∧ forall i' j', i' < dim -> j' < dim ->
        get st.1 i' j' =
          if decide (i' < i ∨ (i' = i ∧ j' < j))
          then default (get w i' j') (ifs !! (i' * dim + j'))
          else get w i' j').
  assert (P dim 0 (for_range 0 dim (fun i => for_range 0 dim (fun j => read_cell i j))
                     (w, ifs))) as (Hd & _ & Hc).
  { apply (for_range_inv (fun i st => P i 0 st)); [lia| |].
    - split; [done|]. split; [done|]. intros i' j' _ _. case_decide; [lia|done].
    - intros i st Hi HP.
      assert (P i dim (for_range 0 dim (fun j => read_cell i j) st)) as (Hd & Hr & Hc).
      { apply (for_range_inv (fun j st => P i j st)); [lia|done|].
        intros j [w' rest] Hj (Hd & Hr & Hc). simpl in *.
        unfold read_cell. simpl.
        destruct (ifs !! (i * dim + j)) as [x|] eqn:Hx.
        - rewrite Hr, (drop_S _ _ _ Hx). unfold P. simpl.
          split; [by apply dims_set|]. split; [f_equal; lia|].
          intros i' j' Hi' Hj'.
          destruct (decide (i' = i ∧ j' = j)) as [[-> ->]|Hne].
          + rewrite (get_set_eq dim) by (done || lia).
            rewrite Hx. case_decide; [done|lia].
          + rewrite get_set_ne by (intros [=]; lia).
            rewrite Hc by done. repeat case_decide; try done; lia.
        - assert (rest = []) as ->.
          { rewrite Hr. apply drop_ge. by apply lookup_ge_None. }
          unfold P. simpl. split; [done|]. split.
          + symmetry. apply drop_ge. apply lookup_ge_None in Hx. lia.
          + intros i' j' Hi' Hj'. rewrite Hc by done.
            destruct (decide (i' = i ∧ j' = j)) as [[-> ->]|Hne].
            * rewrite Hx. simpl. by repeat case_decide.
            * repeat case_decide; try done; lia. }
      split; [done|]. split; [rewrite Hr; f_equal; lia|].
      intros i' j' Hi' Hj'. rewrite Hc by done.
      repeat case_decide; try done; lia. }
  split; [done|]. intros i j Hi Hj.
  unfold read_wmat. rewrite Hc by done. case_decide; [done|lia].
Qed.

(** Reading back what was written restores the table. *)
Lemma read_write_wmat dim w0 w :
  dims dim w0 -> dims dim w -> read_wmat dim w0 (write_wmat dim w) = w.
Proof.
  intros Hw0 Hw.
  destruct (read_wmat_spec dim w0 (write_wmat dim w) Hw0) as [Hd Hc].
  apply (matrix_ext dim); [done|done|].
  intros i j Hi Hj. rewrite Hc by done.
  destruct (write_wmat_spec dim w) as [_ Hwr]. by rewrite Hwr.
Qed.

End StreamFacts.

Section PersistenceFacts.
Context {T : Type} `{Num T}.
Variable fmt : T -> string.
Variable ofs_opens : string -> bool.
Implicit Types (pk : PathKernel T) (fs : gmap string (CacheFile T)).

Lemma string_length_pos (s : string) : 0 < String.length s <-> s ≠ "".
Proof. destruct s; simpl; split; (done || lia). Qed.

Lemma dims_grow CHV CD d n w : dims n (grow CHV CD d n w).
Proof.
  unfold grow.
  assert (forall a b i w, dims n w ->
    dims n (for_range a b (fun j => cell_step CHV CD i j) w)) as Hrow.
  { intros a b i w' Hw'. destruct (decide (a ≤ b)).
    - apply (for_range_inv (fun _ w => dims n w)); [done|done|].
      intros j s _ Hs. unfold cell_step. by do 2 apply dims_set.
    - rewrite for_range_empty by lia. done. }
  assert (forall St (P : St -> Prop) a b body st, P st ->
    (forall i s, P s -> P (body i s)) -> P (@for_range St a b body st)) as Hloop.
  { intros St P a b body st Hst Hbody. destruct (decide (a ≤ b)).
    - apply (for_range_inv (fun _ s => P s)); auto.
    - rewrite for_range_empty by lia. done. }
  apply Hloop; [apply Hloop; [apply Hloop|]|].
  - apply dims_resize_square.
  - intros i s Hs. unfold border_step. by do 2 apply dims_set.
  - intros i s Hs. by apply Hrow.
  - intros i s Hs. apply Hrow. unfold diag_step. by apply dims_set.
Qed.

(** The outcome of [saveWMat] in one equation. *)
Lemma saveWMat_cases pk fs :
  (saveWMat fmt ofs_opens pk fs = (pk, fs, false)
   ∧ (wDir pk = "" ∨ wW pk = false
      ∨ exists ifs, fs !! wmat_fname fmt pk = Some ifs ∧ _DIM pk ≤ cf_N ifs))
  ∨ (saveWMat fmt ofs_opens pk fs
       = (pk,
          if ofs_opens (wmat_fname fmt pk)
          then <[wmat_fname fmt pk :=
                  {| cf_N := _DIM pk; cf_data := write_wmat (_DIM pk) (wmat pk) |}]> fs
          else fs,
          true)
     ∧ wDir pk ≠ "" ∧ wW pk = true
     ∧ forall ifs, fs !! wmat_fname fmt pk = Some ifs -> cf_N ifs < _DIM pk).
Proof.
  unfold saveWMat.
  destruct (bool_decide (0 < String.length (wDir pk))) eqn:Hdir; simpl.
  2:{ left. split; [done|]. left. apply bool_decide_eq_false in Hdir.
      destruct (wDir pk); [done|]. simpl in Hdir. lia. }
  apply bool_decide_eq_true, string_length_pos in Hdir.
  destruct (wW pk); [|left; by auto].
  destruct (fs !! wmat_fname fmt pk) as [ifs|] eqn:Hifs.
  - destruct (bool_decide (cf_N ifs < _DIM pk)) eqn:Hlt.
    + apply bool_decide_eq_true in Hlt. right. repeat split; [done|].
      by intros ? [= <-].
    + apply bool_decide_eq_false in Hlt. left. split; [done|].
      right. right. exists ifs. split; [done|lia].
  - right. by repeat split.
Qed.

Lemma saveWMat_true pk fs fs' :
  saveWMat fmt ofs_opens pk fs = (pk, fs', true) ->
  wDir pk ≠ "" ∧ wW pk = true
  ∧ fs' = if ofs_opens (wmat_fname fmt pk)
          then <[wmat_fname fmt pk :=
                  {| cf_N := _DIM pk; cf_data := write_wmat (_DIM pk) (wmat pk) |}]> fs
          else fs.
Proof.
  destruct (saveWMat_cases pk fs) as [[Heq _]|(Heq & Hdir & Hw & _)];
    rewrite Heq; [discriminate|].
  by intros [= <-].
Qed.

(** A file written by [saveWMat] differs from what was there. *)
Lemma saveWMat_insert_ne pk fs :
  (forall ifs, fs !! wmat_fname fmt pk = Some ifs -> cf_N ifs < _DIM pk) ->
  <[wmat_fname fmt pk :=
     {| cf_N := _DIM pk; cf_data := write_wmat (_DIM pk) (wmat pk) |}]> fs ≠ fs.
Proof.
  intros Hlt Heq.
  assert (fs !! wmat_fname fmt pk
          = Some {| cf_N := _DIM pk; cf_data := write_wmat (_DIM pk) (wmat pk) |})
    as Hl by (by rewrite <- Heq, lookup_insert_eq).
  specialize (Hlt _ Hl). simpl in Hlt. lia.
Qed.

(** Every state of an engine is well formed. *)
Lemma reachable_well_formed pk : reachable fmt pk -> well_formed pk.
Proof.
  induction 1 as [CHV CD pk Hnew|dim pk _ IH|f w pk _ IH|pk fs _ IH].
  - apply PathKernel_new_inr in Hnew as [-> _].
    split; [done|]. split; [apply dims_table|done].
  - destruct IH as (HD & Hd & H1). unfold updateWMat. case_decide; [|done].
    unfold well_formed. simpl. split; [lia|]. split; [apply dims_grow|lia].
  - done.
  - destruct IH as (HD & Hd & H1). unfold loadWMat.
    case_decide; [|done].
    destruct (fs !! wmat_fname fmt pk) as [ifs|]; [|done].
    case_decide; [|done]. unfold well_formed. simpl.
    split; [lia|]. split; [|lia].
    apply read_wmat_spec, dims_resize_square.
Qed.

(** C7. [saveWMat] returns false and writes nothing when no folder is set,
    or the write permission is off, or the file of these parameters exists
    and stores a dimension at least [_DIM]; in every other case it returns
    true, and only then can the file system change.  When its output stream
    opens it has then written the file, which holds [_DIM] and the table,
    and the file system has changed.  When the stream does not open (the
    folder is missing) it returns true all the same and has written
    nothing: the value returned does not tell whether a write occurred.
    [loadWMat] returns false and changes nothing when no folder is set, or
    there is no file of these parameters, or the stored dimension is at
    most [_DIM]; it returns true exactly when it replaced the engine's table
    (the engine changed), and the engine then has the stored, larger
    dimension and the stored values; it never writes. *)
Theorem C7_save_and_load_results pk fs :
  let fname := wmat_fname fmt pk in
  let ofs := {| cf_N := _DIM pk; cf_data := write_wmat (_DIM pk) (wmat pk) |} in
  let sv := saveWMat fmt ofs_opens pk fs in
  let ld := loadWMat fmt pk fs in
  (wDir pk = "" ∨ wW pk = false
     ∨ (exists ifs, fs !! fname = Some ifs ∧ _DIM pk ≤ cf_N ifs) ->
   sv = (pk, fs, false))
  ∧ (sv.2 = true
     <-> wDir pk ≠ "" ∧ wW pk = true
         ∧ forall ifs, fs !! fname = Some ifs -> cf_N ifs < _DIM pk)
  ∧ (sv.1.2 ≠ fs -> sv.2 = true)
  ∧ (sv.2 = true -> ofs_opens fname = true ->
     sv.1.2 = <[fname := ofs]> fs ∧ sv.1.2 ≠ fs)
  ∧ (sv.2 = true -> ofs_opens fname = false -> sv.1.2 = fs)
  ∧ (wDir pk = "" ∨ fs !! fname = None
       ∨ (exists ifs, fs !! fname = Some ifs ∧ cf_N ifs ≤ _DIM pk) ->
     ld = (pk, fs, false))
  ∧ (ld.2 = true <-> ld.1.1 ≠ pk)
  ∧ (ld.2 = true ->
     exists ifs, fs !! fname = Some ifs
       ∧ _DIM pk < cf_N ifs
       ∧ _DIM ld.1.1 = cf_N ifs
       ∧ dims (cf_N ifs) (wmat ld.1.1)
       ∧ forall i j x, i < cf_N ifs -> j < cf_N ifs ->
           cf_data ifs !! (i * cf_N ifs + j) = Some x -> get (wmat ld.1.1) i j = x)
  ∧ ld.1.2 = fs.
Proof.
  cbv zeta.
  split; [|split; [|split; [|split; [|split; [|split; [|split; [|split]]]]]]].
  - intros Hc.
    destruct (saveWMat_cases pk fs) as [[Heq _]|(_ & Hdir & Hw & Hlt)]; [done|].
    destruct Hc as [Hc|[Hc|(ifs & Hifs & Hle)]]; [done|congruence|].
    specialize (Hlt ifs Hifs). lia.
  - destruct (saveWMat_cases pk fs) as [[Heq Hc]|(Heq & Hdir & Hw & Hlt)];
      rewrite Heq; simpl; [|done].
    split; [discriminate|]. intros (Hdir & Hw & Hlt).
    destruct Hc as [Hc|[Hc|(ifs & Hifs & Hle)]]; [done|congruence|].
    specialize (Hlt ifs Hifs). lia.
  - destruct (saveWMat_cases pk fs) as [[Heq _]|[Heq _]]; rewrite Heq; simpl; done.
  - destruct (saveWMat_cases pk fs) as [[Heq _]|(Heq & _ & _ & Hlt)];
      rewrite Heq; simpl; [discriminate|].
    intros _ ->. split; [done|]. by apply saveWMat_insert_ne.
  - destruct (saveWMat_cases pk fs) as [[Heq _]|[Heq _]]; rewrite Heq; simpl; [done|].
    by intros _ ->.
  - intros Hc. unfold loadWMat.
    case_decide as E; [|done]. apply string_length_pos in E.
    destruct Hc as [Hc|[Hc|(ifs & Hifs & Hle)]]; [done|by rewrite Hc|].
    rewrite Hifs. case_decide; [lia|done].
  - unfold loadWMat.
    case_decide; [|by split].
    destruct (fs !! wmat_fname fmt pk) as [ifs|]; [|by split].
    case_decide as Hlt; [|by split]. simpl.
    split; [|done]. intros _ Heq.
    apply (f_equal _DIM) in Heq. simpl in Heq. lia.
  - unfold loadWMat.
    case_decide; [|done].
    destruct (fs !! wmat_fname fmt pk) as [ifs|]; [|done].
    case_decide as Hlt; [|done]. simpl. intros _.
    exists ifs. split; [done|]. split; [done|]. split; [done|].
    destruct (read_wmat_spec (cf_N ifs) (resize_square (cf_N ifs) (wmat pk))
                (cf_data ifs)) as [Hd Hc]; [apply dims_resize_square|].
    split; [done|]. intros i j x Hi Hj Hx. rewrite Hc by done. by rewrite Hx.
  - unfold loadWMat.
    case_decide; [|done].
    destruct (fs !! wmat_fname fmt pk) as [ifs|]; [|done].
    by case_decide.
Qed.

(** C8. When [saveWMat] has returned true and its output stream opened, a
    freshly constructed engine with the same [CHV] and [CD], set to the
    same folder, that calls [loadWMat] ends with the dimension and the
    weight matrix of the engine that saved, value for value.  When the
    stream did not open, [saveWMat] has returned true without writing: the
    file system is what it was, and where it held no file of these
    parameters [loadWMat] on the fresh engine returns false and leaves it
    at dimension 1, whatever the dimension of the engine that saved. *)
Theorem C8_save_then_load_round_trip pk fs fs' pk0 (w : bool) :
  reachable fmt pk ->
  saveWMat fmt ofs_opens pk fs = (pk, fs', true) ->
  PathKernel_new (_CHV pk) (_CD pk) = inr pk0 ->
  let fname := wmat_fname fmt pk in
  let ld := loadWMat fmt (folder (wDir pk) w pk0) fs' in
  (ofs_opens fname = true -> _DIM ld.1.1 = _DIM pk ∧ wmat ld.1.1 = wmat pk)
  ∧ (ofs_opens fname = false -> fs' = fs)
  ∧ (ofs_opens fname = false -> fs !! fname = None ->
     ld = (folder (wDir pk) w pk0, fs, false) ∧ _DIM ld.1.1 = 1).
Proof.
  intros Hreach Hsave Hnew. cbv zeta.
  apply reachable_well_formed in Hreach as (HD & Hd & H1).
  apply saveWMat_true in Hsave as (Hdir & _ & ->).
  apply PathKernel_new_inr in Hnew as [-> _].
  assert (wmat_fname fmt (folder (wDir pk) w (engine (_CHV pk) (_CD pk) 1 "" false))
          = wmat_fname fmt pk) as Hname by reflexivity.
  split; [|split].
  - intros ->. unfold loadWMat. simpl.
    case_decide as E; [|by apply string_length_pos in Hdir].
    rewrite Hname, lookup_insert_eq. simpl.
    case_decide as Hlt; simpl.
    + split; [done|]. apply read_write_wmat; [apply dims_resize_square|done].
    + assert (_DIM pk = 1) as H1' by lia. split; [done|]. by rewrite H1.
  - by intros ->.
  - intros -> Hnone. unfold loadWMat. simpl.
    case_decide as E; [|done]. by rewrite Hname, Hnone.
Qed.

(** C10. [saveWMat] leaves the engine as it was, whatever it returns: the
    weight matrix, the dimension, the folder, the write permission and the
    two step costs are those of before the call. *)
Theorem C10_save_keeps_engine pk fs :
  let pk' := (saveWMat fmt ofs_opens pk fs).1.1 in
  pk' = pk
  ∧ wmat pk' = wmat pk ∧ _DIM pk' = _DIM pk
  ∧ wDir pk' = wDir pk ∧ wW pk' = wW pk.
Proof.
  assert ((saveWMat fmt ofs_opens pk fs).1.1 = pk) as Heq.
  { unfold saveWMat.
    destruct (bool_decide (0 < String.length (wDir pk)) && wW pk);
      [destruct (fs !! wmat_fname fmt pk) as [ifs|];
         [destruct (bool_decide (cf_N ifs < _DIM pk))|]|]; done. }
  simpl. by rewrite Heq.
Qed.

End PersistenceFacts.

(** ** The ground kernel SymKernel *)

Section SymKernelFacts.
Context {T : Type} `{Num T}.
Implicit Types (sk : SymKernel T) (ilist jlist : list nat) (km : list (list T)).

(** The matrix the batched form of [SymKernel] answers: one row per symbol
    of [ilist], and [km[i][j] = _skm[ilist[i]][jlist[j]]]. *)
Lemma SymKernel_cross_value sk ilist jlist km :
  SymKernel_cross sk ilist jlist = inr km ->
  length km = length ilist
  ∧ forall i j, i < length ilist -> j < length jlist ->
      get km i j = get (_skm sk) (default 0 (ilist !! i)) (default 0 (jlist !! j)).
Proof.
  unfold SymKernel_cross. case_decide; [discriminate|].
  destruct (check_indices sk ilist); [discriminate|].
  destruct (check_indices sk jlist); [discriminate|].
  intros [= <-].
  set (lil := length ilist). set (ljl := length jlist).
  set (f := fun i j => get (_skm sk) (default 0 (ilist !! i)) (default 0 (jlist !! j))).
  pose (P := fun (i : nat) (km : list (list T)) =>
    length km = lil
    ∧ forall i' j', i' < i -> j' < ljl -> get km i' j' = f i' j').
  pose (Q := fun (i j : nat) (km : list (list T)) =>
    length km = lil
    ∧ (exists row, km !! i = Some row ∧ length row = ljl)
    ∧ (forall i' j', i' < i -> j' < ljl -> get km i' j' = f i' j')
    ∧ (forall j', j' < j -> get km i j' = f i j')).
  apply (for_range_inv P); [lia| |].
  - split; [by rewrite length_resize|]. intros i' j' ?. lia.
  - intros i km' Hi [Hlen Hc].
    assert (Q i ljl (for_range 0 ljl (fun j km => set km i j (f i j))
                       (alter (resize ljl num0) i km'))) as (Hl & _ & Hold & Hnew).
    { apply (for_range_inv (Q i)); [lia| |].
      - destruct (lookup_lt_is_Some_2 km' i) as [row Hrow]; [lia|].
        split; [by rewrite length_alter|]. split.
        + exists (resize ljl num0 row).
          by rewrite list_lookup_alter_eq, Hrow, length_resize.
        + split; [|intros j' ?; lia].
          intros i' j' Hi' Hj'. rewrite get_alter_ne by lia. by apply Hc.
      - intros j s Hj (Hl & (row & Hrow & Hrl) & Hold & Hnew).
        split; [unfold set; by rewrite length_alter|]. split.
        + exists (<[j := f i j]> row). unfold set.
          by rewrite list_lookup_alter_eq, Hrow, length_insert.
        + split.
          * intros i' j' Hi' Hj'. rewrite get_set_ne by (intros [=]; lia).
            by apply Hold.
          * intros j' Hj'. destruct (decide (j' = j)) as [->|Hne].
            -- apply (get_set_lookup _ _ _ _ row); [done|lia].
            -- rewrite get_set_ne by (intros [=]; lia). apply Hnew. lia. }
    split; [done|]. intros i' j' Hi' Hj'.
    destruct (decide (i' = i)) as [->|Hne]; [by apply Hnew|].
    apply Hold; [lia|done].
Qed.

End SymKernelFacts.

(** ** The evaluators change the engine through updateWMat only *)

Section EvaluatorsKeepReachable.
Context {T : Type} `{Num T} {Sym : Type}.
Variable fmt : T -> string.
Variable _sk : GroundKernel T Sym.
Implicit Types (pk : PathKernel T) (s t : list Sym) (slist tlist : list (list Sym)).

Lemma for_range_exn_inv {St : Type} (P : St -> Prop) a b
    (body : nat -> St -> St * option Exn) (st : St) :
  P st -> (forall i (x : St), P x -> P (body i x).1) -> P (for_range_exn a b body st).1.
Proof.
  intros Hst Hbody. unfold for_range_exn.
  assert (forall l r, P r.1 ->
    P (foldl (fun r i => match r.2 with Some _ => r | None => body i r.1 end) r l).1)
    as Hfold.
  { induction l as [|i l IH]; intros r Hr; [done|].
    simpl. apply IH. destruct (r.2); [done|by apply Hbody]. }
  by apply Hfold.
Qed.

Lemma call_pairwise_reachable s t pk k :
  reachable fmt pk -> reachable fmt (res_pk (call_pairwise _sk s t pk k)).
Proof.
  intros Hpk. unfold call_pairwise. case_decide; [done|].
  destruct (sk_cross _sk s t); simpl; by apply reach_updateWMat.
Qed.

Lemma call_self_reachable s pk k :
  reachable fmt pk -> reachable fmt (res_pk (call_self _sk s pk k)).
Proof.
  intros Hpk. unfold call_self. case_decide; [done|].
  destruct (sk_self _sk s); simpl; by apply reach_updateWMat.
Qed.

Lemma call_pairwiseMatrix_reachable slist tlist pk km :
  reachable fmt pk ->
  reachable fmt (res_pk (call_pairwiseMatrix _sk slist tlist pk km)).
Proof.
  intros Hpk. unfold call_pairwiseMatrix. case_decide; [done|]. simpl.
  apply (for_range_exn_inv (fun st => reachable fmt st.1)); [done|].
  intros i st Hst.
  apply (for_range_exn_inv (fun st => reachable fmt st.1)); [exact Hst|].
  intros j st' Hst'. unfold pairwise_into. simpl. by apply call_pairwise_reachable.
Qed.

Lemma call_selfMatrix_reachable slist pk km :
  reachable fmt pk -> reachable fmt (res_pk (call_selfMatrix _sk slist pk km)).
Proof.
  intros Hpk. unfold call_selfMatrix. case_decide; [done|]. cbn [res_pk].
  apply (for_range_exn_inv (fun st => reachable fmt st.1)); [done|].
  intros i st Hst. cbv zeta.
  assert (reachable fmt
            (self_into _sk (seq_at slist i) i
               (st.1, alter (resize (length slist) num0) i st.2)).1.1) as Hself
    by (unfold self_into; simpl; by apply call_self_reachable).
  destruct (self_into _) as [st' [e|]]; [done|].
  apply (for_range_exn_inv (fun st => reachable fmt st.1)); [done|].
  intros j st'' Hst''.
  assert (reachable fmt
            (pairwise_into _sk (seq_at slist i) (seq_at slist j) i j st'').1.1) as Hpair
    by (unfold pairwise_into; simpl; by apply call_pairwise_reachable).
  by destruct (pairwise_into _) as [st3 [e|]].
Qed.

Lemma call_selfVector_reachable slist pk (kv : list T) :
  reachable fmt pk -> reachable fmt (res_pk (call_selfVector _sk slist pk kv)).
Proof.
  intros Hpk. unfold call_selfVector. simpl.
  apply (for_range_exn_inv (fun st => reachable fmt st.1)); [done|].
  intros i st Hst. simpl. by apply call_self_reachable.
Qed.

End EvaluatorsKeepReachable.

(** ** The claims on concrete inputs *)

Lemma Q_pos_of_leb (x : Q) : Qle_bool x 0 = false -> (0 < x)%Q.
Proof.
  intros Hx. apply Qnot_le_lt. intros Hle.
  apply Qle_bool_iff in Hle. congruence.
Qed.

Lemma Q_pos_add (x y : Q) : (0 < x)%Q -> (0 < y)%Q -> (0 < x + y)%Q.
Proof.
  intros Hx Hy. apply (Qplus_lt_le_compat 0 x 0 y); [done|by apply Qlt_le_weak].
Qed.

(** C3. For non-empty [s] and [t] on which the ground kernel answers the
    matrix [skm], the two-sequence operator extends the weight matrix to
    [max(|s|,|t|)], does not throw, and stores the sum over [i < |s|],
    [j < |t|] (added in row-major order from 0) of
    [skm[i][j] * (W[i][j] + W[|s|-i-1][|t|-j-1]) / 2], with [W] the
    extended weight matrix; for the ground kernel [SymKernel], [skm[i][j]]
    is its value [_skm[s[i]][t[j]]] on the two symbols.  With [CHV = 0.3], [CD = 0.4] in exact
    arithmetic, [updateWMat(2)] gives [[1, 0.3], [0.3, 0.58]], the indicator
    kernel on [s = t = [a, b]] answers [[1, 0], [0, 1]] and the value
    stored is 1.58.  In binary64 the value stored is the double 1.58, and
    the table is [[1, 0.3], [0.3, x]] with [x] the double next above
    0.58. *)
Theorem C3_pairwise_value :
  (forall (T : Type) (HT : Num T) (Sym : Type) (_sk : GroundKernel T Sym)
          (s t : list Sym) (pk : PathKernel T) (k : T) (skm : list (list T)),
     s ≠ [] -> t ≠ [] -> sk_cross _sk s t = inr skm ->
     let ls := length s in
     let lt := length t in
     let r := call_pairwise _sk s t pk k in
     let W := wmat (res_pk r) in
     res_pk r = updateWMat (ls `max` lt) pk
     ∧ res_exn r = None
     ∧ res_out r =
         sum_list (i ← seq 0 ls; j ← seq 0 lt;
                   [ndiv (nmul (get skm i j)
                               (nadd (get W i j) (get W (ls - i - 1) (lt - j - 1))))
                         num2]))
  ∧ (forall (T : Type) (HT : Num T) (sk : SymKernel T) (s t : list nat)
            (skm : list (list T)),
       sk_cross (SymKernel_ground sk) s t = inr skm ->
       forall i j, i < length s -> j < length t ->
         get skm i j = get (_skm sk) (default 0 (s !! i)) (default 0 (t !! j)))
  ∧ (PathKernel_new (3 # 10)%Q (4 # 10)%Q = inr (fresh (3 # 10)%Q (4 # 10)%Q)
     ∧ Forall2 (Forall2 Qeq)
         (wmat (updateWMat 2 (fresh (3 # 10)%Q (4 # 10)%Q)))
         [[1; 3 # 10]; [3 # 10; 58 # 100]]%Q
     ∧ SymKernel_id 2 = inr indicator_Q
     ∧ sk_cross (SymKernel_ground indicator_Q) [0; 1] [0; 1] = inr [[1; 0]; [0; 1]]%Q
     ∧ let r := call_pairwise (SymKernel_ground indicator_Q) [0; 1] [0; 1]
                  (fresh (3 # 10)%Q (4 # 10)%Q) 0%Q in
       res_exn r = None ∧ Qeq (res_out r) (158 # 100)%Q)
  ∧ (PathKernel_new 0.3%float 0.4%float = inr (fresh 0.3%float 0.4%float)
     ∧ wmat (updateWMat 2 (fresh 0.3%float 0.4%float))
       = [[1; 0.3]; [0.3; PrimFloat.next_up 0.58]]%float
     ∧ SymKernel_id 2 = inr indicator_float
     ∧ sk_cross (SymKernel_ground indicator_float) [0; 1] [0; 1]
       = inr [[1; 0]; [0; 1]]%float
     ∧ let r := call_pairwise (SymKernel_ground indicator_float) [0; 1] [0; 1]
                  (fresh 0.3%float 0.4%float) 0%float in
       res_exn r = None ∧ res_out r = 1.58%float).
Proof.
  split; [|split; [|split]].
  - intros T HT Sym _sk s t pk k skm Hs Ht Hsk. simpl.
    by rewrite (call_pairwise_value _sk s t pk k skm Hs Ht Hsk).
  - intros T HT sk s t skm Hsk. by apply SymKernel_cross_value.
  - split; [reflexivity|]. split.
    { vm_compute. repeat constructor. }
    split; [reflexivity|]. split; [reflexivity|].
    split; [reflexivity|]. vm_compute. reflexivity.
  - repeat split; vm_compute; reflexivity.
Qed.

(** C5, on a failing input. With the ground kernel
    [SymKernel({{1,0},{0,2}})], [CHV = 0.5], [CD = 0.25] and [s = {0, 1}],
    the single-sequence operator stores 2.5 and the two-sequence operator
    on [(s, s)] stores 2.625, in binary64 (every value involved is exact
    there) and in exact arithmetic alike: the diagonal term of the first is
    [skm[i][i]*wmat[i][i]], not the average with the mirrored weight. *)
Theorem C5_self_differs_from_pairwise :
  (SymKernel_new [[1; 0]; [0; 2]]%float = inr diag12_float
   ∧ PathKernel_new 0.5%float 0.25%float = inr (fresh 0.5%float 0.25%float)
   ∧ call_self (SymKernel_ground diag12_float) [0; 1]
       (fresh 0.5%float 0.25%float) 0%float
     = {| res_pk := updateWMat 2 (fresh 0.5%float 0.25%float);
          res_out := 2.5%float; res_exn := None |}
   ∧ call_pairwise (SymKernel_ground diag12_float) [0; 1] [0; 1]
       (fresh 0.5%float 0.25%float) 0%float
     = {| res_pk := updateWMat 2 (fresh 0.5%float 0.25%float);
          res_out := 2.625%float; res_exn := None |})
  ∧ (SymKernel_new [[1; 0]; [0; 2]]%Q = inr diag12_Q
     ∧ Qeq (res_out (call_self (SymKernel_ground diag12_Q) [0; 1]
                       (fresh (1 # 2)%Q (1 # 4)%Q) 0%Q)) (5 # 2)%Q
     ∧ Qeq (res_out (call_pairwise (SymKernel_ground diag12_Q) [0; 1] [0; 1]
                       (fresh (1 # 2)%Q (1 # 4)%Q) 0%Q)) (21 # 8)%Q).
Proof.
  split.
  - repeat split; vm_compute; reflexivity.
  - repeat split; vm_compute; reflexivity.
Qed.

(** C2 as stated fails in binary64: a product of two positive doubles
    underflows to zero.  With [CHV = 2^-600] and [CD = 1], both positive, the
    constructor succeeds and after [updateWMat(3)] the entry
    [wmat[2][0] = CHV * (CHV * 1)] is zero.  With the default step costs
    (0.3 and 0.3667), after [updateWMat(620)] the entry [wmat[0][619]], the
    619th power of 0.3, is zero. *)
Lemma C2_counterexample :
  (PathKernel_new 0x1p-600%float 1%float = inr (fresh 0x1p-600%float 1%float)
   ∧ PrimFloat.ltb 0 0x1p-600 = true
   ∧ PrimFloat.ltb 0 1 = true
   ∧ _DIM (updateWMat_seq [3] (fresh 0x1p-600%float 1%float)) = 3
   ∧ get (wmat (updateWMat_seq [3] (fresh 0x1p-600%float 1%float))) 2 0 = 0%float
   ∧ PrimFloat.ltb 0
       (get (wmat (updateWMat_seq [3] (fresh 0x1p-600%float 1%float))) 2 0) = false)
  ∧ (PrimFloat.ltb 0 _CHV_def = true
     ∧ PrimFloat.ltb 0 _CD_def = true
     ∧ _DIM (updateWMat_seq [620] PathKernel_default) = 620
     ∧ get (wmat (updateWMat_seq [620] PathKernel_default)) 0 619 = 0%float).
Proof.
  split; [repeat split; vm_compute; reflexivity|].
  split; [vm_compute; reflexivity|]. split; [vm_compute; reflexivity|].
  change PathKernel_default with (engine _CHV_def _CD_def 1 "" false).
  rewrite updateWMat_seq_engine by lia.
  change (foldl Nat.max 1 [620]) with 620.
  split; [reflexivity|].
  change (get (table (W_rec _CHV_def _CD_def) 620) 0 619 = 0%float).
  rewrite get_table by lia. vm_compute. reflexivity.
Qed.

(** ** Instances: the statements above on concrete engines *)

Lemma C1_witness :
  PathKernel_new 0.5%float 0.25%float = inr (fresh 0.5%float 0.25%float)
  ∧ non_decreasing ([1; 2; 2; 4] ++ [5]) = true
  ∧ updateWMat_seq ([1; 2; 2; 4] ++ [5]) (fresh 0.5%float 0.25%float)
    = updateWMat 5 (fresh 0.5%float 0.25%float).
Proof.
  split; [reflexivity|]. split; [reflexivity|].
  destruct (C1_incremental_equals_batch 0.5%float 0.25%float
              (fresh 0.5%float 0.25%float) [1; 2; 2; 4] 5) as [Heq _];
    [reflexivity|lia|reflexivity|exact Heq].
Defined.

Lemma C2_witness :
  PathKernel_new (3 # 10)%Q (4 # 10)%Q = inr (fresh (3 # 10)%Q (4 # 10)%Q)
  ∧ get (wmat (updateWMat_seq [2; 3] (fresh (3 # 10)%Q (4 # 10)%Q))) 0 0 = 1%Q
  ∧ Qlt 0%Q (get (wmat (updateWMat_seq [2; 3] (fresh (3 # 10)%Q (4 # 10)%Q))) 2 1).
Proof.
  assert (PathKernel_new (3 # 10)%Q (4 # 10)%Q = inr (fresh (3 # 10)%Q (4 # 10)%Q))
    as Hnew by reflexivity.
  split; [exact Hnew|].
  destruct (C2_table_invariants (3 # 10)%Q (4 # 10)%Q
              (fresh (3 # 10)%Q (4 # 10)%Q) [2; 3] Hnew)
    as (_ & _ & H00 & Hpos).
  split; [exact H00|].
  apply (Hpos (fun x => (0 < x)%Q));
    [reflexivity|reflexivity|exact Q_pos_of_leb|exact Q_pos_add
    |exact Qmult_lt_0_compat|vm_compute; lia|vm_compute; lia].
Defined.

Lemma C3_witness :
  sk_cross (SymKernel_ground indicator_float) [0; 1] [0; 1]
    = inr [[1; 0]; [0; 1]]%float
  ∧ res_pk (call_pairwise (SymKernel_ground indicator_float) [0; 1] [0; 1]
              (fresh 0.5%float 0.25%float) 0%float)
    = updateWMat 2 (fresh 0.5%float 0.25%float).
Proof.
  split; [reflexivity|].
  destruct (proj1 C3_pairwise_value float _ nat
              (SymKernel_ground indicator_float) [0; 1] [0; 1]
              (fresh 0.5%float 0.25%float) 0%float [[1; 0]; [0; 1]]%float)
    as (Hpk & _ & _); [discriminate|discriminate|reflexivity|exact Hpk].
Defined.

Lemma C4_witness :
  updateWMat 2 (updateWMat 5 (fresh 0.5%float 0.25%float))
  = updateWMat 5 (fresh 0.5%float 0.25%float).
Proof.
  apply (proj1 (C4_extend_smaller_is_noop (fresh 0.5%float 0.25%float) 5 2 0)).
  lia.
Defined.

Lemma C6_witness :
  call_pairwiseMatrix (SymKernel_ground indicator_float) [] [[0; 1]]
    (fresh 0.5%float 0.25%float) []
  = {| res_pk := fresh 0.5%float 0.25%float; res_out := [];
       res_exn := Some Empty_sequence_vector |}.
Proof.
  apply (proj1 (C6_batched_forms_on_empty_lists (SymKernel_ground indicator_float)
                  [] [[0; 1]] (fresh 0.5%float 0.25%float) [] [])).
  left. reflexivity.
Defined.

Lemma C7_witness :
  let pk := folder "folder_path" true (fresh 0.5%float 0.25%float) in
  saveWMat fmt_example (fun _ => false) pk ∅ = (pk, ∅, true).
Proof.
  intros pk.
  destruct (C7_save_and_load_results fmt_example (fun _ => false) pk ∅)
    as (_ & _ & _ & _ & Hsame & _).
  assert ((saveWMat fmt_example (fun _ => false) pk ∅).2 = true) as Htrue
    by reflexivity.
  specialize (Hsame Htrue eq_refl).
  destruct (saveWMat fmt_example (fun _ => false) pk ∅) as [[pk' fs'] b] eqn:E.
  simpl in Htrue, Hsame. subst b fs'.
  assert (pk' = pk) as ->; [|reflexivity].
  change pk' with (pk', (∅ : gmap string (CacheFile float)), true).1.1.
  rewrite <- E. reflexivity.
Defined.

Lemma C8_witness :
  let pk := folder "folder_path" true (updateWMat 3 (fresh 0.5%float 0.25%float)) in
  let pk0 := folder "folder_path" false (fresh 0.5%float 0.25%float) in
  (saveWMat fmt_example (fun _ => false) pk ∅ = (pk, ∅, true)
   ∧ loadWMat fmt_example pk0 ∅ = (pk0, ∅, false)
   ∧ _DIM (loadWMat fmt_example pk0 ∅).1.1 = 1 ∧ _DIM pk = 3)
  ∧ (let fs' := (saveWMat fmt_example (fun _ => true) pk ∅).1.2 in
     saveWMat fmt_example (fun _ => true) pk ∅ = (pk, fs', true)
     ∧ wmat (loadWMat fmt_example pk0 fs').1.1 = wmat pk).
Proof.
  intros pk pk0.
  assert (PathKernel_new (_CHV pk) (_CD pk) = inr (fresh 0.5%float 0.25%float))
    as Hnew by (vm_compute; reflexivity).
  assert (reachable fmt_example pk) as Hreach.
  { apply reach_folder, reach_updateWMat.
    apply (reach_new fmt_example 0.5%float 0.25%float).
    vm_compute; reflexivity. }
  split.
  - assert (saveWMat fmt_example (fun _ => false) pk ∅ = (pk, ∅, true)) as Hsave
      by (vm_compute; reflexivity).
    split; [exact Hsave|].
    destruct (C8_save_then_load_round_trip fmt_example (fun _ => false) pk ∅ ∅
                (fresh 0.5%float 0.25%float) false Hreach Hsave Hnew)
      as (_ & _ & Hload).
    destruct (Hload eq_refl (lookup_empty _)) as [Hld Hdim].
    split; [exact Hld|]. split; [exact Hdim|reflexivity].
  - intros fs'.
    assert (saveWMat fmt_example (fun _ => true) pk ∅ = (pk, fs', true)) as Hsave
      by (vm_compute; reflexivity).
    split; [exact Hsave|].
    destruct (C8_save_then_load_round_trip fmt_example (fun _ => true) pk ∅ fs'
                (fresh 0.5%float 0.25%float) false Hreach Hsave Hnew)
      as (Hround & _).
    exact (proj2 (Hround eq_refl)).
Defined.

Lemma C9_witness :
  call_pairwise (SymKernel_ground indicator_float) [] [0; 1]
    (fresh 0.5%float 0.25%float) 7%float
  = {| res_pk := fresh 0.5%float 0.25%float; res_out := 7%float; res_exn := None |}.
Proof.
  apply (proj1 (C9_empty_sequence_is_silent_noop (SymKernel_ground indicator_float)
                  [] [0; 1] (fresh 0.5%float 0.25%float) 7%float)).
  left. reflexivity.
Defined.

(** * Further properties *)

Section LoopFacts2.
Context {St : Type}.
Implicit Types (body : nat -> St -> St) (st : St).

Lemma for_range_keeps (Q : St -> Prop) a b body st :
  Q st -> (forall i s, a ≤ i < b -> Q s -> Q (body i s)) ->
  Q (for_range a b body st).
Proof.
  intros Hst Hbody. destruct (decide (a ≤ b)).
  - apply (for_range_inv (fun _ s => Q s)); auto.
  - rewrite for_range_empty by lia. done.
Qed.

Lemma for_range_ext a b (f g : nat -> St -> St) st :
  (forall i s, a ≤ i < b -> f i s = g i s) ->
  for_range a b f st = for_range a b g st.
Proof.
  intros Hfg. destruct (decide (a ≤ b)) as [Hab|Hab].
  - apply (for_range_inv (fun i s => s = for_range a i g st)); [done| |].
    + by rewrite for_range_empty.
    + intros i s Hi ->. rewrite for_range_snoc by lia. by apply Hfg.
  - by rewrite !for_range_empty by lia.
Qed.

End LoopFacts2.

Section EngineExtras.
Context {T : Type} `{Num T}.
Implicit Types (pk : PathKernel T) (CHV CD : T) (w : list (list T)).

Lemma grow_old_cells CHV CD d n w i j :
  dims d w -> d ≤ n -> i < d -> j < d ->
  get (grow CHV CD d n w) i j = get w i j.
Proof.
  intros Hw Hdn Hi Hj. unfold grow.
  pose (Q := fun w' : list (list T) => get w' i j = get w i j).
  assert (forall a b r w', d ≤ a -> Q w' ->
    Q (for_range a b (fun c => cell_step CHV CD r c) w')) as Hrow_new_col.
  { intros a b r w' Ha Hw'. apply for_range_keeps; [done|].
    intros c s Hc Hs. unfold cell_step, Q.
    rewrite !get_set_ne by (intros [=]; lia). exact Hs. }
  assert (forall a b r w', d ≤ r -> Q w' ->
    Q (for_range a b (fun c => cell_step CHV CD r c) w')) as Hrow_new_row.
  { intros a b r w' Hr Hw'. apply for_range_keeps; [done|].
    intros c s Hc Hs. unfold cell_step, Q.
    rewrite !get_set_ne by (intros [=]; lia). exact Hs. }
  change (Q (for_range d n (fun i w =>
    for_range (i + 1) n (fun j => cell_step CHV CD i j) (diag_step CHV CD i w))
    (for_range 1 d (fun i => for_range d n (fun j => cell_step CHV CD i j))
      (for_range d n (border_step CHV) (resize_square n w))))).
  apply for_range_keeps; [apply for_range_keeps; [apply for_range_keeps|]|].
  - unfold Q. by apply (get_resize_square d).
  - intros r s Hr Hs. unfold border_step, Q.
    rewrite !get_set_ne by (intros [=]; lia). exact Hs.
  - intros r s Hr Hs. by apply Hrow_new_col.
  - intros r s Hr Hs. apply Hrow_new_row; [lia|].
    unfold diag_step, Q. rewrite get_set_ne by (intros [=]; lia). exact Hs.
Qed.

(** X1. [updateWMat] does not recompute what it has: on an engine whose
    table is [_DIM] by [_DIM], whatever its entries (the recurrence, or
    values read from a file), every entry [wmat[i][j]] with [i, j < _DIM] is
    after the call what it was before, and the table is square of the new
    dimension. *)
Theorem X1_updateWMat_keeps_old_cells pk (dim i j : nat) :
  dims (_DIM pk) (wmat pk) ->
  i < _DIM pk -> j < _DIM pk ->
  get (wmat (updateWMat dim pk)) i j = get (wmat pk) i j
  ∧ dims (_DIM (updateWMat dim pk)) (wmat (updateWMat dim pk)).
Proof.
  intros Hd Hi Hj. unfold updateWMat. case_decide; [|done]. simpl.
  split; [apply grow_old_cells; (done || lia)|apply dims_grow].
Qed.

End EngineExtras.

Lemma X1_witness :
  dims (_DIM loaded_example) (wmat loaded_example)
  ∧ get (wmat (updateWMat 4 loaded_example)) 1 0 = 7%float.
Proof.
  assert (dims (_DIM loaded_example) (wmat loaded_example)) as Hd.
  { split; [reflexivity|]. repeat constructor. }
  split; [exact Hd|].
  destruct (X1_updateWMat_keeps_old_cells loaded_example 4 1 0 Hd) as [Hget _];
    [simpl; lia|simpl; lia|].
  rewrite Hget. reflexivity.
Defined.

(** ** No method shrinks the table or changes the step costs *)

Section GrownFacts.
Context {T : Type} `{Num T} {Sym : Type}.
Variable fmt : T -> string.
Variable ofs_opens : string -> bool.
Variable _sk : GroundKernel T Sym.
Implicit Types (pk : PathKernel T) (s t : list Sym) (slist tlist : list (list Sym)).

Lemma grown_refl pk : grown pk pk.
Proof. by repeat split. Qed.

Lemma grown_trans pk1 pk2 pk3 : grown pk1 pk2 -> grown pk2 pk3 -> grown pk1 pk3.
Proof.
  intros (? & ? & ? & ? & ?) (? & ? & ? & ? & ?).
  repeat split; (congruence || lia).
Qed.

Lemma updateWMat_grown dim pk : grown pk (updateWMat dim pk).
Proof.
  unfold updateWMat. case_decide; [|apply grown_refl].
  repeat split; simpl; (done || lia).
Qed.

Lemma loadWMat_grown pk fs : grown pk (loadWMat fmt pk fs).1.1.
Proof.
  unfold loadWMat. case_decide; [|apply grown_refl].
  destruct (fs !! wmat_fname fmt pk) as [ifs|]; [|apply grown_refl].
  case_decide; [|apply grown_refl].
  repeat split; simpl; (done || lia).
Qed.

Lemma saveWMat_engine pk fs : (saveWMat fmt ofs_opens pk fs).1.1 = pk.
Proof.
  unfold saveWMat.
  destruct (bool_decide (0 < String.length (wDir pk)) && wW pk);
    [destruct (fs !! wmat_fname fmt pk) as [ifs|];
       [destruct (bool_decide (cf_N ifs < _DIM pk))|]|]; done.
Qed.

Lemma call_pairwise_grown s t pk k : grown pk (res_pk (call_pairwise _sk s t pk k)).
Proof.
  unfold call_pairwise. case_decide; [apply grown_refl|].
  destruct (sk_cross _sk s t); simpl; apply updateWMat_grown.
Qed.

Lemma call_self_grown s pk k : grown pk (res_pk (call_self _sk s pk k)).
Proof.
  unfold call_self. case_decide; [apply grown_refl|].
  destruct (sk_self _sk s); simpl; apply updateWMat_grown.
Qed.

Lemma call_pairwiseMatrix_grown slist tlist pk km :
  grown pk (res_pk (call_pairwiseMatrix _sk slist tlist pk km)).
Proof.
  unfold call_pairwiseMatrix. case_decide; [apply grown_refl|]. cbn [res_pk].
  apply (for_range_exn_inv (fun st => grown pk st.1)); [apply grown_refl|].
  intros i st Hst.
  apply (for_range_exn_inv (fun st => grown pk st.1)); [exact Hst|].
  intros j st' Hst'. unfold pairwise_into. simpl.
  eapply grown_trans; [exact Hst'|apply call_pairwise_grown].
Qed.

Lemma call_selfMatrix_grown slist pk km :
  grown pk (res_pk (call_selfMatrix _sk slist pk km)).
Proof.
  unfold call_selfMatrix. case_decide; [apply grown_refl|]. cbn [res_pk].
  apply (for_range_exn_inv (fun st => grown pk st.1)); [apply grown_refl|].
  intros i st Hst. cbv zeta.
  assert (grown pk
            (self_into _sk (seq_at slist i) i
               (st.1, alter (resize (length slist) num0) i st.2)).1.1) as Hself.
  { unfold self_into. simpl.
    eapply grown_trans; [exact Hst|apply call_self_grown]. }
  destruct (self_into _) as [st' [e|]]; [done|].
  apply (for_range_exn_inv (fun st => grown pk st.1)); [done|].
  intros j st'' Hst''.
  assert (grown pk
            (pairwise_into _sk (seq_at slist i) (seq_at slist j) i j st'').1.1) as Hpair.
  { unfold pairwise_into. simpl.
    eapply grown_trans; [exact Hst''|apply call_pairwise_grown]. }
  by destruct (pairwise_into _) as [st3 [e|]].
Qed.

Lemma call_selfVector_grown slist pk (kv : list T) :
  grown pk (res_pk (call_selfVector _sk slist pk kv)).
Proof.
  unfold call_selfVector. cbn [res_pk].
  apply (for_range_exn_inv (fun st => grown pk st.1)); [apply grown_refl|].
  intros i st Hst. simpl.
  eapply grown_trans; [exact Hst|apply call_self_grown].
Qed.

(** X2. Whatever it is given and whether it returns or throws, no method
    of the class lowers [_DIM], and none changes [_CHV] or [_CD]; apart from
    [folder], none changes the folder or the write permission.  This holds
    for [updateWMat], [loadWMat], [saveWMat] and the five evaluators. *)
Theorem X2_no_method_shrinks_the_table
    pk (fs : gmap string (CacheFile T)) (dim : nat) s t (k : T)
    slist tlist (km : list (list T)) (kv : list T) :
  grown pk (updateWMat dim pk)
  ∧ grown pk (loadWMat fmt pk fs).1.1
  ∧ grown pk (saveWMat fmt ofs_opens pk fs).1.1
  ∧ grown pk (res_pk (call_pairwise _sk s t pk k))
  ∧ grown pk (res_pk (call_self _sk s pk k))
  ∧ grown pk (res_pk (call_pairwiseMatrix _sk slist tlist pk km))
  ∧ grown pk (res_pk (call_selfMatrix _sk slist pk km))
  ∧ grown pk (res_pk (call_selfVector _sk slist pk kv)).
Proof.
  split; [apply updateWMat_grown|]. split; [apply loadWMat_grown|].
  split; [rewrite saveWMat_engine; apply grown_refl|].
  split; [apply call_pairwise_grown|]. split; [apply call_self_grown|].
  split; [apply call_pairwiseMatrix_grown|].
  split; [apply call_selfMatrix_grown|apply call_selfVector_grown].
Qed.

End GrownFacts.

(** ** More on the cache files *)

Section CacheExtras.
Context {T : Type} `{Num T}.
Variable fmt : T -> string.
Variable ofs_opens : string -> bool.
Implicit Types (pk : PathKernel T) (fs : gmap string (CacheFile T)).

Lemma get_resize_square_new d n (m : list (list T)) i j :
  dims d m -> i < n -> j < n -> d ≤ i ∨ d ≤ j ->
  get (resize_square n m) i j = num0.
Proof.
  intros Hm Hi Hj Hnew.
  rewrite resize_square_fmap. unfold get.
  rewrite list_lookup_fmap.
  destruct (decide (i < d)) as [Hid|Hid].
  - destruct (dims_lookup d m i Hm Hid) as (row & Hrow & Hlen).
    destruct Hm as [Hm _].
    rewrite lookup_resize by lia. rewrite Hrow. simpl.
    rewrite lookup_resize_new by lia. done.
  - destruct Hm as [Hm _].
    rewrite lookup_resize_new by lia. simpl.
    rewrite lookup_resize_new by (simpl; lia). done.
Qed.

(** The outcome of [loadWMat] in one equation. *)
Lemma loadWMat_cases pk fs :
  (loadWMat fmt pk fs = (pk, fs, false)
   ∧ (wDir pk = "" ∨ fs !! wmat_fname fmt pk = None
      ∨ exists ifs, fs !! wmat_fname fmt pk = Some ifs ∧ cf_N ifs ≤ _DIM pk))
  ∨ (exists ifs, fs !! wmat_fname fmt pk = Some ifs
       ∧ _DIM pk < cf_N ifs ∧ wDir pk ≠ ""
       ∧ loadWMat fmt pk fs
         = ({| _CHV := _CHV pk; _CD := _CD pk;
               wmat := read_wmat (cf_N ifs) (resize_square (cf_N ifs) (wmat pk))
                         (cf_data ifs);
               _DIM := cf_N ifs; wDir := wDir pk; wW := wW pk |}, fs, true)).
Proof.
  unfold loadWMat. case_decide as Hdir.
  2:{ left. split; [done|]. left. destruct (wDir pk); [done|]. simpl in Hdir. lia. }
  apply string_length_pos in Hdir.
  destruct (fs !! wmat_fname fmt pk) as [ifs|] eqn:Hifs; [|left; by auto].
  case_decide.
  - right. exists ifs. by repeat split.
  - left. split; [done|]. right. right. exists ifs. split; [done|lia].
Qed.

(** X3. The file [saveWMat] writes when it returns true and its output
    stream opened: named after the folder and the two step costs, it holds
    [_DIM], then exactly [_DIM * _DIM] values, the entry [wmat[i][j]] at
    offset [i * _DIM + j] (row-major order). *)
Theorem X3_saved_file_layout pk fs :
  (saveWMat fmt ofs_opens pk fs).2 = true ->
  ofs_opens (wmat_fname fmt pk) = true ->
  exists ofs, (saveWMat fmt ofs_opens pk fs).1.2 !! wmat_fname fmt pk = Some ofs
    ∧ cf_N ofs = _DIM pk
    ∧ length (cf_data ofs) = _DIM pk * _DIM pk
    ∧ forall i j, i < _DIM pk -> j < _DIM pk ->
        cf_data ofs !! (i * _DIM pk + j) = Some (get (wmat pk) i j).
Proof.
  intros Htrue Hopen.
  destruct (saveWMat_cases fmt ofs_opens pk fs) as [[Heq _]|[Heq _]];
    rewrite Heq in *; [discriminate|]. simpl. rewrite Hopen.
  eexists. split; [apply lookup_insert_eq|]. simpl.
  destruct (write_wmat_spec (_DIM pk) (wmat pk)) as [Hlen Hcells]. done.
Qed.

(** X4. [saveWMat] touches no file but its own, and never replaces its own
    file by one of a smaller or equal dimension: a file that was there is
    still there, with a dimension at least what it was. *)
Theorem X4_save_never_loses_a_larger_cache pk fs (name : string) ifs :
  fs !! name = Some ifs ->
  exists ofs, (saveWMat fmt ofs_opens pk fs).1.2 !! name = Some ofs
    ∧ cf_N ifs ≤ cf_N ofs
    ∧ (name ≠ wmat_fname fmt pk -> ofs = ifs).
Proof.
  intros Hifs.
  destruct (saveWMat_cases fmt ofs_opens pk fs) as [[Heq _]|(Heq & _ & _ & Hlt)];
    rewrite Heq; simpl.
  - exists ifs. by repeat split.
  - destruct (ofs_opens (wmat_fname fmt pk)); [|exists ifs; by repeat split].
    destruct (decide (name = wmat_fname fmt pk)) as [->|Hne].
    + eexists. split; [apply lookup_insert_eq|]. simpl.
      split; [|done]. specialize (Hlt ifs Hifs). lia.
    + exists ifs. rewrite lookup_insert_ne by done. by repeat split.
Qed.

(** X5. Saving twice: whatever the first [saveWMat] did, the second
    leaves the file system as the first left it.  The second returns false,
    except when the first returned true without its output stream opening:
    then nothing was written and the second returns true again. *)
Theorem X5_save_is_idempotent pk fs :
  let sv := saveWMat fmt ofs_opens pk fs in
  let sv2 := saveWMat fmt ofs_opens pk sv.1.2 in
  sv2.1 = (pk, sv.1.2)
  ∧ (sv2.2 = true <-> sv.2 = true ∧ ofs_opens (wmat_fname fmt pk) = false).
Proof.
  cbv zeta.
  destruct (saveWMat_cases fmt ofs_opens pk fs) as [[Heq _]|(Heq & Hdir & Hw & _)].
  - rewrite !Heq. simpl. rewrite Heq. simpl. split; [done|].
    split; [discriminate|]. by intros [? _].
  - rewrite Heq. simpl.
    destruct (ofs_opens (wmat_fname fmt pk)) eqn:Hopen.
    + destruct (saveWMat_cases fmt ofs_opens pk
        (<[wmat_fname fmt pk :=
            {| cf_N := _DIM pk; cf_data := write_wmat (_DIM pk) (wmat pk) |}]> fs))
        as [[Heq' _]|(_ & _ & _ & Hlt)].
      * rewrite Heq'. simpl. split; [done|]. split; [discriminate|]. by intros [_ ?].
      * specialize (Hlt _ (lookup_insert_eq _ _ _)). simpl in Hlt. lia.
    + rewrite Heq. simpl. rewrite ?Hopen. done.
Qed.

(** X6. [loadWMat] leaves the file system as it was, and after it,
    whatever it did, a second [loadWMat] returns false and changes nothing;
    when the first returned true, a [saveWMat] returns false and changes
    nothing too: an engine does not write back the table it has just
    read. *)
Theorem X6_nothing_to_do_after_load pk fs :
  let pk' := (loadWMat fmt pk fs).1.1 in
  (loadWMat fmt pk fs).1.2 = fs
  ∧ loadWMat fmt pk' fs = (pk', fs, false)
  ∧ ((loadWMat fmt pk fs).2 = true ->
     saveWMat fmt ofs_opens pk' fs = (pk', fs, false)).
Proof.
  simpl.
  destruct (loadWMat_cases pk fs) as [[Heq Hc]|(ifs & Hifs & Hlt & Hdir & Heq)];
    rewrite Heq; simpl.
  - split; [done|]. split; [done|]. discriminate.
  - set (pk' := {| _CHV := _CHV pk |}).
    assert (wmat_fname fmt pk' = wmat_fname fmt pk) as Hname by reflexivity.
    split; [done|]. split.
    + destruct (loadWMat_cases pk' fs) as [[Heq' _]|(ifs' & Hifs' & Hlt' & _)];
        [done|].
      rewrite Hname, Hifs in Hifs'. injection Hifs' as <-. simpl in Hlt'. lia.
    + intros _.
      destruct (saveWMat_cases fmt ofs_opens pk' fs)
        as [[Heq' _]|(_ & _ & _ & Hlt')]; [done|].
      rewrite Hname in Hlt'. specialize (Hlt' ifs Hifs). simpl in Hlt'. lia.
Qed.

(** X7. Loading a file, truncated or not, into an engine whose table is
    [_DIM] by [_DIM]: the new table is [N] by [N] for the stored dimension
    [N]; an entry whose offset [i * N + j] is within the file takes the
    stored value; past the end of the file an entry keeps the engine's old
    value if [i, j < _DIM] and is zero otherwise. *)
Theorem X7_load_of_a_truncated_file pk fs :
  dims (_DIM pk) (wmat pk) ->
  (loadWMat fmt pk fs).2 = true ->
  exists ifs, fs !! wmat_fname fmt pk = Some ifs
    ∧ let N := cf_N ifs in
      let W := wmat (loadWMat fmt pk fs).1.1 in
      dims N W
      ∧ forall i j, i < N -> j < N ->
          get W i j =
            match cf_data ifs !! (i * N + j) with
            | Some x => x
            | None => if decide (i < _DIM pk ∧ j < _DIM pk)
                      then get (wmat pk) i j else num0
            end.
Proof.
  intros Hd Htrue.
  destruct (loadWMat_cases pk fs) as [[Heq _]|(ifs & Hifs & Hlt & Hdir & Heq)];
    rewrite Heq in *; [discriminate|].
  exists ifs. split; [done|]. simpl.
  destruct (read_wmat_spec (cf_N ifs) (resize_square (cf_N ifs) (wmat pk))
              (cf_data ifs)) as [Hdims Hcells]; [apply dims_resize_square|].
  split; [done|]. intros i j Hi Hj. rewrite Hcells by done.
  destruct (cf_data ifs !! (i * cf_N ifs + j)); simpl; [done|].
  case_decide as Hold.
  - apply (get_resize_square (_DIM pk)); (done || lia).
  - apply (get_resize_square_new (_DIM pk)); (done || lia).
Qed.

(** X8. The cache is transparent. When an engine holding the recurrence
    at dimension [N] has saved its table, the output stream having opened,
    [loadWMat] on an engine with the same step costs and folder that holds
    the recurrence at dimension [D] leaves it exactly as [updateWMat(N)]
    would. *)
Theorem X8_load_is_extend (CHV CD : T) (N D : nat) (dir : string) (w w' : bool) fs :
  1 ≤ N -> 1 ≤ D ->
  (saveWMat fmt ofs_opens (engine CHV CD N dir w) fs).2 = true ->
  ofs_opens (wmat_fname fmt (engine CHV CD N dir w)) = true ->
  (loadWMat fmt (engine CHV CD D dir w')
     (saveWMat fmt ofs_opens (engine CHV CD N dir w) fs).1.2).1.1
  = updateWMat N (engine CHV CD D dir w').
Proof.
  intros HN HD Htrue Hopen.
  destruct (saveWMat_cases fmt ofs_opens (engine CHV CD N dir w) fs)
    as [[Heq _]|(Heq & Hdir & _)];
    rewrite Heq in *; [discriminate|]. simpl. rewrite Hopen.
  rewrite updateWMat_engine by done.
  set (fs' := <[_ := _]> fs).
  destruct (loadWMat_cases (engine CHV CD D dir w') fs')
    as [[Heq' Hc]|(ifs & Hifs & Hlt & _ & Heq')]; rewrite Heq'; simpl.
  - destruct Hc as [Hc|[Hc|(ifs & Hifs & Hle)]]; [done| |].
    + unfold fs' in Hc.
      change (wmat_fname fmt (engine CHV CD D dir w'))
        with (wmat_fname fmt (engine CHV CD N dir w)) in Hc.
      by rewrite lookup_insert_eq in Hc.
    + unfold fs' in Hifs.
      change (wmat_fname fmt (engine CHV CD D dir w'))
        with (wmat_fname fmt (engine CHV CD N dir w)) in Hifs.
      rewrite lookup_insert_eq in Hifs. injection Hifs as <-. simpl in Hle.
      by replace (D `max` N) with D by lia.
  - unfold fs' in Hifs.
    change (wmat_fname fmt (engine CHV CD D dir w'))
      with (wmat_fname fmt (engine CHV CD N dir w)) in Hifs.
    rewrite lookup_insert_eq in Hifs. injection Hifs as <-. simpl in *.
    replace (D `max` N) with N by lia. unfold engine. f_equal.
    apply read_write_wmat; [apply dims_resize_square|apply dims_table].
Qed.

End CacheExtras.

(** ** The evaluators on engines that hold the recurrence *)

Section ExnLoopFacts.
Context {St : Type}.
Implicit Types (body : nat -> St -> St * option Exn) (st : St).

Lemma for_range_exn_empty a b body st :
  b ≤ a -> for_range_exn a b body st = (st, None).
Proof.
  intros Hle. unfold for_range_exn. by replace (b - a) with 0 by lia.
Qed.

Lemma for_range_exn_snoc a b body st :
  a ≤ b ->
  for_range_exn a (S b) body st
  = match (for_range_exn a b body st).2 with
    | Some _ => for_range_exn a b body st
    | None => body b (for_range_exn a b body st).1
    end.
Proof.
  intros Hle. unfold for_range_exn.
  replace (S b - a) with (S (b - a)) by lia.
  rewrite seq_S, foldl_app. simpl.
  by replace (a + (b - a)) with b by lia.
Qed.

(** The invariant rule of a loop none of whose iterations throws. *)
Lemma for_range_exn_ok (P : nat -> St -> Prop) a b body st :
  a ≤ b ->
  P a st ->
  (forall i s, a ≤ i < b -> P i s -> (body i s).2 = None ∧ P (S i) (body i s).1) ->
  (for_range_exn a b body st).2 = None ∧ P b (for_range_exn a b body st).1.
Proof.
  intros Hab H0 Hstep. induction b as [|b IH].
  - assert (a = 0) as -> by lia. by rewrite for_range_exn_empty by lia.
  - destruct (decide (a = S b)) as [->|Hne].
    + by rewrite for_range_exn_empty by lia.
    + rewrite for_range_exn_snoc by lia.
      destruct IH as [IHe IHP]; [lia| |].
      { intros i s Hi. apply Hstep. lia. }
      rewrite IHe. apply Hstep; [lia|done].
Qed.

(** The invariant rule of a loop that ends without an exception: every
    iteration has run and none has thrown. *)
Lemma for_range_exn_done (P : nat -> St -> Prop) a b body st :
  a ≤ b ->
  (for_range_exn a b body st).2 = None ->
  P a st ->
  (forall i s, a ≤ i < b -> P i s -> (body i s).2 = None -> P (S i) (body i s).1) ->
  P b (for_range_exn a b body st).1.
Proof.
  intros Hab. induction b as [|b IH]; intros Hnone H0 Hstep.
  - assert (a = 0) as -> by lia. by rewrite for_range_exn_empty by lia.
  - destruct (decide (a = S b)) as [->|Hne].
    + by rewrite for_range_exn_empty by lia.
    + revert Hnone. rewrite for_range_exn_snoc by lia.
      destruct (for_range_exn a b body st).2 eqn:He; [by rewrite He|].
      intros Hnone. apply Hstep; [lia| |done].
      apply IH; [lia|done|done|]. intros i s Hi. apply Hstep. lia.
Qed.

(** The exception of a loop is the exception of one of its iterations. *)
Lemma for_range_exn_Some (P : St -> Prop) a b body st e :
  (for_range_exn a b body st).2 = Some e ->
  P st ->
  (forall i s, a ≤ i < b -> P s -> P (body i s).1) ->
  exists i s, a ≤ i < b ∧ P s ∧ (body i s).2 = Some e.
Proof.
  induction b as [|b IH]; intros He H0 Hstep.
  - unfold for_range_exn in He. simpl in He. discriminate.
  - destruct (decide (a ≤ b)) as [Hle|Hgt].
    2:{ rewrite for_range_exn_empty in He by lia. discriminate. }
    rewrite for_range_exn_snoc in He by lia.
    destruct (for_range_exn a b body st).2 as [e'|] eqn:He'.
    + destruct IH as (i & s & Hi & Hs & Hb); [by rewrite <- He, He'|done| |].
      { intros i s Hi. apply Hstep. lia. }
      exists i, s. split; [lia|done].
    + exists b, (for_range_exn a b body st).1. split; [lia|]. split; [|done].
      assert (forall n, a ≤ n -> n ≤ b -> P (for_range_exn a n body st).1) as Hall.
      { induction n as [|n IHn]; intros Han Hnb.
        - by rewrite for_range_exn_empty by lia.
        - destruct (decide (a = S n)) as [->|Hne].
          + by rewrite for_range_exn_empty by lia.
          + rewrite for_range_exn_snoc by lia.
            destruct (for_range_exn a n body st).2; [apply IHn; lia|].
            apply Hstep; [lia|]. apply IHn; lia. }
      by apply Hall.
Qed.

End ExnLoopFacts.

Section MemoFacts.
Context {T : Type} `{Num T} {Sym : Type}.
Variable _sk : GroundKernel T Sym.
Variables CHV CD : T.
Implicit Types (s t : list Sym) (k : T) (dir : string) (w : bool).

Lemma pair_term_table skm N N' ls lt i j :
  ls ≤ N -> lt ≤ N -> ls ≤ N' -> lt ≤ N' -> i < ls -> j < lt ->
  pair_term skm (table (W_rec CHV CD) N) ls lt i j
  = pair_term skm (table (W_rec CHV CD) N') ls lt i j.
Proof.
  intros. unfold pair_term. by rewrite !get_table by lia.
Qed.

Lemma call_pairwise_engine s t D dir w k :
  1 ≤ D ->
  let r := call_pairwise _sk s t (engine CHV CD D dir w) k in
  let r1 := call_pairwise _sk s t (engine CHV CD 1 dir w) k in
  res_pk r = updateWMat D (res_pk r1)
  ∧ res_out r = res_out r1
  ∧ res_exn r = res_exn r1.
Proof.
  intros HD. simpl. unfold call_pairwise. case_decide.
  - simpl. rewrite updateWMat_engine by done. by replace (1 `max` D) with D by lia.
  - rewrite !updateWMat_engine by done.
    destruct (sk_cross _sk s t) as [e|skm]; simpl.
    + rewrite updateWMat_engine by lia. split; [|done]. f_equal. lia.
    + rewrite updateWMat_engine by lia. split; [f_equal; lia|]. split; [|done].
      apply for_range_ext. intros i k' Hi.
      apply for_range_ext. intros j k'' Hj. f_equal.
      apply pair_term_table; lia.
Qed.

Lemma call_self_engine s D dir w k :
  1 ≤ D ->
  let r := call_self _sk s (engine CHV CD D dir w) k in
  let r1 := call_self _sk s (engine CHV CD 1 dir w) k in
  res_pk r = updateWMat D (res_pk r1)
  ∧ res_out r = res_out r1
  ∧ res_exn r = res_exn r1.
Proof.
  intros HD. simpl. unfold call_self. case_decide.
  - simpl. rewrite updateWMat_engine by done. by replace (1 `max` D) with D by lia.
  - rewrite !updateWMat_engine by done.
    destruct (sk_self _sk s) as [e|skm]; simpl.
    + rewrite updateWMat_engine by lia. split; [|done]. f_equal. lia.
    + rewrite updateWMat_engine by lia. split; [f_equal; lia|]. split; [|done].
      apply for_range_ext. intros i k' Hi.
      rewrite !get_table by lia.
      apply for_range_ext. intros j k'' Hj.
      by rewrite !get_table by lia.
Qed.

(** X9. The size of the table does not show in the results. On an engine
    that holds the recurrence at any dimension [D], the two-sequence and the
    single-sequence operators store the same value and raise the same
    exception, if any, as on a freshly constructed engine, and leave the
    engine that [updateWMat(D)] makes of the fresh engine's result. *)
Theorem X9_results_do_not_depend_on_the_table_size s t D dir w k :
  1 ≤ D ->
  (let r := call_pairwise _sk s t (engine CHV CD D dir w) k in
   let r1 := call_pairwise _sk s t (engine CHV CD 1 dir w) k in
   res_pk r = updateWMat D (res_pk r1)
   ∧ res_out r = res_out r1 ∧ res_exn r = res_exn r1)
  ∧ (let r := call_self _sk s (engine CHV CD D dir w) k in
     let r1 := call_self _sk s (engine CHV CD 1 dir w) k in
     res_pk r = updateWMat D (res_pk r1)
     ∧ res_out r = res_out r1 ∧ res_exn r = res_exn r1).
Proof.
  intros HD. split; [by apply call_pairwise_engine|by apply call_self_engine].
Qed.

End MemoFacts.

(** ** The batched forms on engines that hold the recurrence *)

Section RowFacts.
Context {T : Type} `{Num T}.
Implicit Types (km : list (list T)).

Lemma has_row_set km i n i' j v : has_row km i n -> has_row (set km i' j v) i n.
Proof.
  intros (row & Hrow & Hlen). unfold set.
  destruct (decide (i' = i)) as [->|Hne].
  - exists (<[j := v]> row). by rewrite list_lookup_alter_eq, Hrow, length_insert.
  - exists row. by rewrite list_lookup_alter_ne.
Qed.

Lemma has_row_resize km i n :
  i < length km -> has_row (alter (resize n num0) i km) i n.
Proof.
  intros Hi. destruct (lookup_lt_is_Some_2 km i Hi) as [row Hrow].
  exists (resize n num0 row). by rewrite list_lookup_alter_eq, Hrow, length_resize.
Qed.

Lemma has_row_alter_ne (g : list T -> list T) km i i' n :
  i ≠ i' -> has_row km i n -> has_row (alter g i' km) i n.
Proof.
  intros Hne (row & Hrow & Hlen). exists row. by rewrite list_lookup_alter_ne.
Qed.

Lemma get_set_row km i j v n :
  has_row km i n -> j < n -> get (set km i j v) i j = v.
Proof.
  intros (row & Hrow & Hlen) Hj. apply (get_set_lookup km i j v row); [done|lia].
Qed.

Lemma length_set km i j v : length (set km i j v) = length km.
Proof. unfold set. by rewrite length_alter. Qed.

End RowFacts.

Section BatchedFacts.
Context {T : Type} `{Num T} {Sym : Type}.
Variable _sk : GroundKernel T Sym.
Variables CHV CD : T.
Implicit Types (s t : list Sym) (slist tlist : list (list Sym)) (k : T)
  (dir : string) (w : bool) (km : list (list T)).

Lemma call_pairwise_engine_value s t D dir w k skm :
  1 ≤ D -> s ≠ [] -> t ≠ [] -> sk_cross _sk s t = inr skm ->
  call_pairwise _sk s t (engine CHV CD D dir w) k
  = mkRes (engine CHV CD (D `max` (length s `max` length t)) dir w)
          (pairwise_value _sk CHV CD s t) None.
Proof.
  intros HD Hs Ht Hsk. unfold pairwise_value, call_pairwise.
  case_decide as Hd.
  { destruct Hd as [Hd|Hd]; apply length_zero_iff_nil in Hd; done. }
  rewrite Hsk, !updateWMat_engine by done. simpl. f_equal.
  apply for_range_ext. intros i k' Hi.
  apply for_range_ext. intros j k'' Hj. f_equal.
  apply pair_term_table; lia.
Qed.

Lemma call_self_engine_value s D dir w k skm :
  1 ≤ D -> s ≠ [] -> sk_self _sk s = inr skm ->
  call_self _sk s (engine CHV CD D dir w) k
  = mkRes (engine CHV CD (D `max` length s) dir w) (self_value _sk CHV CD s) None.
Proof.
  intros HD Hs Hsk. unfold self_value, call_self.
  case_decide as Hd; [by apply length_zero_iff_nil in Hd|].
  rewrite Hsk, !updateWMat_engine by done. simpl. f_equal.
  apply for_range_ext. intros i k' Hi.
  rewrite !get_table by lia.
  apply for_range_ext. intros j k'' Hj.
  by rewrite !get_table by lia.
Qed.

Lemma seq_at_lookup slist i s : slist !! i = Some s -> seq_at slist i = s.
Proof. intros Hs. unfold seq_at. by rewrite Hs. Qed.

Lemma seq_at_elem slist i : i < length slist -> seq_at slist i ∈ slist.
Proof.
  intros Hi. destruct (lookup_lt_is_Some_2 slist i Hi) as [s Hs].
  rewrite (seq_at_lookup _ _ _ Hs). by eapply list_elem_of_lookup_2.
Qed.

(** X10. [operator()(slist,tlist,km)] on non-empty lists of non-empty
    sequences, when the ground kernel answers on every pair and the engine
    holds the recurrence: it does not throw, [km] has one row per sequence of
    [slist], each with one entry per sequence of [tlist], whatever [km] held
    before, and [km[i][j]] is the value the two-sequence operator stores for
    [(slist[i], tlist[j])] on a fresh engine; the engine still holds the
    recurrence, at a dimension not smaller. *)
Theorem X10_pairwiseMatrix_values slist tlist D dir w km :
  1 ≤ D -> slist ≠ [] -> tlist ≠ [] ->
  Forall (fun s => s ≠ []) slist -> Forall (fun t => t ≠ []) tlist ->
  (forall s t, s ∈ slist -> t ∈ tlist -> exists skm, sk_cross _sk s t = inr skm) ->
  let r := call_pairwiseMatrix _sk slist tlist (engine CHV CD D dir w) km in
  res_exn r = None
  ∧ (exists D', D ≤ D' ∧ res_pk r = engine CHV CD D' dir w)
  ∧ length (res_out r) = length slist
  ∧ forall i j s t, slist !! i = Some s -> tlist !! j = Some t ->
      has_row (res_out r) i (length tlist)
      ∧ get (res_out r) i j = pairwise_value _sk CHV CD s t.
Proof.
  intros HD Hsl Htl Hsne Htne Hsk. simpl.
  set (lsl := length slist). set (ltl := length tlist).
  set (val := fun i j => pairwise_value _sk CHV CD (seq_at slist i) (seq_at tlist j)).
  pose (E := fun pk : PathKernel T => exists D', D ≤ D' ∧ pk = engine CHV CD D' dir w).
  pose (Rows := fun (i : nat) km' =>
    forall i' j', i' < i -> j' < ltl -> has_row km' i' ltl ∧ get km' i' j' = val i' j').
  pose (P := fun (i : nat) (st : PathKernel T * list (list T)) =>
    E st.1 ∧ length st.2 = lsl ∧ Rows i st.2).
  pose (Q := fun (i j : nat) (st : PathKernel T * list (list T)) =>
    E st.1 ∧ length st.2 = lsl ∧ Rows i st.2
    ∧ has_row st.2 i ltl ∧ forall j', j' < j -> get st.2 i j' = val i j').
  unfold call_pairwiseMatrix. fold lsl ltl.
  case_decide as Hd.
  { destruct Hd as [Hd|Hd]; apply length_zero_iff_nil in Hd; done. }
  cbn [res_exn res_pk res_out].
  match goal with |- context [for_range_exn 0 lsl ?b ?st] =>
    destruct (for_range_exn_ok P 0 lsl b st) as (Hexn & HE & Hlen & Hrows) end.
  - lia.
  - split; [exists D; by split|]. simpl. split; [by rewrite length_resize|].
    intros i' j' ?. lia.
  - intros i [pk' km'] Hi (HE & Hlen & Hrows). simpl in HE, Hlen, Hrows. cbv zeta.
    match goal with |- context [for_range_exn 0 ltl ?b ?st] =>
      destruct (for_range_exn_ok (Q i) 0 ltl b st) as (Hexn & HE' & Hlen' & Hrows' & Hrow & Hnew)
    end.
    + lia.
    + split; [done|]. simpl. split; [by rewrite length_alter|]. split.
      * intros i' j' Hi' Hj'. destruct (Hrows i' j' Hi' Hj') as [Hr Hg].
        split; [apply has_row_alter_ne; [lia|done]|].
        rewrite get_alter_ne by lia. done.
      * split; [apply has_row_resize; lia|]. intros j' ?. lia.
    + intros j [pk'' km''] Hj ((D' & HD' & Hpk) & Hlen'' & Hrows'' & Hrow & Hnew).
      simpl in Hpk, Hlen'', Hrows'', Hrow, Hnew. subst pk''.
      unfold pairwise_into. simpl.
      destruct (Hsk (seq_at slist i) (seq_at tlist j)) as [skm Hskm];
        [apply seq_at_elem; lia|apply seq_at_elem; lia|].
      rewrite (call_pairwise_engine_value _ _ _ _ _ _ skm); [|lia| | |done].
      2:{ rewrite Forall_forall in Hsne. apply Hsne, seq_at_elem. lia. }
      2:{ rewrite Forall_forall in Htne. apply Htne, seq_at_elem. lia. }
      unfold Q, E. simpl. split; [done|]. split; [eexists; split; [|done]; lia|].
      split; [by rewrite length_set|]. split.
      * intros i' j' Hi' Hj'. destruct (Hrows'' i' j' Hi' Hj') as [Hr Hg].
        split; [by apply has_row_set|].
        rewrite get_set_ne by (intros [=]; lia). done.
      * split; [by apply has_row_set|]. intros j' Hj'.
        destruct (decide (j' = j)) as [->|Hne].
        -- apply (get_set_row _ _ _ _ ltl); [done|lia].
        -- rewrite get_set_ne by (intros [=]; lia). apply Hnew. lia.
    + split; [done|]. split; [done|]. split; [done|].
      intros i' j' Hi' Hj'. destruct (decide (i' = i)) as [->|Hne].
      * split; [done|]. by apply Hnew.
      * apply Hrows'; [lia|done].
  - split; [done|]. split; [done|]. split; [done|].
    intros i j s t Hs Ht.
    assert (i < lsl) as Hi by (by eapply lookup_lt_Some).
    assert (j < ltl) as Hj by (by eapply lookup_lt_Some).
    destruct (Hrows i j Hi Hj) as [Hr Hg]. split; [done|].
    rewrite Hg. unfold val. by rewrite (seq_at_lookup _ _ _ Hs), (seq_at_lookup _ _ _ Ht).
Qed.

Lemma call_selfMatrix_engine_values slist D dir w km :
  1 ≤ D -> slist ≠ [] ->
  Forall (fun s => s ≠ []) slist ->
  (forall s, s ∈ slist -> exists skm, sk_self _sk s = inr skm) ->
  (forall s t, s ∈ slist -> t ∈ slist -> exists skm, sk_cross _sk s t = inr skm) ->
  let r := call_selfMatrix _sk slist (engine CHV CD D dir w) km in
  res_exn r = None
  ∧ (exists D', D ≤ D' ∧ res_pk r = engine CHV CD D' dir w)
  ∧ length (res_out r) = length slist
  ∧ (forall i s, slist !! i = Some s ->
       has_row (res_out r) i (length slist)
       ∧ get (res_out r) i i = self_value _sk CHV CD s)
  ∧ (forall i j s t, j < i -> slist !! i = Some s -> slist !! j = Some t ->
       get (res_out r) i j = pairwise_value _sk CHV CD s t
       ∧ get (res_out r) j i = pairwise_value _sk CHV CD s t).
Proof.
  intros HD Hsl Hsne Hself Hcross. simpl.
  set (lsl := length slist).
  set (sval := fun i => self_value _sk CHV CD (seq_at slist i)).
  set (pval := fun i j => pairwise_value _sk CHV CD (seq_at slist i) (seq_at slist j)).
  pose (E := fun pk : PathKernel T => exists D', D ≤ D' ∧ pk = engine CHV CD D' dir w).
  pose (Rows := fun (i : nat) km' =>
    forall i', i' < i ->
      has_row km' i' lsl ∧ get km' i' i' = sval i'
      ∧ forall j', j' < i' -> get km' i' j' = pval i' j' ∧ get km' j' i' = pval i' j').
  pose (P := fun (i : nat) (st : PathKernel T * list (list T)) =>
    E st.1 ∧ length st.2 = lsl ∧ Rows i st.2).
  pose (Q := fun (i j : nat) (st : PathKernel T * list (list T)) =>
    E st.1 ∧ length st.2 = lsl ∧ Rows i st.2
    ∧ has_row st.2 i lsl ∧ get st.2 i i = sval i
    ∧ forall j', j' < j -> get st.2 i j' = pval i j' ∧ get st.2 j' i = pval i j').
  assert (forall i, i < lsl -> seq_at slist i ≠ []) as Hne.
  { intros i Hi. rewrite Forall_forall in Hsne. by apply Hsne, seq_at_elem. }
  unfold call_selfMatrix. fold lsl.
  case_decide as Hd; [by apply length_zero_iff_nil in Hd|].
  cbn [res_exn res_pk res_out].
  match goal with |- context [for_range_exn 0 lsl ?b ?st] =>
    destruct (for_range_exn_ok P 0 lsl b st) as (Hexn & HE & Hlen & Hrows) end.
  - lia.
  - split; [exists D; by split|]. simpl. split; [by rewrite length_resize|].
    intros i' ?. lia.
  - intros i [pk' km'] Hi ((D' & HD' & Hpk) & Hlen & Hrows).
    simpl in Hpk, Hlen, Hrows. subst pk'. cbv zeta. simpl.
    destruct (Hself (seq_at slist i)) as [skm Hskm]; [apply seq_at_elem; lia|].
    unfold self_into. simpl.
    rewrite (call_self_engine_value _ _ _ _ _ skm); [|lia|apply Hne; lia|done].
    simpl.
    match goal with |- context [for_range_exn 0 i ?b ?st] =>
      destruct (for_range_exn_ok (Q i) 0 i b st)
        as (Hexn & HE' & Hlen' & Hrows' & Hrow & Hdiag & Hnew)
    end.
    + lia.
    + split; [eexists; split; [|done]; lia|]. simpl.
      split; [by rewrite length_set, length_alter|]. split.
      * intros i' Hi'. destruct (Hrows i' Hi') as (Hr & Hg & Hgs).
        split; [apply has_row_set, has_row_alter_ne; [lia|done]|]. split.
        -- rewrite get_set_ne by (intros [=]; lia).
           by rewrite get_alter_ne by lia.
        -- intros j' Hj'. rewrite !get_set_ne by (intros [=]; lia).
           rewrite !get_alter_ne by lia. by apply Hgs.
      * split; [apply has_row_set, has_row_resize; lia|]. split.
        -- apply (get_set_row _ _ _ _ lsl); [apply has_row_resize; lia|lia].
        -- intros j' ?. lia.
    + intros j [pk'' km''] Hj ((D'' & HD'' & Hpk) & Hlen'' & Hrows'' & Hrow & Hdiag & Hnew).
      simpl in Hpk, Hlen'', Hrows'', Hrow, Hdiag, Hnew. subst pk''.
      unfold pairwise_into. simpl.
      destruct (Hcross (seq_at slist i) (seq_at slist j)) as [skm' Hskm'];
        [apply seq_at_elem; lia|apply seq_at_elem; lia|].
      rewrite (call_pairwise_engine_value _ _ _ _ _ _ skm');
        [|lia|apply Hne; lia|apply Hne; lia|done].
      simpl.
      rewrite (get_set_row _ _ _ _ lsl) by (done || lia).
      unfold Q, E. simpl. split; [done|].
      split; [eexists; split; [|done]; lia|].
      split; [by rewrite !length_set|]. split.
      * intros i' Hi'. destruct (Hrows'' i' Hi') as (Hr & Hg & Hgs).
        split; [by do 2 apply has_row_set|]. split.
        -- by rewrite !get_set_ne by (intros [=]; lia).
        -- intros j' Hj'. rewrite !get_set_ne by (intros [=]; lia). by apply Hgs.
      * split; [by do 2 apply has_row_set|]. split.
        -- by rewrite !get_set_ne by (intros [=]; lia).
        -- intros j' Hj'. destruct (decide (j' = j)) as [->|Hnej].
           ++ split.
              ** rewrite get_set_ne by (intros [=]; lia).
                 apply (get_set_row _ _ _ _ lsl); [done|lia].
              ** destruct (Hrows'' j) as (Hrj & _); [lia|].
                 apply (get_set_row _ _ _ _ lsl); [by apply has_row_set|lia].
           ++ rewrite !get_set_ne by (intros [=]; lia). apply Hnew. lia.
    + split; [done|]. split; [done|]. split; [done|].
      intros i' Hi'. destruct (decide (i' = i)) as [->|Hnei].
      * split; [done|]. split; [done|]. done.
      * apply Hrows'. lia.
  - split; [done|]. split; [done|]. split; [done|]. split.
    + intros i s Hs.
      assert (i < lsl) as Hi by (by eapply lookup_lt_Some).
      destruct (Hrows i Hi) as (Hr & Hg & _). split; [done|].
      rewrite Hg. unfold sval. by rewrite (seq_at_lookup _ _ _ Hs).
    + intros i j s t Hji Hs Ht.
      assert (i < lsl) as Hi by (by eapply lookup_lt_Some).
      destruct (Hrows i Hi) as (_ & _ & Hgs).
      destruct (Hgs j Hji) as [-> ->]. unfold pval.
      by rewrite (seq_at_lookup _ _ _ Hs), (seq_at_lookup _ _ _ Ht).
Qed.

(** X11. [operator()(slist,km)] on a non-empty list of non-empty sequences,
    when the ground kernel answers on every sequence and every pair and the
    engine holds the recurrence: it does not throw, [km] is square with one
    row per sequence, whatever it held before; the diagonal entry [km[i][i]]
    is the value the single-sequence operator stores for [slist[i]] on a
    fresh engine, and for [j < i] the entries [km[i][j]] and [km[j][i]] are
    both the value the two-sequence operator stores for
    [(slist[i], slist[j])]: the matrix is symmetric by mirroring. *)
Theorem X11_selfMatrix_values slist D dir w km :
  1 ≤ D -> slist ≠ [] ->
  Forall (fun s => s ≠ []) slist ->
  (forall s, s ∈ slist -> exists skm, sk_self _sk s = inr skm) ->
  (forall s t, s ∈ slist -> t ∈ slist -> exists skm, sk_cross _sk s t = inr skm) ->
  let r := call_selfMatrix _sk slist (engine CHV CD D dir w) km in
  res_exn r = None
  ∧ (exists D', D ≤ D' ∧ res_pk r = engine CHV CD D' dir w)
  ∧ length (res_out r) = length slist
  ∧ (forall i s, slist !! i = Some s ->
       has_row (res_out r) i (length slist)
       ∧ get (res_out r) i i = self_value _sk CHV CD s)
  ∧ (forall i j s t, j < i -> slist !! i = Some s -> slist !! j = Some t ->
       get (res_out r) i j = pairwise_value _sk CHV CD s t
       ∧ get (res_out r) j i = pairwise_value _sk CHV CD s t).
Proof.
  intros HD Hsl Hsne Hself Hcross.
  destruct (call_selfMatrix_engine_values slist D dir w km HD Hsl Hsne Hself Hcross)
    as (Hexn & Heng & Hlen & Hdiag & Hoff).
  split; [exact Hexn|]. split; [exact Heng|]. split; [exact Hlen|].
  split; [exact Hdiag|]. intros i j s t Hji Hs Ht.
  destruct (Hoff i j s t Hji Hs Ht) as [Hij Hji']. by split.
Qed.

(** X12. [operator()(slist,kv)] on a list of non-empty sequences, when the
    ground kernel answers on each and the engine holds the recurrence: it
    does not throw, [kv] has one entry per sequence, whatever it held
    before, and [kv[i]] is the value the single-sequence operator stores for
    [slist[i]] on a fresh engine. *)
Theorem X12_selfVector_values slist D dir w (kv : list T) :
  1 ≤ D ->
  Forall (fun s => s ≠ []) slist ->
  (forall s, s ∈ slist -> exists skm, sk_self _sk s = inr skm) ->
  let r := call_selfVector _sk slist (engine CHV CD D dir w) kv in
  res_exn r = None
  ∧ (exists D', D ≤ D' ∧ res_pk r = engine CHV CD D' dir w)
  ∧ length (res_out r) = length slist
  ∧ forall i s, slist !! i = Some s -> res_out r !! i = Some (self_value _sk CHV CD s).
Proof.
  intros HD Hsne Hself. simpl.
  set (lsl := length slist).
  set (sval := fun i => self_value _sk CHV CD (seq_at slist i)).
  pose (E := fun pk : PathKernel T => exists D', D ≤ D' ∧ pk = engine CHV CD D' dir w).
  pose (P := fun (i : nat) (st : PathKernel T * list T) =>
    E st.1 ∧ length st.2 = lsl ∧ forall i', i' < i -> st.2 !! i' = Some (sval i')).
  unfold call_selfVector. fold lsl. cbn [res_exn res_pk res_out].
  match goal with |- context [for_range_exn 0 lsl ?b ?st] =>
    destruct (for_range_exn_ok P 0 lsl b st) as (Hexn & HE & Hlen & Hcells) end.
  - lia.
  - split; [exists D; by split|]. simpl. split; [by rewrite length_resize|].
    intros i' ?. lia.
  - intros i [pk' kv'] Hi ((D' & HD' & Hpk) & Hlen & Hcells).
    simpl in Hpk, Hlen, Hcells. subst pk'. simpl.
    destruct (Hself (seq_at slist i)) as [skm Hskm]; [apply seq_at_elem; lia|].
    rewrite (call_self_engine_value _ _ _ _ _ skm); [|lia| |done].
    2:{ rewrite Forall_forall in Hsne. apply Hsne, seq_at_elem. lia. }
    unfold P, E. simpl. split; [done|]. split; [eexists; split; [|done]; lia|].
    split; [by rewrite length_insert|].
    intros i' Hi'. destruct (decide (i' = i)) as [->|Hne].
    + rewrite list_lookup_insert_eq by lia. done.
    + rewrite list_lookup_insert_ne by done. apply Hcells. lia.
  - split; [done|]. split; [done|]. split; [done|].
    intros i s Hs.
    assert (i < lsl) as Hi by (by eapply lookup_lt_Some).
    rewrite Hcells by done. unfold sval. by rewrite (seq_at_lookup _ _ _ Hs).
Qed.

End BatchedFacts.

(** ** More on SymKernel *)

Section SymKernelExtras.
Context {T : Type} `{Num T}.
Implicit Types (sk : SymKernel T) (ilist jlist : list nat) (skm km : list (list T)).

Lemma first_exn_None a b (chk : nat -> option Exn) :
  first_exn a b chk = None <-> forall i, a ≤ i < b -> chk i = None.
Proof.
  unfold first_exn. destruct (decide (a ≤ b)) as [Hab|Hab].
  2:{ rewrite for_range_empty by lia. split; [intros _ i ?; lia|done]. }
  pose (P := fun (i : nat) (e : option Exn) =>
    e = None <-> forall i', a ≤ i' < i -> chk i' = None).
  apply (for_range_inv P); [done| |].
  - split; [intros _ i ?; lia|done].
  - intros i e Hi HP. unfold P in *. destruct e as [e|].
    + split; [discriminate|]. intros Hall.
      assert (Some e = None) as Habs; [|discriminate].
      apply HP. intros i' Hi'. apply Hall. lia.
    + destruct HP as [HP _]. specialize (HP eq_refl). split.
      * intros Hchk i' Hi'. destruct (decide (i' = i)) as [->|Hne]; [done|].
        apply HP. lia.
      * intros Hall. apply Hall. lia.
Qed.

Lemma first_exn_Some a b (chk : nat -> option Exn) e :
  first_exn a b chk = Some e -> exists i, a ≤ i < b ∧ chk i = Some e.
Proof.
  unfold first_exn. destruct (decide (a ≤ b)) as [Hab|Hab].
  2:{ by rewrite for_range_empty by lia. }
  pose (P := fun (i : nat) (r : option Exn) =>
    r = Some e -> exists i', a ≤ i' < i ∧ chk i' = Some e).
  apply (for_range_inv P); [done|done|].
  intros i r Hi HP Hr. destruct r as [e'|].
  - destruct (HP Hr) as (i' & Hi' & Hc). exists i'. split; [lia|done].
  - exists i. split; [lia|done].
Qed.

Lemma check_indices_None sk ilist :
  check_indices sk ilist = None <-> Forall (fun ii => ii < _N sk) ilist.
Proof.
  unfold check_indices. rewrite first_exn_None, Forall_lookup. split.
  - intros Hchk i ii Hii.
    assert (i < length ilist) as Hi by (by eapply lookup_lt_Some).
    specialize (Hchk i ltac:(lia)). rewrite Hii in Hchk. simpl in Hchk.
    case_decide; [discriminate|lia].
  - intros Hall i Hi.
    destruct (lookup_lt_is_Some_2 ilist i) as [ii Hii]; [lia|].
    rewrite Hii. simpl. specialize (Hall i ii Hii). simpl in Hall.
    case_decide; [lia|done].
Qed.

Lemma check_indices_Some sk ilist e :
  check_indices sk ilist = Some e -> e = Index_exceeds_maximum.
Proof.
  intros Hc. apply first_exn_Some in Hc as (i & _ & Hc).
  case_decide; congruence.
Qed.

(** X13. The batched forms of [SymKernel] answer exactly on non-empty
    lists of indices below [_N].  On an empty list each of the three throws
    "Empty kernel index vector." (checked first); on non-empty lists with
    some index that is [_N] or more, each throws "Input kernel index exceeds
    maximum value.".  The vector form takes the same decisions as the
    single-list matrix form. *)
Theorem X13_SymKernel_batched_errors sk ilist jlist (kv : list T) :
  ((exists km, SymKernel_cross sk ilist jlist = inr km)
     <-> ilist ≠ [] ∧ jlist ≠ []
         ∧ Forall (fun ii => ii < _N sk) ilist ∧ Forall (fun jj => jj < _N sk) jlist)
  ∧ (ilist = [] ∨ jlist = [] ->
     SymKernel_cross sk ilist jlist = inl Empty_kernel_index_vector)
  ∧ (forall e, SymKernel_cross sk ilist jlist = inl e ->
       e = Empty_kernel_index_vector ∨ e = Index_exceeds_maximum)
  ∧ ((exists km, SymKernel_self sk ilist = inr km)
       <-> ilist ≠ [] ∧ Forall (fun ii => ii < _N sk) ilist)
  ∧ (SymKernel_self sk [] = inl Empty_kernel_index_vector)
  ∧ ((exists kv', SymKernel_diag sk ilist kv = inr kv')
       <-> exists km, SymKernel_self sk ilist = inr km)
  ∧ (ilist ≠ [] -> jlist ≠ [] ->
     ¬ (Forall (fun ii => ii < _N sk) ilist ∧ Forall (fun jj => jj < _N sk) jlist) ->
     SymKernel_cross sk ilist jlist = inl Index_exceeds_maximum)
  ∧ (ilist ≠ [] -> ¬ Forall (fun ii => ii < _N sk) ilist ->
     SymKernel_self sk ilist = inl Index_exceeds_maximum
     ∧ SymKernel_diag sk ilist kv = inl Index_exceeds_maximum)
  ∧ SymKernel_diag sk [] kv = inl Empty_kernel_index_vector.
Proof.
  assert (forall l : list nat, length l = 0 <-> l = []) as Hnil
    by (intros l; apply length_zero_iff_nil).
  split; [|split; [|split; [|split; [|split; [|split; [|split; [|split]]]]]]].
  - unfold SymKernel_cross. case_decide as Hd.
    + split; [by intros [km ?]|]. intros (? & ? & _). rewrite !Hnil in Hd. tauto.
    + rewrite !Hnil in Hd.
      destruct (check_indices sk ilist) as [e|] eqn:Hi.
      { split; [by intros [km ?]|]. intros (_ & _ & Hall & _).
        apply check_indices_None in Hall. congruence. }
      destruct (check_indices sk jlist) as [e|] eqn:Hj.
      { split; [by intros [km ?]|]. intros (_ & _ & _ & Hall).
        apply check_indices_None in Hall. congruence. }
      apply check_indices_None in Hi, Hj. split; [|by eauto].
      intros _. repeat split; (tauto || done).
  - intros He. unfold SymKernel_cross. case_decide as Hd; [done|].
    rewrite !Hnil in Hd. tauto.
  - intros e. unfold SymKernel_cross. case_decide; [intros [= <-]; by left|].
    destruct (check_indices sk ilist) as [e'|] eqn:Hi.
    { intros [= <-]. right. by eapply check_indices_Some. }
    destruct (check_indices sk jlist) as [e'|] eqn:Hj; [|done].
    intros [= <-]. right. by eapply check_indices_Some.
  - unfold SymKernel_self. case_decide as Hd.
    + split; [by intros [km ?]|]. intros (? & _). rewrite Hnil in Hd. tauto.
    + rewrite Hnil in Hd.
      destruct (check_indices sk ilist) as [e|] eqn:Hi.
      { split; [by intros [km ?]|]. intros (_ & Hall).
        apply check_indices_None in Hall. congruence. }
      apply check_indices_None in Hi. split; [|by eauto]. done.
  - reflexivity.
  - unfold SymKernel_diag, SymKernel_self. case_decide.
    + split; by intros [? ?].
    + destruct (check_indices sk ilist); split; intros [? ?]; (done || by eauto).
  - intros Hi Hj Hbad. unfold SymKernel_cross. case_decide as Hd.
    { rewrite !Hnil in Hd. tauto. }
    destruct (check_indices sk ilist) as [e|] eqn:Hci.
    { by rewrite (check_indices_Some _ _ _ Hci). }
    destruct (check_indices sk jlist) as [e|] eqn:Hcj.
    { by rewrite (check_indices_Some _ _ _ Hcj). }
    apply check_indices_None in Hci, Hcj. tauto.
  - intros Hi Hbad. unfold SymKernel_self, SymKernel_diag. cbv zeta.
    case_decide as Hd; [by rewrite Hnil in Hd|].
    destruct (check_indices sk ilist) as [e|] eqn:Hci.
    { by rewrite (check_indices_Some _ _ _ Hci). }
    apply check_indices_None in Hci. tauto.
  - reflexivity.
Qed.

Lemma alter_resize_same n (m : list (list T)) i :
  dims n m -> alter (resize n num0) i m = m.
Proof.
  intros [Hlen Hrows]. apply list_eq. intros r.
  destruct (decide (r = i)) as [->|Hne]; [|by rewrite list_lookup_alter_ne].
  rewrite list_lookup_alter_eq. destruct (m !! i) as [row|] eqn:Hrow; [|done].
  simpl. f_equal. apply resize_all_alt.
  rewrite Forall_lookup in Hrows. symmetry. by eapply Hrows.
Qed.

(** The second half of the constructor: the lower triangle is mirrored
    onto the upper one. *)
Lemma SymKernel_new_fill N skm :
  dims N skm ->
  let m := for_range 0 N (fun i m =>
             let m := alter (resize N num0) i m in
             for_range 0 i (fun j m =>
               let v := get skm i j in set (set m j i v) i j v) m)
             (resize N [] skm) in
  dims N m
  ∧ forall r c, r < N -> c < N -> get m r c = get skm (r `max` c) (r `min` c).
Proof.
  intros Hskm. simpl.
  pose (Q := fun (i j : nat) (m : list (list T)) =>
    dims N m
    ∧ forall r c, r < N -> c < N ->
        get m r c = if decide (r < c ∧ (c < i ∨ (c = i ∧ r < j)))
                    then get skm c r else get skm r c).
  assert (Q N 0 (for_range 0 N (fun i m =>
             let m := alter (resize N num0) i m in
             for_range 0 i (fun j m =>
               let v := get skm i j in set (set m j i v) i j v) m)
             (resize N [] skm))) as [Hd Hc].
  { apply (for_range_inv (fun i m => Q i 0 m)); [lia| |].
    - destruct Hskm as [Hlen Hrows].
      rewrite resize_all_alt by done. split; [done|].
      intros r c _ _. case_decide; [lia|done].
    - intros i m Hi [Hd Hc]. cbv zeta. rewrite alter_resize_same by done.
      assert (Q i i (for_range 0 i (fun j m =>
                let v := get skm i j in set (set m j i v) i j v) m)) as [Hd' Hc'].
      { apply (for_range_inv (fun j m => Q i j m)); [lia|done|].
        intros j m' Hj [Hd' Hc']. split; [by do 2 apply dims_set|].
        intros r c Hr Hcn.
        destruct (decide (r = i ∧ c = j)) as [[-> ->]|Hne1].
        { rewrite (get_set_eq N) by (try apply dims_set; done || lia).
          case_decide; [lia|done]. }
        rewrite (get_set_ne _ i j) by (intros [=]; lia).
        destruct (decide (r = j ∧ c = i)) as [[-> ->]|Hne2].
        { rewrite (get_set_eq N) by (done || lia). case_decide; [done|lia]. }
        rewrite get_set_ne by (intros [=]; lia).
        rewrite Hc' by done. repeat case_decide; (done || lia). }
      split; [done|]. intros r c Hr Hcn. rewrite Hc' by done.
      repeat case_decide; (done || lia). }
  split; [done|]. intros r c Hr Hcn. rewrite Hc by done.
  case_decide.
  - by replace (r `max` c) with c by lia; replace (r `min` c) with r by lia.
  - by replace (r `max` c) with r by lia; replace (r `min` c) with c by lia.
Qed.

Lemma SymKernel_new_checks skm :
  first_exn 0 (length skm) (fun i =>
    if decide (length (default [] (skm !! i)) ≠ length skm) then Some skm_not_square
    else first_exn 0 i (fun j =>
           if nneqb (get skm i j) (get skm j i) then Some skm_not_symmetric
           else None)) = None
  <-> dims (length skm) skm
      ∧ forall i j, j < i < length skm -> nneqb (get skm i j) (get skm j i) = false.
Proof.
  rewrite first_exn_None. split.
  - intros Hchk. split.
    + split; [done|]. apply Forall_lookup. intros i row Hrow.
      assert (i < length skm) as Hi by (by eapply lookup_lt_Some).
      specialize (Hchk i ltac:(lia)). rewrite Hrow in Hchk. simpl in Hchk.
      case_decide as Hlen; [discriminate|].
      destruct (decide (length row = length skm)); [done|contradiction].
    + intros i j Hij. specialize (Hchk i ltac:(lia)).
      case_decide; [discriminate|].
      rewrite first_exn_None in Hchk. specialize (Hchk j ltac:(lia)).
      by destruct (nneqb _ _).
  - intros [[_ Hrows] Hsym] i Hi.
    destruct (lookup_lt_is_Some_2 skm i) as [row Hrow]; [lia|].
    rewrite Hrow. simpl. rewrite Forall_lookup in Hrows.
    rewrite (Hrows i row Hrow). case_decide; [done|].
    apply first_exn_None. intros j Hj. by rewrite Hsym by lia.
Qed.

Lemma SymKernel_new_succeeds skm :
  (exists sk, SymKernel_new skm = inr sk)
  <-> skm ≠ [] ∧ dims (length skm) skm
      ∧ forall i j, j < i < length skm ->
          nneqb (get skm i j) (get skm j i) = false.
Proof.
  unfold SymKernel_new. case_decide as Hd.
  - apply length_zero_iff_nil in Hd. split; [by intros [? ?]|tauto].
  - destruct (first_exn _ _ _) as [e|] eqn:Hchk.
    + split; [by intros [? ?]|]. intros (_ & Hsq & Hsym).
      assert (Some e = None) as Habs; [|discriminate].
      rewrite <- Hchk. by apply SymKernel_new_checks.
    + split; [|by eauto]. intros _.
      apply SymKernel_new_checks in Hchk as [Hsq Hsym].
      split; [|done]. intros ->. simpl in Hd. lia.
Qed.

(** X14. The constructor of [SymKernel] from a matrix: it throws
    "Parameter skm is empty." on the empty matrix; it succeeds exactly when
    the matrix is non-empty, square and equal to its transpose below the
    diagonal (the diagonal is not compared).  The kernel built has [_N] the
    number of rows and a square matrix [_skm] whose entry [(i, j)] is the
    entry of [skm] at [(max i j, min i j)]: the lower triangle of [skm],
    mirrored, so [_skm] is symmetric. *)
Theorem X14_SymKernel_new skm :
  (skm = [] -> SymKernel_new skm = inl skm_is_empty)
  ∧ ((exists sk, SymKernel_new skm = inr sk)
       <-> skm ≠ [] ∧ dims (length skm) skm
           ∧ forall i j, j < i < length skm ->
               nneqb (get skm i j) (get skm j i) = false)
  ∧ (forall sk, SymKernel_new skm = inr sk ->
       _N sk = length skm ∧ 1 ≤ _N sk
       ∧ dims (_N sk) (_skm sk)
       ∧ (forall i j, i < _N sk -> j < _N sk ->
            get (_skm sk) i j = get skm (i `max` j) (i `min` j))
       ∧ (forall i j, i < _N sk -> j < _N sk ->
            get (_skm sk) i j = get (_skm sk) j i)).
Proof.
  split; [by intros ->|]. split; [apply SymKernel_new_succeeds|].
  intros sk. unfold SymKernel_new. case_decide as Hd; [discriminate|].
    destruct (first_exn _ _ _) as [e|] eqn:Hchk; [discriminate|].
    apply SymKernel_new_checks in Hchk as [Hsq Hsym].
    intros [= <-]. simpl.
    destruct (SymKernel_new_fill (length skm) skm Hsq) as [Hdm Hcells].
    split; [done|]. split; [lia|]. split; [done|]. split; [done|].
    intros i j Hi Hj. rewrite !Hcells by done.
    by rewrite Nat.max_comm, Nat.min_comm.
Qed.

(** X15. [SymKernel(N)] throws "Parameter N is not positive." for [N = 0];
    otherwise it builds the [N] by [N] identity: 1 on the diagonal, 0
    elsewhere. *)
Theorem X15_SymKernel_id (N : nat) :
  (N = 0 -> @SymKernel_id T _ N = inl N_not_positive)
  ∧ (1 ≤ N ->
     exists sk, SymKernel_id N = inr sk
       ∧ _N sk = N ∧ dims N (_skm sk)
       ∧ forall i j, i < N -> j < N ->
           get (_skm sk) i j = if decide (i = j) then num1 else num0).
Proof.
  split; [by intros ->|]. intros HN. unfold SymKernel_id.
  case_decide; [lia|]. eexists. split; [done|]. simpl. split; [done|].
  pose (P := fun (i : nat) (m : list (list T)) =>
    length m = N
    ∧ (forall r, i ≤ r -> r < N -> m !! r = Some [])
    ∧ forall r, r < i -> has_row m r N
        ∧ forall c, c < N -> get m r c = if decide (r = c) then num1 else num0).
  match goal with |- context [for_range 0 N ?b ?st] =>
    assert (P N (for_range 0 N b st)) as (Hlen & _ & Hrows) end.
  { apply (for_range_inv P); [lia| |].
    - rewrite resize_nil. split; [by rewrite length_replicate|]. split.
      + intros r _ Hr. by apply lookup_replicate_2.
      + intros r ?. lia.
    - intros i m Hi (Hlen & Hnew & Hold). split.
      { by rewrite length_set, length_alter. }
      split.
      + intros r Hr HrN. unfold set.
        rewrite !list_lookup_alter_ne by lia. apply Hnew; lia.
      + intros r Hr. destruct (decide (r = i)) as [->|Hne].
        * assert (has_row (alter (resize N num0) i m) i N) as Hrow
            by (apply has_row_resize; lia).
          split; [by apply has_row_set|]. intros c Hc.
          case_decide as Hic.
          -- subst c. by apply (get_set_row _ _ _ _ N).
          -- rewrite get_set_ne by (intros [=]; lia).
             unfold get. rewrite list_lookup_alter_eq, (Hnew i) by lia. simpl.
             rewrite resize_nil, lookup_replicate_2 by done. done.
        * destruct (Hold r) as [Hrow Hcells]; [lia|]. split.
          -- apply has_row_set. by apply has_row_alter_ne.
          -- intros c Hc. rewrite get_set_ne by (intros [=]; lia).
             rewrite get_alter_ne by lia. by apply Hcells. }
  split.
  - split; [done|]. apply Forall_lookup. intros r row Hrow.
    assert (r < N) as Hr by (rewrite <- Hlen; by eapply lookup_lt_Some).
    destruct (Hrows r Hr) as [(row' & Hrow' & Hl) _]. congruence.
  - intros i j Hi Hj. by apply Hrows.
Qed.

Lemma dims_of_rows n km :
  length km = n -> (forall i, i < n -> has_row km i n) -> dims n km.
Proof.
  intros Hlen Hrows. split; [done|]. apply Forall_lookup. intros i row Hrow.
  assert (i < n) as Hi by (rewrite <- Hlen; by eapply lookup_lt_Some).
  destruct (Hrows i Hi) as (row' & Hrow' & Hl). congruence.
Qed.

Lemma SymKernel_cross_rows sk ilist jlist km :
  SymKernel_cross sk ilist jlist = inr km ->
  forall i, i < length ilist -> has_row km i (length jlist).
Proof.
  unfold SymKernel_cross. case_decide; [discriminate|].
  destruct (check_indices sk ilist); [discriminate|].
  destruct (check_indices sk jlist); [discriminate|].
  intros [= <-].
  set (lil := length ilist). set (ljl := length jlist).
  pose (P := fun (i : nat) (km : list (list T)) =>
    length km = lil ∧ forall r, r < i -> has_row km r ljl).
  match goal with |- context [for_range 0 lil ?b ?st] =>
    assert (P lil (for_range 0 lil b st)) as [_ Hrows] end; [|done].
  apply (for_range_inv P); [lia| |].
  - split; [by rewrite length_resize|]. intros r ?. lia.
  - intros i km' Hi [Hlen Hrows]. cbv zeta.
    apply for_range_keeps.
    + split; [by rewrite length_alter|]. intros r Hr.
      destruct (decide (r = i)) as [->|Hne]; [apply has_row_resize; lia|].
      apply has_row_alter_ne; [done|]. apply Hrows. lia.
    + intros j s _ [Hl Hr]. split; [by rewrite length_set|].
      intros r Hri. by apply has_row_set, Hr.
Qed.

(** What the single-list matrix form answers. *)
Lemma SymKernel_self_value sk ilist km :
  SymKernel_self sk ilist = inr km ->
  dims (length ilist) km
  ∧ forall r c, r < length ilist -> c < length ilist ->
      get km r c = get (_skm sk) (default 0 (ilist !! (r `max` c)))
                                 (default 0 (ilist !! (r `min` c))).
Proof.
  unfold SymKernel_self. case_decide; [discriminate|].
  destruct (check_indices sk ilist); [discriminate|].
  intros [= <-].
  set (lil := length ilist).
  set (F := fun r c => get (_skm sk) (default 0 (ilist !! (r `max` c)))
                                      (default 0 (ilist !! (r `min` c)))).
  pose (Q := fun (i j : nat) (km : list (list T)) =>
    length km = lil
    ∧ (forall r, r < i ∨ (r = i ∧ 0 < j) -> has_row km r lil)
    ∧ (forall r c, r < i -> c < i -> get km r c = F r c)
    ∧ (0 < j -> has_row km i lil ∧ get km i i = F i i
               ∧ forall c, c + 1 < j -> get km i c = F i c ∧ get km c i = F i c)).
  match goal with |- context [for_range 0 lil ?b ?st] =>
    assert (Q lil 0 (for_range 0 lil b st)) as (Hlen & Hrows & Hcells & _) end.
  { apply (for_range_inv (fun i km => Q i 0 km)); [lia| |].
    - split; [by rewrite length_resize|]. split; [intros r ?; lia|].
      split; [intros r c ?; lia|]. intros ?. lia.
    - intros i km' Hi (Hlen & Hrows & Hcells & _). cbv zeta.
      match goal with |- context [for_range 0 i ?b ?st] =>
        assert (Q i (S i) (for_range 0 i b st)) as (Hlen' & Hrows' & Hcells' & Hnew) end.
      { apply (for_range_inv (fun j km => Q i (S j) km)); [lia| |].
        - assert (has_row (alter (resize lil num0) i km') i lil) as Hrow
            by (apply has_row_resize; lia).
          split; [by rewrite length_set, length_alter|]. split.
          + intros r [Hr|[-> _]]; [|by apply has_row_set].
            apply has_row_set, has_row_alter_ne; [lia|]. apply Hrows. lia.
          + split.
            * intros r c Hr Hc. rewrite get_set_ne by (intros [=]; lia).
              rewrite get_alter_ne by lia. by apply Hcells.
            * intros _. split; [by apply has_row_set|]. split.
              -- rewrite (get_set_row _ _ _ _ lil) by (done || lia).
                 unfold F. by rewrite Nat.max_id, Nat.min_id.
              -- intros c ?. lia.
        - intros j km'' Hj (Hl & Hr & Hc & Hn).
          destruct Hn as (Hrowi & Hdiag & Hn); [lia|].
          assert (has_row km'' j lil) as Hrowj by (apply Hr; lia).
          split; [by rewrite !length_set|]. split.
          + intros r Hrr. do 2 apply has_row_set. apply Hr. lia.
          + split.
            * intros r c Hrr Hcc. rewrite !get_set_ne by (intros [=]; lia).
              by apply Hc.
            * intros _. split; [by do 2 apply has_row_set|]. split.
              -- by rewrite !get_set_ne by (intros [=]; lia).
              -- intros c Hcj. destruct (decide (c = j)) as [->|Hne].
                 ++ split.
                    ** rewrite (get_set_row _ _ _ _ lil);
                         [|by apply has_row_set|lia].
                       unfold F.
                       by replace (i `max` j) with i by lia;
                          replace (i `min` j) with j by lia.
                    ** rewrite get_set_ne by (intros [=]; lia).
                       rewrite (get_set_row _ _ _ _ lil) by (done || lia).
                       unfold F.
                       by replace (i `max` j) with i by lia;
                          replace (i `min` j) with j by lia.
                 ++ rewrite !get_set_ne by (intros [=]; lia). apply Hn. lia. }
      destruct Hnew as (Hrowi & Hdiag & Hn); [lia|].
      split; [done|]. split.
      + intros r [Hr|[_ ?]]; [|lia]. apply Hrows'.
        destruct (decide (r = i)) as [->|?]; [right; split; [done|lia]|left; lia].
      + split; [|intros ?; lia]. intros r c Hr Hc.
        destruct (decide (r = i)) as [->|Hnr].
        * destruct (decide (c = i)) as [->|Hnc]; [done|].
          destruct (Hn c) as [Hg _]; [lia|]. done.
        * destruct (decide (c = i)) as [->|Hnc].
          -- destruct (Hn r) as [_ Hg]; [lia|]. rewrite Hg. unfold F.
             by rewrite Nat.max_comm, Nat.min_comm.
          -- apply Hcells'; lia. }
  split.
  - apply dims_of_rows; [done|]. intros i Hi. apply Hrows. by left.
  - intros r c Hr Hc. by apply Hcells.
Qed.

(** X16. On a kernel whose matrix [_skm] is symmetric, as every kernel the
    two constructors build is, the single-list matrix form answers exactly
    what the two-list form answers on the list taken twice: the same matrix,
    or the same exception. *)
Theorem X16_SymKernel_self_is_cross sk ilist :
  (forall a b, a < _N sk -> b < _N sk -> get (_skm sk) a b = get (_skm sk) b a) ->
  SymKernel_self sk ilist = SymKernel_cross sk ilist ilist.
Proof.
  intros Hsym.
  destruct (SymKernel_self sk ilist) as [e|km] eqn:Hself.
  - revert Hself. unfold SymKernel_self, SymKernel_cross.
    case_decide as Hd.
    + intros [= <-]. case_decide; [done|tauto].
    + case_decide; [tauto|].
      destruct (check_indices sk ilist); [by intros [= <-]|discriminate].
  - destruct (SymKernel_cross sk ilist ilist) as [e|km'] eqn:Hcross.
    + revert Hself Hcross. unfold SymKernel_self, SymKernel_cross.
      case_decide as Hd; [discriminate|]. case_decide; [tauto|].
      destruct (check_indices sk ilist); discriminate.
    + f_equal.
      destruct (SymKernel_self_value _ _ _ Hself) as [Hd Hc].
      destruct (SymKernel_cross_value _ _ _ _ Hcross) as [Hlen' Hc'].
      assert (Forall (fun ii => ii < _N sk) ilist) as Hall.
      { apply check_indices_None. revert Hself. unfold SymKernel_self.
        case_decide; [discriminate|].
        by destruct (check_indices sk ilist). }
      apply (matrix_ext (length ilist)); [done| |].
      { apply dims_of_rows; [done|]. by apply (SymKernel_cross_rows sk ilist ilist). }
      intros r c Hr Hcn. rewrite Hc, Hc' by done.
      destruct (decide (c ≤ r)).
      * by replace (r `max` c) with r by lia; replace (r `min` c) with c by lia.
      * replace (r `max` c) with c by lia. replace (r `min` c) with r by lia.
        rewrite Forall_lookup in Hall.
        destruct (lookup_lt_is_Some_2 ilist r) as [a Ha]; [lia|].
        destruct (lookup_lt_is_Some_2 ilist c) as [b Hb]; [lia|].
        rewrite Ha, Hb. simpl. apply Hsym; [by eapply Hall|by eapply Hall].
Qed.

End SymKernelExtras.

(** ** The checks of ktools *)

Section ReturnLoopFacts.
Context {R : Type}.
Implicit Types (body : nat -> option R).

Lemma for_return_None a b body :
  for_return a b body = None <-> forall i, a ≤ i < b -> body i = None.
Proof.
  unfold for_return. destruct (decide (a ≤ b)) as [Hab|Hab].
  2:{ rewrite for_range_empty by lia. split; [intros _ i ?; lia|done]. }
  pose (P := fun (i : nat) (r : option R) =>
    r = None <-> forall i', a ≤ i' < i -> body i' = None).
  apply (for_range_inv P); [done| |].
  - split; [intros _ i ?; lia|done].
  - intros i r Hi HP. unfold P in *. destruct r as [r|].
    + split; [discriminate|]. intros Hall.
      assert (Some r = None) as Habs; [|discriminate].
      apply HP. intros i' Hi'. apply Hall. lia.
    + destruct HP as [HP _]. specialize (HP eq_refl). split.
      * intros Hb i' Hi'. destruct (decide (i' = i)) as [->|Hne]; [done|].
        apply HP. lia.
      * intros Hall. apply Hall. lia.
Qed.

Lemma for_return_Some a b body r :
  for_return a b body = Some r -> exists i, a ≤ i < b ∧ body i = Some r.
Proof.
  unfold for_return. destruct (decide (a ≤ b)) as [Hab|Hab].
  2:{ by rewrite for_range_empty by lia. }
  pose (P := fun (i : nat) (x : option R) =>
    x = Some r -> exists i', a ≤ i' < i ∧ body i' = Some r).
  apply (for_range_inv P); [done|done|].
  intros i x Hi HP Hx. destruct x as [x|].
  - destruct (HP Hx) as (i' & Hi' & Hb). exists i'. split; [lia|done].
  - exists i. split; [lia|done].
Qed.

End ReturnLoopFacts.

Section KToolsChecks.
Context {T : Type} `{Num T} `{NumMore T}.
Implicit Types (m dm km : list (list T)).

(** A check loop that can only [return false]. *)
Lemma check_loop_true (r : option bool) :
  (forall b, r = Some b -> b = false) ->
  match r with Some b => b | None => true end = true <-> r = None.
Proof.
  intros Hr. destruct r as [b|]; [|done].
  rewrite (Hr b eq_refl). split; discriminate.
Qed.

Lemma isSquare_true m : isSquare m = true <-> dims (length m) m.
Proof.
  unfold isSquare. rewrite check_loop_true.
  2:{ intros b Hb. apply for_return_Some in Hb as (i & _ & Hb).
      case_decide; congruence. }
  rewrite for_return_None. split.
  - intros Hchk. split; [done|]. apply Forall_lookup. intros i row Hrow.
    assert (i < length m) as Hi by (by eapply lookup_lt_Some).
    specialize (Hchk i ltac:(lia)). unfold row_at in Hchk.
    rewrite Hrow in Hchk. simpl in Hchk.
    case_decide as Hlen; [discriminate|].
    destruct (decide (length row = length m)); [done|contradiction].
  - intros [_ Hrows] i Hi.
    destruct (lookup_lt_is_Some_2 m i) as [row Hrow]; [lia|].
    unfold row_at. rewrite Hrow. simpl. rewrite Forall_lookup in Hrows.
    rewrite (Hrows i row Hrow). by case_decide.
Qed.

Lemma isSymmetric_true m :
  isSymmetric m = true
  <-> dims (length m) m
      ∧ forall i j, j < i < length m -> nneqb (get m i j) (get m j i) = false.
Proof.
  unfold isSymmetric. destruct (isSquare m) eqn:Hsq; simpl.
  2:{ split; [discriminate|]. intros [Hd _]. apply isSquare_true in Hd. congruence. }
  apply isSquare_true in Hsq.
  rewrite check_loop_true.
  2:{ intros b Hb. apply for_return_Some in Hb as (i & _ & Hb).
      apply for_return_Some in Hb as (j & _ & Hb).
      destruct (nneqb _ _); congruence. }
  rewrite for_return_None. split.
  - intros Hchk. split; [done|]. intros i j Hij.
    specialize (Hchk i ltac:(lia)). rewrite for_return_None in Hchk.
    specialize (Hchk j ltac:(lia)). by destruct (nneqb _ _).
  - intros [_ Hsym] i Hi. apply for_return_None. intros j Hj.
    by rewrite Hsym by lia.
Qed.

(** X17. [isSquare] answers true exactly on the matrices all of whose
    rows are as long as the matrix has rows (the empty matrix among them);
    [isSymmetric] answers true exactly on the square matrices whose entries
    below the diagonal equal, for [!=], their mirror images.  The diagonal
    is not compared.  The matrices the constructor of [SymKernel] accepts
    are the non-empty ones [isSymmetric] accepts. *)
Theorem X17_isSquare_isSymmetric m :
  (isSquare m = true <-> dims (length m) m)
  ∧ (isSymmetric m = true
     <-> dims (length m) m
         ∧ forall i j, j < i < length m -> nneqb (get m i j) (get m j i) = false)
  ∧ ((exists sk, SymKernel_new m = inr sk) <-> m ≠ [] ∧ isSymmetric m = true).
Proof.
  split; [apply isSquare_true|]. split; [apply isSymmetric_true|].
  rewrite SymKernel_new_succeeds, isSymmetric_true. tauto.
Qed.

(** X18. [respectsTriangleInequality] answers true exactly on the matrices
    [isSymmetric] accepts in which no entry [dm[i][j]] is greater than
    [dm[i][k] + dm[k][j]], for all [i, j, k]; [respectsCauchySchwarz]
    answers true exactly on the matrices [isSymmetric] accepts in which, for
    [j < i], [km[i][j] * km[i][j]] is not greater than
    [km[i][i] * km[j][j]]. *)
Theorem X18_triangle_and_CauchySchwarz m :
  (respectsTriangleInequality m = true
   <-> isSymmetric m = true
       ∧ forall i j k, i < length m -> j < length m -> k < length m ->
           ngtb (get m i j) (nadd (get m i k) (get m k j)) = false)
  ∧ (respectsCauchySchwarz m = true
     <-> isSymmetric m = true
         ∧ forall i j, j < i < length m ->
             ngtb (nmul (get m i j) (get m i j)) (nmul (get m i i) (get m j j))
             = false).
Proof.
  split.
  - unfold respectsTriangleInequality. destruct (isSymmetric m); simpl.
    2:{ split; [discriminate|]. by intros [? _]. }
    rewrite check_loop_true.
    2:{ intros b Hb. apply for_return_Some in Hb as (i & _ & Hb).
        apply for_return_Some in Hb as (j & _ & Hb).
        apply for_return_Some in Hb as (k & _ & Hb).
        destruct (ngtb _ _); congruence. }
    rewrite for_return_None. split.
    + intros Hchk. split; [done|]. intros i j k Hi Hj Hk.
      specialize (Hchk i ltac:(lia)). rewrite for_return_None in Hchk.
      specialize (Hchk j ltac:(lia)). rewrite for_return_None in Hchk.
      specialize (Hchk k ltac:(lia)). by destruct (ngtb _ _).
    + intros [_ Hall] i Hi. apply for_return_None. intros j Hj.
      apply for_return_None. intros k Hk. by rewrite Hall by lia.
  - unfold respectsCauchySchwarz. destruct (isSymmetric m); simpl.
    2:{ split; [discriminate|]. by intros [? _]. }
    rewrite check_loop_true.
    2:{ intros b Hb. apply for_return_Some in Hb as (i & _ & Hb).
        apply for_return_Some in Hb as (j & _ & Hb).
        destruct (ngtb _ _); congruence. }
    rewrite for_return_None. split.
    + intros Hchk. split; [done|]. intros i j Hij.
      specialize (Hchk i ltac:(lia)). rewrite for_return_None in Hchk.
      specialize (Hchk j ltac:(lia)). by destruct (ngtb _ _).
    + intros [_ Hall] i Hi. apply for_return_None. intros j Hj.
      by rewrite Hall by lia.
Qed.

End KToolsChecks.

(** ** The transformations of ktools *)

Section KToolsTransforms.
Context {T : Type} `{Num T} `{NumMore T}.
Implicit Types (m dm km : list (list T)).

(** A sweep over the pairs [j < i] that writes, for each pair, a value
    computed from entries not yet written, at [(i, j)] and [(j, i)]. *)
Lemma sweep_spec N dm (body : nat -> nat -> list (list T) -> list (list T))
    (val : nat -> nat -> option T) :
  dims N dm ->
  (forall i j m, j < i < N -> dims N m ->
     (forall r c, r < N -> c < N -> ¬ swept i j r c -> get m r c = get dm r c) ->
     dims N (body i j m)
     ∧ forall r c, r < N -> c < N ->
         get (body i j m) r c =
           if decide ((r = i ∧ c = j) ∨ (r = j ∧ c = i))
           then default (get m r c) (val i j) else get m r c) ->
  let out := for_range 0 N (fun i => for_range 0 i (fun j => body i j)) dm in
  dims N out
  ∧ forall r c, r < N -> c < N ->
      get out r c =
        if decide (r = c) then get dm r c
        else default (get dm r c) (val (r `max` c) (r `min` c)).
Proof.
  intros Hdm Hbody. simpl.
  pose (Q := fun (i j : nat) (m : list (list T)) =>
    dims N m
    ∧ forall r c, r < N -> c < N ->
        get m r c = if decide (swept i j r c)
                    then default (get dm r c) (val (r `max` c) (r `min` c))
                    else get dm r c).
  assert (Q N 0 (for_range 0 N (fun i => for_range 0 i (fun j => body i j)) dm))
    as [Hd Hc].
  { apply (for_range_inv (fun i m => Q i 0 m)); [lia| |].
    - split; [done|]. intros r c _ _. case_decide as Hs; [|done].
      unfold swept in Hs. lia.
    - intros i m Hi HQ.
      assert (Q i i (for_range 0 i (fun j => body i j) m)) as [Hd' Hc'].
      { apply (for_range_inv (fun j m => Q i j m)); [lia|done|].
        intros j m' Hj [Hd' Hc'].
        destruct (Hbody i j m') as [Hd'' Hc'']; [lia|done| |].
        { intros r c Hr Hcn Hns. rewrite Hc' by done. by case_decide. }
        split; [done|]. intros r c Hr Hcn. rewrite Hc'' by done.
        rewrite Hc' by done.
        case_decide as Hrc.
        - assert (r `max` c = i) as Hmax by lia.
          assert (r `min` c = j) as Hmin by lia.
          case_decide as Hs1; [unfold swept in Hs1; lia|].
          case_decide as Hs2; [|exfalso; apply Hs2; unfold swept; lia].
          by rewrite Hmax, Hmin.
        - repeat case_decide; try done; unfold swept in *; lia. }
      split; [done|]. intros r c Hr Hcn. rewrite Hc' by done.
      repeat case_decide; try done; unfold swept in *; lia. }
  split; [done|]. intros r c Hr Hcn. rewrite Hc by done.
  repeat case_decide; try done; unfold swept in *; lia.
Qed.

Lemma length_sweep N dm (body : nat -> nat -> list (list T) -> list (list T)) :
  (forall i j m, length (body i j m) = length m) ->
  length (for_range 0 N (fun i => for_range 0 i (fun j => body i j)) dm) = length dm.
Proof.
  intros Hbody. apply (for_range_keeps (fun m => length m = length dm)); [done|].
  intros i m _ Hm. apply (for_range_keeps (fun m => length m = length dm)); [done|].
  intros j m' _ Hm'. by rewrite Hbody.
Qed.

Lemma kern2dist_cells dm (N : nat) :
  dims N dm ->
  dims N (kern2dist dm)
  ∧ forall r c, r < N -> c < N ->
      get (kern2dist dm) r c =
        if decide (r = c) then num0
        else dist_value dm (r `max` c) (r `min` c).
Proof.
  intros Hdm.
  assert (length dm = N) as HN by (by destruct Hdm).
  set (body := fun i j (dm' : list (list T)) =>
    let v := nsqrt (nsub (nsub (nadd (get dm' i i) (get dm' j j))
                               (get dm' i j)) (get dm' j i)) in
    set (set dm' j i v) i j v).
  destruct (sweep_spec N dm body (fun i j => Some (dist_value dm i j)) Hdm)
    as [Hd1 Hc1].
  { intros i j m Hij Hm Hun. split; [by do 2 apply dims_set|].
    intros r c Hr Hc. unfold body. simpl.
    assert (get m i i = get dm i i ∧ get m j j = get dm j j
            ∧ get m i j = get dm i j ∧ get m j i = get dm j i) as (-> & -> & -> & ->).
    { repeat split; apply Hun; try lia; unfold swept; lia. }
    fold (dist_value dm i j).
    case_decide as Hrc.
    - destruct Hrc as [[-> ->]|[-> ->]].
      + by rewrite (get_set_eq N) by (try apply dims_set; done || lia).
      + rewrite get_set_ne by (intros [=]; lia).
        by rewrite (get_set_eq N) by (done || lia).
    - by rewrite !get_set_ne by (intros [=]; lia). }
  assert (forall r c, r < N -> c < N ->
    get (kern2dist dm) r c =
      if decide (r = c) then num0 else dist_value dm (r `max` c) (r `min` c)
    ) as Hcells.
  { unfold kern2dist. cbv zeta. rewrite length_sweep, HN.
    2:{ intros i j m. by rewrite !length_set. }
    fold body. set (m1 := for_range 0 N _ dm) in *.
    pose (P := fun (i : nat) (m : list (list T)) =>
      dims N m
      ∧ forall r c, r < N -> c < N ->
          get m r c = if decide (r = c ∧ r < i) then num0 else get m1 r c).
    assert (P N (for_range 0 N (fun i dm => set dm i i num0) m1)) as [_ Hc2].
    { apply (for_range_inv P); [lia| |].
      - split; [done|]. intros r c _ _. case_decide; [lia|done].
      - intros i m Hi [Hd Hc]. split; [by apply dims_set|].
        intros r c Hr Hcn. destruct (decide (r = i ∧ c = i)) as [[-> ->]|Hne].
        + rewrite (get_set_eq N) by (done || lia). case_decide; [done|lia].
        + rewrite get_set_ne by (intros [=]; lia). rewrite Hc by done.
          repeat case_decide; (done || lia). }
    intros r c Hr Hcn. rewrite Hc2 by done. rewrite Hc1 by done.
    repeat case_decide; (done || lia). }
  split; [|done].
  unfold kern2dist. cbv zeta. rewrite length_sweep, HN.
  2:{ intros i j m. by rewrite !length_set. }
  apply for_range_keeps; [exact Hd1|]. intros i m _ Hm. by apply dims_set.
Qed.

(** X19. [kern2dist] on a square matrix: the result is square of the same
    size, its diagonal is zero, and for [j < i] both [(i, j)] and [(j, i)]
    hold [sqrt(dm[i][i] + dm[j][j] - dm[i][j] - dm[j][i])], computed from
    the entries of the matrix given, although the matrix is transformed in
    place; so the result is symmetric, whether or not the input was. *)
Theorem X19_kern2dist dm (N : nat) :
  dims N dm ->
  dims N (kern2dist dm)
  ∧ (forall r c, r < N -> c < N ->
       get (kern2dist dm) r c =
         if decide (r = c) then num0
         else dist_value dm (r `max` c) (r `min` c))
  ∧ (forall r c, r < N -> c < N -> get (kern2dist dm) r c = get (kern2dist dm) c r).
Proof.
  intros Hdm. destruct (kern2dist_cells dm N Hdm) as [Hd Hcells].
  split; [exact Hd|]. split; [exact Hcells|].
  intros r c Hr Hc. rewrite !Hcells by done.
  repeat case_decide; try done; try lia.
  by rewrite Nat.max_comm, Nat.min_comm.
Qed.

(** The first loop of [kern2norm], and the first loop of the matrix form
    of [NormKernel], which assigns the two cells in the other order. *)
Lemma norm_sweep_spec N nkm (body : nat -> nat -> list (list T) -> list (list T)) :
  dims N nkm ->
  (forall i j m, body i j m =
     if nneqb (get m i j) num0 then
       let m' := set m i j
         (ndiv (get m i j) (nsqrt (nmul (get m i i) (get m j j)))) in
       set m' j i (get m' i j)
     else m)
  ∨ (forall i j m, body i j m =
       if nneqb (get m i j) num0 then
         let v := ndiv (get m i j) (nsqrt (nmul (get m i i) (get m j j))) in
         set (set m j i v) i j v
       else m) ->
  let out := for_range 0 N (fun i => for_range 0 i (fun j => body i j)) nkm in
  dims N out
  ∧ forall r c, r < N -> c < N ->
      get out r c =
        if decide (r = c) then get nkm r c
        else default (get nkm r c) (norm_value nkm (r `max` c) (r `min` c)).
Proof.
  intros Hd Hbody. apply (sweep_spec N nkm body (norm_value nkm) Hd).
  intros i j m Hij Hm Hun.
  assert (get m i i = get nkm i i ∧ get m j j = get nkm j j
          ∧ get m i j = get nkm i j) as (Hii & Hjj & Hij').
  { repeat split; apply Hun; try lia; unfold swept; lia. }
  assert (body i j m = if nneqb (get nkm i j) num0 then
            let v := ndiv (get nkm i j) (nsqrt (nmul (get nkm i i) (get nkm j j))) in
            set (set m j i v) i j v
          else m) as ->.
  { destruct Hbody as [Hb|Hb]; rewrite Hb, Hii, Hjj, Hij';
      destruct (nneqb (get nkm i j) num0); try done. cbv zeta.
    rewrite (get_set_eq N) by (done || lia).
    apply (matrix_ext N); [by do 2 apply dims_set|by do 2 apply dims_set|].
    intros r c Hr Hc.
    destruct (decide (r = i ∧ c = j)) as [[-> ->]|Hne1].
    { rewrite get_set_ne by (intros [=]; lia).
      by rewrite !(get_set_eq N) by (try apply dims_set; done || lia). }
    destruct (decide (r = j ∧ c = i)) as [[-> ->]|Hne2].
    { rewrite (get_set_eq N) by (try apply dims_set; done || lia).
      rewrite get_set_ne by (intros [=]; lia).
      by rewrite (get_set_eq N) by (done || lia). }
    by rewrite !get_set_ne by (intros [=]; lia). }
  unfold norm_value. destruct (nneqb (get nkm i j) num0); cbv zeta.
  - split; [by do 2 apply dims_set|]. intros r c Hr Hc. simpl.
    case_decide as Hrc.
    + destruct Hrc as [[-> ->]|[-> ->]].
      * by rewrite (get_set_eq N) by (try apply dims_set; done || lia).
      * rewrite get_set_ne by (intros [=]; lia).
        by rewrite (get_set_eq N) by (done || lia).
    + by rewrite !get_set_ne by (intros [=]; lia).
  - split; [done|]. intros r c Hr Hc. simpl. by case_decide.
Qed.

Lemma norm_sweep_length N nkm (body : nat -> nat -> list (list T) -> list (list T)) :
  (forall i j m, length (body i j m) = length m) ->
  length (for_range 0 N (fun i => for_range 0 i (fun j => body i j)) nkm)
  = length nkm.
Proof. apply length_sweep. Qed.

(** X20. [kern2norm] on a square matrix: the result is square of the same
    size; a diagonal entry becomes 1 unless it is zero; for [j < i], when
    [nkm[i][j]] is not zero both [(i, j)] and [(j, i)] become
    [nkm[i][j] / sqrt(nkm[i][i] * nkm[j][j])], computed from the entries of
    the matrix given, and when [nkm[i][j]] is zero neither of the two cells
    changes. *)
Theorem X20_kern2norm nkm (N : nat) :
  dims N nkm ->
  dims N (kern2norm nkm)
  ∧ forall r c, r < N -> c < N ->
      get (kern2norm nkm) r c =
        if decide (r = c)
        then (if nneqb (get nkm r r) num0 then num1 else get nkm r r)
        else default (get nkm r c) (norm_value nkm (r `max` c) (r `min` c)).
Proof.
  intros Hd.
  assert (length nkm = N) as HN by (by destruct Hd).
  pose (body := fun (i j : nat) (m : list (list T)) =>
    if nneqb (get m i j) num0 then
      let m' := set m i j
        (ndiv (get m i j) (nsqrt (nmul (get m i i) (get m j j)))) in
      set m' j i (get m' i j)
    else m).
  pose (diag := fun (i : nat) (m : list (list T)) =>
    if nneqb (get m i i) num0 then set m i i num1 else m).
  change (kern2norm nkm)
    with (let m1 := for_range 0 (length nkm)
                      (fun i => for_range 0 i (fun j => body i j)) nkm in
          for_range 0 (length m1) diag m1).
  cbv zeta. rewrite length_sweep.
  2:{ intros i j m. unfold body. destruct (nneqb _ _); [|done].
      by rewrite !length_set. }
  rewrite HN.
  destruct (norm_sweep_spec N nkm body Hd) as [Hd1 Hc1]; [by left|].
  set (m1 := for_range 0 N _ nkm) in *. unfold diag.
  pose (P := fun (i : nat) (m : list (list T)) =>
    dims N m
    ∧ forall r c, r < N -> c < N ->
        get m r c = if decide (r = c ∧ r < i)
                    then (if nneqb (get m1 r r) num0 then num1 else get m1 r r)
                    else get m1 r c).
  match goal with |- context [for_range 0 N ?b m1] =>
    assert (P N (for_range 0 N b m1)) as [Hd2 Hc2] end.
  { apply (for_range_inv P); [lia| |].
    - split; [done|]. intros r c _ _. case_decide; [lia|done].
    - intros i m Hi [Hdm Hc].
      assert (get m i i = get m1 i i) as Hii.
      { rewrite Hc by lia. case_decide; [lia|done]. }
      rewrite Hii. destruct (nneqb (get m1 i i) num0) eqn:Hnz.
      + split; [by apply dims_set|]. intros r c Hr Hcn.
        destruct (decide (r = i ∧ c = i)) as [[-> ->]|Hne].
        * rewrite (get_set_eq N) by (done || lia). rewrite Hnz.
          case_decide; [done|lia].
        * rewrite get_set_ne by (intros [=]; lia). rewrite Hc by done.
          repeat case_decide; (done || lia).
      + split; [done|]. intros r c Hr Hcn. rewrite Hc by done.
        repeat case_decide; try done; try lia.
        assert (r = i) as -> by lia. assert (c = i) as -> by lia.
        by rewrite Hnz. }
  split; [done|]. intros r c Hr Hc. rewrite Hc2 by done.
  case_decide as Hrc.
  - destruct Hrc as [-> _]. rewrite !Hc1 by done.
    repeat case_decide; (done || lia).
  - rewrite Hc1 by done. repeat case_decide; (done || lia).
Qed.

(** The two loops with which the matrix form of [NormKernel] normalizes,
    on a square matrix of the size of the list, give the matrix [kern2norm]
    gives, although they assign the two mirrored cells in the other order. *)
Lemma NormKernel_normalize_kern2norm km (n : nat) :
  dims n km -> NormKernel_normalize n km = kern2norm km.
Proof.
  intros Hd.
  assert (length km = n) as Hn by (by destruct Hd).
  pose (body2 := fun (i j : nat) (m : list (list T)) =>
    if nneqb (get m i j) num0 then
      let m' := set m i j
        (ndiv (get m i j) (nsqrt (nmul (get m i i) (get m j j)))) in
      set m' j i (get m' i j)
    else m).
  pose (body1 := fun (i j : nat) (m : list (list T)) =>
    if nneqb (get m i j) num0 then
      let v := ndiv (get m i j) (nsqrt (nmul (get m i i) (get m j j))) in
      set (set m j i v) i j v
    else m).
  pose (diag := fun (i : nat) (m : list (list T)) =>
    if nneqb (get m i i) num0 then set m i i num1 else m).
  change (kern2norm km)
    with (let m1 := for_range 0 (length km)
                      (fun i => for_range 0 i (fun j => body2 i j)) km in
          for_range 0 (length m1) diag m1).
  change (NormKernel_normalize n km)
    with (for_range 0 n diag
            (for_range 0 n (fun i => for_range 0 i (fun j => body1 i j)) km)).
  cbv zeta. rewrite length_sweep.
  2:{ intros i j m. unfold body2. destruct (nneqb _ _); [|done].
      by rewrite !length_set. }
  rewrite Hn.
  destruct (norm_sweep_spec n km body1 Hd) as [Hd1 Hc1]; [by right|].
  destruct (norm_sweep_spec n km body2 Hd) as [Hd2 Hc2]; [by left|].
  assert (for_range 0 n (fun i => for_range 0 i (fun j => body1 i j)) km
          = for_range 0 n (fun i => for_range 0 i (fun j => body2 i j)) km) as ->.
  { apply (matrix_ext n); [done|done|].
    intros r c Hr Hc. by rewrite Hc1, Hc2 by done. }
  done.
Qed.

End KToolsTransforms.

(** ** The callers of the single-list matrix form *)

Section SelfMatrixShape.
Context {T : Type} `{Num T} {Sym : Type}.
Variable _sk : GroundKernel T Sym.
Implicit Types (slist : list (list Sym)) (pk : PathKernel T) (km : list (list T)).

(** Whenever [operator()(slist,km)] returns, [km] is square with one row per
    sequence. *)
Lemma call_selfMatrix_dims slist pk km :
  res_exn (call_selfMatrix _sk slist pk km) = None ->
  dims (length slist) (res_out (call_selfMatrix _sk slist pk km)).
Proof.
  unfold call_selfMatrix. cbv zeta. set (lsl := length slist).
  case_decide as Hd; [discriminate|]. cbn [res_exn res_out]. intros Hnone.
  pose (P := fun (i : nat) (st : PathKernel T * list (list T)) =>
    length st.2 = lsl ∧ forall r, r < i -> has_row st.2 r lsl).
  match goal with |- context [for_range_exn 0 lsl ?b ?st] =>
    assert (P lsl (for_range_exn 0 lsl b st).1) as [Hlen Hrows] end.
  { apply for_range_exn_done; [lia|exact Hnone| |].
    - split; [simpl; by rewrite length_resize|]. intros r ?. lia.
    - intros i [pk' km'] Hi [Hlen Hrows] _. simpl in Hlen, Hrows. cbv zeta.
      assert (P (S i) (self_into _sk (seq_at slist i) i
                (pk', alter (resize lsl num0) i km')).1) as HP.
      { unfold P, self_into. simpl. split; [by rewrite length_set, length_alter|].
        intros r Hr. apply has_row_set.
        destruct (decide (r = i)) as [->|Hne]; [apply has_row_resize; lia|].
        apply has_row_alter_ne; [done|]. apply Hrows. lia. }
      destruct (self_into _ _ _ _) as [st2 [e|]]; [exact HP|].
      apply (for_range_exn_inv (P (S i))); [exact HP|].
      intros j x [Hl Hr].
      assert (P (S i) (pairwise_into _sk (seq_at slist i) (seq_at slist j) i j x).1)
        as HP'.
      { unfold P, pairwise_into. simpl. split; [by rewrite length_set|].
        intros r Hri. by apply has_row_set, Hr. }
      destruct (pairwise_into _ _ _ _ _ _) as [st3 [e|]]; [exact HP'|].
      destruct HP' as [Hl' Hr']. simpl in Hl', Hr'. unfold P. simpl.
      split; [by rewrite length_set|].
      intros r Hri. by apply has_row_set, Hr'. }
  by apply dims_of_rows.
Qed.

End SelfMatrixShape.

Section SelfMatrixCallers.
Context {T : Type} `{Num T} `{NumMore T} {Sym : Type}.
Variable _sk : GroundKernel T Sym.
Variables CHV CD : T.
Implicit Types (slist : list (list Sym)) (pk : PathKernel T) (km : list (list T))
  (dir : string) (w : bool).

(** X21. [NormKernel<PathKernel<SK> >::operator()(xlist,km)] and
    [ktools::norm(pk,xlist,km)] are the same operation: on every engine,
    every list and every [km] they leave the same engine and the same
    matrix, or throw the same exception, although the first normalizes with
    loops of its own that assign the mirrored cells in the other order. *)
Theorem X21_NormKernel_is_ktools_norm slist pk km :
  NormKernel_selfMatrix _sk slist pk km = ktools_norm_matrix _sk slist pk km.
Proof.
  unfold NormKernel_selfMatrix, ktools_norm_matrix. cbv zeta.
  destruct (res_exn (call_selfMatrix _sk slist pk km)) as [e|] eqn:He; [done|].
  f_equal. apply NormKernel_normalize_kern2norm.
  by apply call_selfMatrix_dims.
Qed.

(** X22. [ktools::dist(pk,slist,dm)] on a non-empty list of non-empty
    sequences, when the ground kernel answers and the engine holds the
    recurrence: it does not throw, [dm] is square with one row per sequence
    and a zero diagonal, and for [j < i] the entries [dm[i][j]] and
    [dm[j][i]] are both [sqrt(k(s,s) + k(t,t) - k(s,t) - k(s,t))] for
    [s = slist[i]], [t = slist[j]], where [k(s,s)] is what the
    single-sequence operator stores and [k(s,t)] what the two-sequence
    operator stores, on a fresh engine. *)
Theorem X22_ktools_dist_values slist D dir w dm :
  1 ≤ D -> slist ≠ [] ->
  Forall (fun s => s ≠ []) slist ->
  (forall s, s ∈ slist -> exists skm, sk_self _sk s = inr skm) ->
  (forall s t, s ∈ slist -> t ∈ slist -> exists skm, sk_cross _sk s t = inr skm) ->
  let r := ktools_dist_matrix _sk slist (engine CHV CD D dir w) dm in
  res_exn r = None
  ∧ (exists D', D ≤ D' ∧ res_pk r = engine CHV CD D' dir w)
  ∧ dims (length slist) (res_out r)
  ∧ (forall i, i < length slist -> get (res_out r) i i = num0)
  ∧ (forall i j s t, j < i -> slist !! i = Some s -> slist !! j = Some t ->
       let d := nsqrt (nsub (nsub (nadd (self_value _sk CHV CD s)
                                        (self_value _sk CHV CD t))
                                  (pairwise_value _sk CHV CD s t))
                            (pairwise_value _sk CHV CD s t)) in
       get (res_out r) i j = d ∧ get (res_out r) j i = d).
Proof.
  intros HD Hsl Hsne Hself Hcross. cbv zeta.
  destruct (call_selfMatrix_engine_values _sk CHV CD slist D dir w dm
              HD Hsl Hsne Hself Hcross) as (Hexn & Heng & Hlen & Hdiag & Hoff).
  cbv zeta in Hexn, Heng, Hlen, Hdiag, Hoff.
  unfold ktools_dist_matrix. cbv zeta. rewrite Hexn. cbn [res_exn res_pk res_out].
  set (km := res_out (call_selfMatrix _sk slist (engine CHV CD D dir w) dm)) in *.
  assert (dims (length slist) km) as Hd by (by apply call_selfMatrix_dims).
  destruct (kern2dist_cells km (length slist) Hd) as [Hd' Hcells].
  split; [done|]. split; [done|]. split; [done|]. split.
  - intros i Hi. rewrite Hcells by done. by case_decide.
  - intros i j s t Hji Hs Ht.
    assert (i < length slist) as Hi by (by eapply lookup_lt_Some).
    assert (j < length slist) as Hj by (by eapply lookup_lt_Some).
    destruct (Hdiag i s Hs) as [_ Hii]. destruct (Hdiag j t Ht) as [_ Hjj].
    destruct (Hoff i j s t Hji Hs Ht) as [Hij Hji'].
    rewrite !Hcells by done. repeat case_decide; try lia.
    replace (i `max` j) with i by lia. replace (i `min` j) with j by lia.
    replace (j `max` i) with i by lia. replace (j `min` i) with j by lia.
    unfold dist_value. by rewrite Hii, Hjj, Hij, Hji'.
Qed.

End SelfMatrixCallers.

(** ** Where the exceptions of the batched forms come from *)

Section ExceptionProvenance.
Context {T : Type} `{Num T} {Sym : Type}.
Variable _sk : GroundKernel T Sym.
Implicit Types (s t : list Sym) (slist tlist : list (list Sym))
  (pk : PathKernel T) (km : list (list T)) (e : Exn).

Lemma call_pairwise_exn s t pk k e :
  res_exn (call_pairwise _sk s t pk k) = Some e -> sk_cross _sk s t = inl e.
Proof.
  unfold call_pairwise. cbv zeta. case_decide; [discriminate|].
  destruct (sk_cross _sk s t) as [e'|skm]; [|discriminate].
  by intros [= ->].
Qed.

Lemma call_self_exn s pk k e :
  res_exn (call_self _sk s pk k) = Some e -> sk_self _sk s = inl e.
Proof.
  unfold call_self. cbv zeta. case_decide; [discriminate|].
  destruct (sk_self _sk s) as [e'|skm]; [|discriminate].
  by intros [= ->].
Qed.

(** X23. An exception that leaves a batched form of [PathKernel] is either
    its own "Empty sequence vector." on an empty list, or an exception the
    ground kernel threw on sequences of the lists: on one pair
    [(slist[i], tlist[j])] for the two-list form, on one sequence or one pair
    of [slist] for the single-list matrix form, on one sequence for the
    vector form (which has no exception of its own). *)
Theorem X23_batched_exceptions slist tlist pk km (kv : list T) e :
  (res_exn (call_pairwiseMatrix _sk slist tlist pk km) = Some e ->
     (e = Empty_sequence_vector ∧ (slist = [] ∨ tlist = []))
     ∨ exists s t, s ∈ slist ∧ t ∈ tlist ∧ sk_cross _sk s t = inl e)
  ∧ (res_exn (call_selfMatrix _sk slist pk km) = Some e ->
     (e = Empty_sequence_vector ∧ slist = [])
     ∨ (exists s, s ∈ slist ∧ sk_self _sk s = inl e)
     ∨ exists s t, s ∈ slist ∧ t ∈ slist ∧ sk_cross _sk s t = inl e)
  ∧ (res_exn (call_selfVector _sk slist pk kv) = Some e ->
     exists s, s ∈ slist ∧ sk_self _sk s = inl e).
Proof.
  assert (forall l : list (list Sym), length l = 0 <-> l = []) as Hnil
    by (intros l; apply length_zero_iff_nil).
  split; [|split].
  - unfold call_pairwiseMatrix. cbv zeta. case_decide as Hd.
    { intros [= <-]. left. rewrite !Hnil in Hd. by split. }
    cbn [res_exn]. intros He. right.
    apply (for_range_exn_Some (fun _ => True)) in He
      as (i & st & Hi & _ & He); [|done|done].
    cbv zeta in He.
    apply (for_range_exn_Some (fun _ => True)) in He
      as (j & st' & Hj & _ & He); [|done|done].
    unfold pairwise_into in He. simpl in He. apply call_pairwise_exn in He.
    exists (seq_at slist i), (seq_at tlist j).
    split; [apply seq_at_elem; lia|]. split; [apply seq_at_elem; lia|done].
  - unfold call_selfMatrix. cbv zeta. case_decide as Hd.
    { intros [= <-]. left. rewrite Hnil in Hd. by split. }
    cbn [res_exn]. intros He. right.
    apply (for_range_exn_Some (fun _ => True)) in He
      as (i & st & Hi & _ & He); [|done|done].
    cbv zeta in He. unfold self_into in He at 1.
    destruct (res_exn (call_self _sk (seq_at slist i) (st.1, _).1 _))
      as [e'|] eqn:Hself.
    + simpl in He. injection He as ->. apply call_self_exn in Hself.
      left. exists (seq_at slist i). split; [apply seq_at_elem; lia|done].
    + right.
      apply (for_range_exn_Some (fun _ => True)) in He
        as (j & st' & Hj & _ & He); [|done|done].
      unfold pairwise_into in He.
      destruct (res_exn (call_pairwise _sk (seq_at slist i) (seq_at slist j) st'.1 _))
        as [e'|] eqn:Hcross; [|discriminate].
      simpl in He. injection He as ->. apply call_pairwise_exn in Hcross.
      exists (seq_at slist i), (seq_at slist j).
      split; [apply seq_at_elem; lia|]. split; [apply seq_at_elem; lia|done].
  - unfold call_selfVector. cbv zeta. cbn [res_exn]. intros He.
    apply (for_range_exn_Some (fun _ => True)) in He
      as (i & st & Hi & _ & He); [|done|done].
    simpl in He. apply call_self_exn in He.
    exists (seq_at slist i). split; [apply seq_at_elem; lia|done].
Qed.

End ExceptionProvenance.

(** ** SymKernel: the batched forms against the single forms *)

Section SymKernelForms.
Context {T : Type} `{Num T}.
Implicit Types (sk : SymKernel T) (ilist jlist : list nat).

Lemma SymKernel_pair_below sk ii jj :
  ii < _N sk -> jj < _N sk -> SymKernel_pair sk ii jj = inr (get (_skm sk) ii jj).
Proof. intros Hi Hj. unfold SymKernel_pair. case_decide; [lia|done]. Qed.

Lemma SymKernel_single_below sk ii :
  ii < _N sk -> SymKernel_single sk ii = inr (get (_skm sk) ii ii).
Proof. intros Hi. unfold SymKernel_single. case_decide; [lia|done]. Qed.

(** X24. Each batched form of [SymKernel], when it answers, stores what the
    single forms answer: [km[i][j]] is the answer of [operator()(ii,jj,k)]
    on [(ilist[i], jlist[j])], the diagonal of the single-list matrix form
    and the entries of the vector form are the answers of [operator()(ii,k)]
    on [ilist[i]]; the vector is resized to one entry per index, whatever
    it held before. *)
Theorem X24_SymKernel_batched_are_single sk ilist jlist (kv : list T) :
  (forall km, SymKernel_cross sk ilist jlist = inr km ->
     forall i j ii jj, ilist !! i = Some ii -> jlist !! j = Some jj ->
       SymKernel_pair sk ii jj = inr (get km i j))
  ∧ (forall km, SymKernel_self sk ilist = inr km ->
     forall i ii, ilist !! i = Some ii ->
       SymKernel_single sk ii = inr (get km i i))
  ∧ (forall kv', SymKernel_diag sk ilist kv = inr kv' ->
     length kv' = length ilist
     ∧ forall i ii, ilist !! i = Some ii ->
         exists v, SymKernel_single sk ii = inr v ∧ kv' !! i = Some v).
Proof.
  split; [|split].
  - intros km Hkm i j ii jj Hii Hjj.
    assert (i < length ilist) as Hi by (by eapply lookup_lt_Some).
    assert (j < length jlist) as Hj by (by eapply lookup_lt_Some).
    destruct (SymKernel_cross_value _ _ _ _ Hkm) as [_ Hcells].
    rewrite Hcells, Hii, Hjj by done. simpl.
    revert Hkm. unfold SymKernel_cross. case_decide; [discriminate|].
    destruct (check_indices sk ilist) eqn:Hci; [discriminate|].
    destruct (check_indices sk jlist) eqn:Hcj; [discriminate|]. intros _.
    apply check_indices_None in Hci, Hcj. rewrite Forall_lookup in Hci, Hcj.
    apply SymKernel_pair_below; [by eapply Hci|by eapply Hcj].
  - intros km Hkm i ii Hii.
    assert (i < length ilist) as Hi by (by eapply lookup_lt_Some).
    destruct (SymKernel_self_value _ _ _ Hkm) as [_ Hcells].
    rewrite Hcells by done.
    replace (i `max` i) with i by lia. replace (i `min` i) with i by lia.
    rewrite Hii. simpl.
    revert Hkm. unfold SymKernel_self. case_decide; [discriminate|].
    destruct (check_indices sk ilist) eqn:Hci; [discriminate|]. intros _.
    apply check_indices_None in Hci. rewrite Forall_lookup in Hci.
    apply SymKernel_single_below. by eapply Hci.
  - intros kv'. unfold SymKernel_diag. cbv zeta. case_decide; [discriminate|].
    destruct (check_indices sk ilist) eqn:Hci; [discriminate|]. intros [= <-].
    apply check_indices_None in Hci. rewrite Forall_lookup in Hci.
    set (lil := length ilist).
    pose (val := fun i => get (_skm sk) (default 0 (ilist !! i)) (default 0 (ilist !! i))).
    pose (P := fun (i : nat) (kv : list T) =>
      length kv = lil ∧ forall i', i' < i -> kv !! i' = Some (val i')).
    match goal with |- context [for_range 0 lil ?b ?st] =>
      assert (P lil (for_range 0 lil b st)) as [Hlen Hcells] end.
    { apply for_range_inv; [lia| |].
      - split; [by rewrite length_resize|]. intros i' ?. lia.
      - intros i kv0 Hi [Hlen Hcells]. cbv zeta. split; [by rewrite length_insert|].
        intros i' Hi'. destruct (decide (i' = i)) as [->|Hne].
        + by rewrite list_lookup_insert_eq by lia.
        + rewrite list_lookup_insert_ne by done. apply Hcells. lia. }
    split; [done|]. intros i ii Hii.
    assert (i < lil) as Hi by (by eapply lookup_lt_Some).
    exists (get (_skm sk) ii ii). split.
    + apply SymKernel_single_below. by eapply Hci.
    + rewrite Hcells by done. unfold val. by rewrite Hii.
Qed.

End SymKernelForms.

(** ** resizeMat *)

Section ResizeMat.
Context {T : Type} `{Num T} `{NumMore T}.

Lemma resizeMat_fmap NR NC (m : list (list T)) :
  resizeMat NR NC m = resize NC num0 <$> resize NR [] m.
Proof.
  unfold resizeMat.
  rewrite <- (alter_all (resize NC num0) (resize NR [] m)).
  by rewrite length_resize.
Qed.

(** X25. [resizeMat(m,NR,NC)] leaves [NR] rows of [NC] entries each: every
    entry of [m] at a position that remains keeps its value, every other
    entry is zero; resizing again to the same size changes nothing, and
    [resizeMat(m,N)] is the resizing [updateWMat] performs on the table. *)
Theorem X25_resizeMat NR NC (m : list (list T)) :
  length (resizeMat NR NC m) = NR
  ∧ Forall (fun row => length row = NC) (resizeMat NR NC m)
  ∧ (forall i j, i < NR -> j < NC ->
       get (resizeMat NR NC m) i j
       = match m !! i ≫= (.!! j) with Some x => x | None => num0 end)
  ∧ resizeMat NR NC (resizeMat NR NC m) = resizeMat NR NC m
  ∧ resizeMat NR NR m = resize_square NR m.
Proof.
  rewrite !resizeMat_fmap. split; [by rewrite length_fmap, length_resize|].
  split.
  { apply Forall_fmap, Forall_forall. intros row _. simpl. by rewrite length_resize. }
  split.
  { intros i j Hi Hj. unfold get. rewrite list_lookup_fmap.
    destruct (m !! i) as [row|] eqn:Hrow.
    - rewrite lookup_resize by (try lia; by eapply lookup_lt_Some).
      rewrite Hrow. simpl.
      destruct (row !! j) as [x|] eqn:Hx.
      + rewrite lookup_resize by (try lia; by eapply lookup_lt_Some). by rewrite Hx.
      + apply lookup_ge_None in Hx. by rewrite lookup_resize_new by lia.
    - apply lookup_ge_None in Hrow. rewrite lookup_resize_new by lia. simpl.
      by rewrite lookup_resize_new by (simpl; lia). }
  split; [|by rewrite resize_square_fmap].
  rewrite resize_all_alt by (by rewrite length_fmap, length_resize).
  rewrite <- list_fmap_compose. apply list_fmap_ext. intros i row _. simpl.
  by rewrite resize_all_alt by (by rewrite length_resize).
Qed.

End ResizeMat.

(** ** Instances of the further properties *)

Lemma X3_witness :
  let pk := folder "cache" true (updateWMat 2 (fresh 0.5%float 0.25%float)) in
  let sv := saveWMat fmt_example (fun _ => true) pk ∅ in
  sv.2 = true
  ∧ exists ofs, sv.1.2 !! wmat_fname fmt_example pk = Some ofs
      ∧ cf_N ofs = 2 ∧ length (cf_data ofs) = 4.
Proof.
  intros pk sv.
  assert (sv.2 = true) as Hsave by (vm_compute; reflexivity).
  split; [exact Hsave|].
  destruct (X3_saved_file_layout fmt_example (fun _ => true) pk ∅ Hsave eq_refl)
    as (ofs & Hofs & HN & Hlen & _).
  exists ofs. split; [exact Hofs|]. split; [exact HN|exact Hlen].
Defined.

Lemma X4_witness :
  let pk := folder "cache" true (updateWMat 2 (fresh 0.5%float 0.25%float)) in
  let other := {| cf_N := 1; cf_data := [1%float] |} in
  exists ofs,
    (saveWMat fmt_example (fun _ => true) pk {[ "notes" := other ]}).1.2 !! "notes"
      = Some ofs
    ∧ 1 ≤ cf_N ofs.
Proof.
  intros pk other.
  destruct (X4_save_never_loses_a_larger_cache fmt_example (fun _ => true) pk
              {[ "notes" := other ]} "notes" other) as (ofs & Hofs & HN & _).
  - apply lookup_singleton_eq.
  - exists ofs. split; [exact Hofs|exact HN].
Defined.

Lemma X7_witness :
  let pk := folder "cache" false (fresh 0.5%float 0.25%float) in
  let ifs := {| cf_N := 2; cf_data := [1; 0.5]%float |} in
  let fs : gmap string (CacheFile float) := {[ wmat_fname fmt_example pk := ifs ]} in
  (loadWMat fmt_example pk fs).2 = true
  ∧ exists ifs', fs !! wmat_fname fmt_example pk = Some ifs'
      ∧ dims (cf_N ifs') (wmat (loadWMat fmt_example pk fs).1.1).
Proof.
  intros pk ifs fs.
  assert (dims (_DIM pk) (wmat pk)) as Hd.
  { split; [reflexivity|]. repeat constructor. }
  assert ((loadWMat fmt_example pk fs).2 = true) as Hload.
  { unfold loadWMat, fs. rewrite lookup_singleton_eq. reflexivity. }
  split; [exact Hload|].
  destruct (X7_load_of_a_truncated_file fmt_example pk fs Hd Hload)
    as (ifs' & Hifs & Hdims & _).
  exists ifs'. split; [exact Hifs|exact Hdims].
Defined.

Lemma X8_witness :
  let pk := engine 0.5%float 0.25%float 3 "cache" true in
  let sv := saveWMat fmt_example (fun _ => true) pk ∅ in
  sv.2 = true
  ∧ (loadWMat fmt_example (engine 0.5%float 0.25%float 1 "cache" false) sv.1.2).1.1
    = updateWMat 3 (engine 0.5%float 0.25%float 1 "cache" false).
Proof.
  intros pk sv.
  assert (sv.2 = true) as Hsave by (vm_compute; reflexivity).
  split; [exact Hsave|].
  apply (X8_load_is_extend fmt_example (fun _ => true)
           0.5%float 0.25%float 3 1 "cache" true false ∅);
    [lia|lia|exact Hsave|reflexivity].
Defined.

Lemma X9_witness :
  res_out (call_pairwise (SymKernel_ground indicator_float) [0; 1] [1; 0]
             (engine 0.5%float 0.25%float 4 "" false) 0%float)
  = res_out (call_pairwise (SymKernel_ground indicator_float) [0; 1] [1; 0]
               (engine 0.5%float 0.25%float 1 "" false) 0%float).
Proof.
  destruct (X9_results_do_not_depend_on_the_table_size
              (SymKernel_ground indicator_float) 0.5%float 0.25%float
              [0; 1] [1; 0] 4 "" false 0%float) as [(_ & Hout & _) _]; [lia|].
  exact Hout.
Defined.

(** The ground kernel [SymKernel(2)] answers on the sequences of the
    examples. *)
Ltac members :=
  repeat match goal with
  | H : _ ∈ _ :: _ |- _ => apply elem_of_cons in H as [->|H]
  | H : _ ∈ [] |- _ => by apply elem_of_nil in H
  end.

Lemma X10_witness :
  let r := call_pairwiseMatrix (SymKernel_ground indicator_float)
             [[0; 1]; [1]] [[0]] (fresh 0.5%float 0.25%float) [] in
  res_exn r = None ∧ length (res_out r) = 2.
Proof.
  destruct (X10_pairwiseMatrix_values (SymKernel_ground indicator_float)
              0.5%float 0.25%float [[0; 1]; [1]] [[0]] 1 "" false [])
    as (Hexn & _ & Hlen & _).
  - lia.
  - discriminate.
  - discriminate.
  - repeat constructor; discriminate.
  - repeat constructor; discriminate.
  - intros s t Hs Ht. members; eexists; reflexivity.
  - split; [exact Hexn|exact Hlen].
Defined.

Lemma X11_witness :
  let r := call_selfMatrix (SymKernel_ground indicator_float)
             [[0; 1]; [1]] (fresh 0.5%float 0.25%float) [] in
  res_exn r = None ∧ length (res_out r) = 2.
Proof.
  destruct (X11_selfMatrix_values (SymKernel_ground indicator_float)
              0.5%float 0.25%float [[0; 1]; [1]] 1 "" false [])
    as (Hexn & _ & Hlen & _).
  - lia.
  - discriminate.
  - repeat constructor; discriminate.
  - intros s Hs. members; eexists; reflexivity.
  - intros s t Hs Ht. members; eexists; reflexivity.
  - split; [exact Hexn|exact Hlen].
Defined.

Lemma X12_witness :
  let r := call_selfVector (SymKernel_ground indicator_float)
             [[0; 1]; [1]] (fresh 0.5%float 0.25%float) [7%float] in
  res_exn r = None ∧ length (res_out r) = 2.
Proof.
  destruct (X12_selfVector_values (SymKernel_ground indicator_float)
              0.5%float 0.25%float [[0; 1]; [1]] 1 "" false [7%float])
    as (Hexn & _ & Hlen & _).
  - lia.
  - repeat constructor; discriminate.
  - intros s Hs. members; eexists; reflexivity.
  - split; [exact Hexn|exact Hlen].
Defined.

Lemma X16_witness :
  SymKernel_self diag12_float [1; 0; 1] = SymKernel_cross diag12_float [1; 0; 1] [1; 0; 1].
Proof.
  apply (X16_SymKernel_self_is_cross diag12_float [1; 0; 1]).
  intros a b Ha Hb. simpl in Ha, Hb.
  destruct a as [|[|a]]; [| |lia]; (destruct b as [|[|b]]; [| |lia]); reflexivity.
Defined.

Lemma X19_witness :
  dims 2 (kern2dist [[1; 0.5]; [0.5; 1]]%float)
  ∧ get (kern2dist [[1; 0.5]; [0.5; 1]]%float) 0 1
    = get (kern2dist [[1; 0.5]; [0.5; 1]]%float) 1 0.
Proof.
  destruct (X19_kern2dist [[1; 0.5]; [0.5; 1]]%float 2) as (Hd & _ & Hsym).
  - split; [reflexivity|]. repeat constructor.
  - split; [exact Hd|]. apply Hsym; lia.
Defined.

Lemma X20_witness :
  dims 2 (kern2norm [[4; 2]; [2; 9]]%float).
Proof.
  destruct (X20_kern2norm [[4; 2]; [2; 9]]%float 2) as [Hd _].
  - split; [reflexivity|]. repeat constructor.
  - exact Hd.
Defined.

Lemma X22_witness :
  let r := ktools_dist_matrix (SymKernel_ground indicator_float)
             [[0; 1]; [1]] (fresh 0.5%float 0.25%float) [] in
  res_exn r = None ∧ get (res_out r) 1 1 = 0%float.
Proof.
  destruct (X22_ktools_dist_values (SymKernel_ground indicator_float)
              0.5%float 0.25%float [[0; 1]; [1]] 1 "" false [])
    as (Hexn & _ & _ & Hdiag & _).
  - lia.
  - discriminate.
  - repeat constructor; discriminate.
  - intros s Hs. members; eexists; reflexivity.
  - intros s t Hs Ht. members; eexists; reflexivity.
  - split; [exact Hexn|]. apply Hdiag. simpl. lia.
Defined.

Lemma X23_witness :
  res_exn (call_selfVector (SymKernel_ground indicator_float) [[0]; [5]]
             (fresh 0.5%float 0.25%float) []) = Some Index_exceeds_maximum
  ∧ exists s, s ∈ [[0]; [5]]
      ∧ sk_self (SymKernel_ground indicator_float) s = inl Index_exceeds_maximum.
Proof.
  assert (res_exn (call_selfVector (SymKernel_ground indicator_float) [[0]; [5]]
                     (fresh 0.5%float 0.25%float) []) = Some Index_exceeds_maximum)
    as He by reflexivity.
  split; [exact He|].
  exact (proj2 (proj2 (X23_batched_exceptions (SymKernel_ground indicator_float)
                         [[0]; [5]] [] (fresh 0.5%float 0.25%float) [] []
                         Index_exceeds_maximum)) He).
Defined.
